(** * PageRank: a shallow embedding of [pagerank.py] and its verification

    The three functions of the program, [transition_model],
    [sample_pagerank] and [iterate_pagerank], are embedded with the data
    they manipulate:

    - a Python [dict] is an association list in insertion order, looked
      up by first match and updated in place ([setitem]); a value of
      that type is a dictionary when its keys are pairwise distinct;
    - a Python [set] of pages is the list of its elements;
    - Python exceptions are the [Raise] outcomes of an error monad;
    - Python floats are idealised as exact rationals ([Q]), and the
      literal [0.001] as [1/1000]; equations between ranks are stated
      with [==].  The ranks of the program agree with these up to
      rounding.  Whether and after how many sweeps the loop of
      [iterate_pagerank] stops is decided by comparisons with [0.001],
      so every statement that the loop returns, or when, is a statement
      about exact arithmetic: the program can stop at another sweep when
      a change is within rounding of [0.001], and it need not stop for a
      damping factor within rounding of 1 (see [Binary64] below);
    - the process-wide random generator is the sequence of the numbers
      that successive calls of [random()] return;
    - the [while] loop of [iterate_pagerank] is run with fuel: [None]
      says the loop is still running when the fuel is spent. *)

From Stdlib Require Import List String ZArith QArith Qabs Qround.
From Stdlib Require Import Lia Lqa Bool Permutation Sorted.
From Stdlib Require PrimFloat.
Import ListNotations.

Local Open Scope Q_scope.

(** ** Exceptions and the error monad *)

Inductive exn : Set :=
| KeyError
| IndexError
| ZeroDivisionError
| ValueError.

Inductive result (A : Type) : Type :=
| Ok (a : A)
| Raise (e : exn).

Arguments Ok {A} a.
Arguments Raise {A} e.

Definition bind {A B : Type} (c : result A) (k : A -> result B) : result B :=
  match c with
  | Ok a => k a
  | Raise e => Raise e
  end.

Notation "x <- c ;; k" := (bind c (fun x => k))
  (at level 61, c at next level, right associativity).

(** [for x in xs: body], threading the mutated state [s]. *)
Fixpoint for_each {A S : Type} (xs : list A) (body : A -> S -> result S)
  (s : S) : result S :=
  match xs with
  | [] => Ok s
  | x :: xs' => s' <- body x s ;; for_each xs' body s'
  end.

(** ** Pages, sets of pages, dictionaries *)

Definition page : Set := string.

(** [p in s] for a set of pages. *)
Definition mem (p : page) (s : list page) : bool :=
  existsb (String.eqb p) s.

(** The elements of a list are pairwise distinct. *)
Fixpoint distinct (l : list page) : bool :=
  match l with
  | [] => true
  | x :: t => negb (mem x t) && distinct t
  end.

Definition dict (V : Type) : Type := list (page * V).

Section Dict.
Context {V : Type}.

Definition keys (d : dict V) : list page := map fst d.
Definition values (d : dict V) : list V := map snd d.

Fixpoint lookup (d : dict V) (k : page) : option V :=
  match d with
  | [] => None
  | (k', v) :: t => if String.eqb k k' then Some v else lookup t k
  end.

(** [d[k]] *)
Definition getitem (d : dict V) (k : page) : result V :=
  match lookup d k with
  | Some v => Ok v
  | None => Raise KeyError
  end.

(** [d[k] = v]: an existing key keeps its place, a new one goes last. *)
Fixpoint setitem (d : dict V) (k : page) (v : V) : dict V :=
  match d with
  | [] => [(k, v)]
  | (k', v') :: t =>
      if String.eqb k k' then (k', v) :: t else (k', v') :: setitem t k v
  end.
End Dict.

(** ** Numbers *)

(** [len(x)] as a number. *)
Definition len {A : Type} (l : list A) : Q := inject_Z (Z.of_nat (List.length l)).

(** [a / b] *)
Definition py_div (a b : Q) : result Q :=
  if Qeq_bool b 0 then Raise ZeroDivisionError else Ok (a / b).

Fixpoint Qsum (l : list Q) : Q :=
  match l with
  | [] => 0
  | x :: t => x + Qsum t
  end.

(** ** [transition_model] *)

Definition corpus_t : Type := dict (list page).

Definition transition_model (corpus : corpus_t) (pg : page)
  (damping_factor : Q) : result (dict Q) :=
  let prop_distribution : dict Q := [] in
  let num_pages := len corpus in
  links <- getitem corpus pg ;;
  let num_links := len links in
  if Qlt_le_dec 0 num_links then
    prop_distribution <-
      for_each (keys corpus)
        (fun i pd =>
           v <- py_div (1 - damping_factor) num_pages ;;
           Ok (setitem pd i v))
        prop_distribution ;;
    for_each links
      (fun i pd =>
         old <- getitem pd i ;;
         extra <- py_div damping_factor num_links ;;
         Ok (setitem pd i (old + extra)))
      prop_distribution
  else
    for_each (keys corpus)
      (fun i pd =>
         v <- py_div 1 num_pages ;;
         Ok (setitem pd i v))
      prop_distribution.

(** ** The random source

    [random.choice] and [random.choices], each from one number [u] of
    the random source: an index below the length, taken as the integer
    part of [u * len(seq)], and the bisection of the running totals of
    the weights at [u * total]. *)

(** [random.choice(seq)] *)
Definition random_choice (seq : list page) (u : Q) : result page :=
  match seq with
  | [] => Raise IndexError
  | _ :: _ =>
      match nth_error seq (Z.to_nat (Qfloor (u * len seq))) with
      | Some p => Ok p
      | None => Raise IndexError
      end
  end.

Fixpoint accumulate_from (total : Q) (l : list Q) : list Q :=
  match l with
  | [] => []
  | x :: t => (total + x) :: accumulate_from (total + x) t
  end.

(** [itertools.accumulate(l)] *)
Definition accumulate (l : list Q) : list Q :=
  match l with
  | [] => []
  | x :: t => x :: accumulate_from x t
  end.

(** [bisect.bisect_right(a, x, lo, hi)]; [hi - lo] rounds are enough. *)
Fixpoint bisect_loop (fuel : nat) (a : list Q) (x : Q) (lo hi : nat) : nat :=
  match fuel with
  | O => lo
  | S fuel' =>
      if (lo <? hi)%nat then
        let mid := ((lo + hi) / 2)%nat in
        if Qlt_le_dec x (nth mid a 0) then bisect_loop fuel' a x lo mid
        else bisect_loop fuel' a x (mid + 1) hi
      else lo
  end.

Definition bisect (a : list Q) (x : Q) (lo hi : nat) : nat :=
  bisect_loop (hi - lo) a x lo hi.

(** [random.choices(population, weights, k=1)[0]] *)
Definition random_choices (population : list page) (weights : list Q)
  (u : Q) : result page :=
  let n := List.length population in
  let cum_weights := accumulate weights in
  if negb (List.length cum_weights =? n)%nat then Raise ValueError
  else
    match rev cum_weights with
    | [] => Raise IndexError
    | total :: _ =>
        if Qle_bool total 0 then Raise ValueError
        else
          let hi := (n - 1)%nat in
          match nth_error population (bisect cum_weights (u * total) 0 hi) with
          | Some p => Ok p
          | None => Raise IndexError
          end
    end.

(** ** [sample_pagerank]

    [draws i] is what the [i]-th call of [random()] returns.  The
    counters are integers until the last loop divides them; integers are
    embedded in the rationals. *)

Definition sample_step (draws : nat -> Q) (corpus : corpus_t)
  (damping_factor : Q) (j : nat) (st : dict Q * page)
  : result (dict Q * page) :=
  let '(page_rank, next_page) := st in
  count <- getitem page_rank next_page ;;
  let page_rank := setitem page_rank next_page (count + 1) in
  model <- transition_model corpus next_page damping_factor ;;
  next_page <- random_choices (keys model) (values model) (draws j) ;;
  Ok (page_rank, next_page).

Definition sample_pagerank (draws : nat -> Q) (corpus : corpus_t)
  (damping_factor : Q) (n : Z) : result (dict Q) :=
  page_rank <-
    for_each (keys corpus) (fun key pr => Ok (setitem pr key 0)) [] ;;
  next_page <- random_choice (keys corpus) (draws O) ;;
  st <-
    for_each (seq 1 (Z.to_nat (n - 1)))
      (sample_step draws corpus damping_factor) (page_rank, next_page) ;;
  let page_rank := fst st in
  for_each (keys page_rank)
    (fun key pr =>
       count <- getitem pr key ;;
       v <- py_div count (inject_Z n) ;;
       Ok (setitem pr key v))
    page_rank.

(** The pages that the walk of [sample_pagerank] draws: the first by
    [random.choice], each following one by [random.choices] from the
    transition model of the page before it. *)
Definition draw_next (draws : nat -> Q) (corpus : corpus_t)
  (damping_factor : Q) (j : nat) (pg : page) : result page :=
  model <- transition_model corpus pg damping_factor ;;
  random_choices (keys model) (values model) (draws j).

Fixpoint drawn (draws : nat -> Q) (corpus : corpus_t) (damping_factor : Q)
  (i : nat) : page :=
  match i with
  | O =>
      match random_choice (keys corpus) (draws O) with
      | Ok p => p
      | Raise _ => EmptyString
      end
  | S i' =>
      let pg := drawn draws corpus damping_factor i' in
      match draw_next draws corpus damping_factor i pg with
      | Ok p => p
      | Raise _ => pg
      end
  end.

(** How many of the first [m] draws are the page [p]. *)
Definition visits (draws : nat -> Q) (corpus : corpus_t) (damping_factor : Q)
  (m : nat) (p : page) : nat :=
  count_occ string_dec (map (drawn draws corpus damping_factor) (seq 0 m)) p.

(** ** [iterate_pagerank] *)

(** The body of [for page in corpus], updating [sum_links]. *)
Definition sum_links_body (corpus : corpus_t) (page_rank : dict Q) (N : Q)
  (current_page : page) (pg : page) (sum_links : Q) : result Q :=
  linked <-
    (if negb (String.eqb current_page pg) then
       links <- getitem corpus pg ;; Ok (mem current_page links)
     else Ok false) ;;
  sum_links <-
    (if linked : bool then
       r <- getitem page_rank pg ;;
       links <- getitem corpus pg ;;
       x <- py_div r (len links) ;;
       Ok (sum_links + x)
     else Ok sum_links) ;;
  links <- getitem corpus pg ;;
  match links with
  | [] =>
      r <- getitem page_rank pg ;;
      x <- py_div r N ;;
      Ok (sum_links + x)
  | _ :: _ => Ok sum_links
  end.

(** The first [for current_page in page_rank] of a sweep: it reads
    [page_rank] and writes [calculated_pr]. *)
Definition compute_ranks (corpus : corpus_t) (damping_factor N : Q)
  (page_rank calculated_pr : dict Q) : result (dict Q) :=
  for_each (keys page_rank)
    (fun current_page calculated_pr =>
       sum_links <-
         for_each (keys corpus)
           (sum_links_body corpus page_rank N current_page) 0 ;;
       base <- py_div (1 - damping_factor) N ;;
       let new_pr := base + damping_factor * sum_links in
       Ok (setitem calculated_pr current_page new_pr))
    calculated_pr.

(** The convergence tolerance. *)
Definition tolerance : Q := 1 # 1000.

(** The second [for current_page in page_rank] of a sweep: the
    convergence test and the adoption of the new ranks. *)
Definition adopt_ranks (calculated_pr page_rank : dict Q)
  : result (bool * dict Q) :=
  for_each (keys page_rank)
    (fun current_page (st : bool * dict Q) =>
       let '(condition, page_rank) := st in
       old <- getitem page_rank current_page ;;
       new <- getitem calculated_pr current_page ;;
       let condition :=
         if Qlt_le_dec tolerance (Qabs (old - new)) then true else condition in
       new <- getitem calculated_pr current_page ;;
       Ok (condition, setitem page_rank current_page new))
    (false, page_rank).

(** One round of the [while] body: the condition it leaves, and the
    two dictionaries. *)
Definition sweep_step (corpus : corpus_t) (damping_factor N : Q)
  (page_rank calculated_pr : dict Q) : result (bool * dict Q * dict Q) :=
  calculated_pr <-
    compute_ranks corpus damping_factor N page_rank calculated_pr ;;
  st <- adopt_ranks calculated_pr page_rank ;;
  Ok (fst st, snd st, calculated_pr).

(** [while condition: ...], with fuel; the state is the two
    dictionaries, both of which live across sweeps. *)
Fixpoint while_loop (fuel : nat) (corpus : corpus_t) (damping_factor N : Q)
  (page_rank calculated_pr : dict Q) : option (result (dict Q)) :=
  match fuel with
  | O => None
  | S fuel' =>
      match sweep_step corpus damping_factor N page_rank calculated_pr with
      | Raise e => Some (Raise e)
      | Ok (condition, page_rank, calculated_pr) =>
          if condition : bool then
            while_loop fuel' corpus damping_factor N page_rank calculated_pr
          else Some (Ok page_rank)
      end
  end.

Definition iterate_pagerank (fuel : nat) (corpus : corpus_t)
  (damping_factor : Q) : option (result (dict Q)) :=
  let N := len corpus in
  let calculated_pr : dict Q := [] in
  match
    for_each (keys corpus)
      (fun pg pr => v <- py_div 1 N ;; Ok (setitem pr pg v)) []
  with
  | Raise e => Some (Raise e)
  | Ok page_rank => while_loop fuel corpus damping_factor N page_rank calculated_pr
  end.

(** ** Sample corpora *)

Definition two_cycle : corpus_t :=
  [("1.html", ["2.html"]); ("2.html", ["1.html"])]%string.

Definition sink_corpus : corpus_t :=
  [("1.html", []); ("2.html", ["1.html"])]%string.

Definition three_pages : corpus_t :=
  [("1.html", ["2.html"]); ("2.html", ["1.html"]); ("3.html", ["1.html"])]%string.

Definition self_loop : corpus_t :=
  [("1.html", ["1.html"; "2.html"]); ("2.html", ["1.html"])]%string.


(** A random source whose first number is 0 and whose others are 1/2. *)
Definition zero_then_half (i : nat) : Q :=
  match i with
  | O => 0
  | S _ => 1 # 2
  end.

(** ** The transition distribution as a function *)

(** [for i in links: pd[i] += x] *)
Definition boost (x : Q) (links : list page) (pd : dict Q) : dict Q :=
  fold_left
    (fun pd i =>
       setitem pd i (match lookup pd i with Some v => v | None => 0 end + x))
    links pd.

Definition transition (corpus : corpus_t) (pg : page) (d : Q) : dict Q :=
  let links :=
    match lookup corpus pg with Some ls => ls | None => [] end in
  if Qlt_le_dec 0 (len links) then
    boost (d / len links) links
      (map (fun p => (p, (1 - d) / len corpus)) (keys corpus))
  else map (fun p => (p, 1 / len corpus)) (keys corpus).

(** ** The sweep as a function

    What one sweep of [iterate_pagerank] computes, written as functions
    of the ranks of the previous sweep; the lemmas below show that the
    loops above compute exactly these values. *)

(** [page_rank[q]], and [corpus[q]], for keys that are present. *)
Definition rank (r : dict Q) (q : page) : Q :=
  match lookup r q with
  | Some v => v
  | None => 0
  end.

Definition links_of (corpus : corpus_t) (q : page) : list page :=
  match lookup corpus q with
  | Some ls => ls
  | None => []
  end.

Definition is_nil {A : Type} (l : list A) : bool :=
  match l with
  | [] => true
  | _ :: _ => false
  end.

(** One round of [for page in corpus] on the accumulator [sum_links]. *)
Definition add_links (corpus : corpus_t) (r : dict Q) (p : page)
  (sum_links : Q) (q : page) : Q :=
  let ls := links_of corpus q in
  let sum_links :=
    if negb (String.eqb p q) && mem p ls then sum_links + rank r q / len ls
    else sum_links in
  if is_nil ls then sum_links + rank r q / len corpus else sum_links.

Definition sum_links (corpus : corpus_t) (r : dict Q) (p : page) : Q :=
  fold_left (add_links corpus r p) (keys corpus) 0.

Definition new_rank (corpus : corpus_t) (d : Q) (r : dict Q) (p : page) : Q :=
  (1 - d) / len corpus + d * sum_links corpus r p.

Definition sweep (corpus : corpus_t) (d : Q) (r : dict Q) : dict Q :=
  map (fun p => (p, new_rank corpus d r p)) (keys r).

(** [abs(old - new) > 0.001] *)
Definition moved (old new : Q) : bool :=
  if Qlt_le_dec tolerance (Qabs (old - new)) then true else false.

(** [condition] after the second loop of a sweep from [r] to [r']. *)
Definition changed (r r' : dict Q) : bool :=
  existsb (fun p => moved (rank r p) (rank r' p)) (keys r).

Definition initial_ranks (corpus : corpus_t) : dict Q :=
  map (fun p => (p, 1 / len corpus)) (keys corpus).

(** The ranks after [k] sweeps from [r]. *)
Definition sweeps_from (corpus : corpus_t) (d : Q) (r : dict Q) (k : nat)
  : dict Q :=
  Nat.iter k (sweep corpus d) r.

(** Sweep [k + 1] from [r] is the first one after which [condition] is
    false. *)
Definition stops_at (corpus : corpus_t) (d : Q) (r : dict Q) (k : nat)
  : Prop :=
  (forall j, (j < k)%nat ->
     changed (sweeps_from corpus d r j) (sweeps_from corpus d r (S j)) = true)
  /\ changed (sweeps_from corpus d r k) (sweeps_from corpus d r (S k)) = false.

(** ** Sums *)

Definition sumQ {A : Type} (f : A -> Q) (l : list A) : Q := Qsum (map f l).

(** The total rank mass of a mapping. *)
Definition total (r : dict Q) : Q := Qsum (values r).

(** How much of the rank of [q] a sweep hands to [p]. *)
Definition weight (corpus : corpus_t) (p q : page) : Q :=
  (if negb (String.eqb p q) && mem p (links_of corpus q)
   then 1 / len (links_of corpus q) else 0)
  + (if is_nil (links_of corpus q) then 1 / len corpus else 0).

(** The distance between two rank mappings over the pages [ks]. *)
Definition distance (ks : list page) (r r' : dict Q) : Q :=
  sumQ (fun p => Qabs (rank r' p - rank r p)) ks.

(** No page has a negative rank. *)
Definition nonneg_ranks (r : dict Q) : Prop := forall q, 0 <= rank r q.

(** ** The recurrence, as the specification words it

    The incoming-link sum over every [q] with [p] in [links(q)], plus
    [rank[q] / N] for every page [q] without outgoing links. *)
Definition spec_new_rank (corpus : corpus_t) (d : Q) (r : dict Q) (p : page)
  : Q :=
  (1 - d) / len corpus
  + d * (sumQ (fun q => rank r q / len (links_of corpus q))
           (filter (fun q => mem p (links_of corpus q)) (keys corpus))
         + sumQ (fun q => rank r q / len corpus)
             (filter (fun q => is_nil (links_of corpus q)) (keys corpus))).

(** The same recurrence with the incoming-link sum restricted to the
    pages [q] other than [p], which is how the loop tests it. *)
Definition new_rank_excluding_self (corpus : corpus_t) (d : Q) (r : dict Q)
  (p : page) : Q :=
  (1 - d) / len corpus
  + d * (sumQ (fun q => rank r q / len (links_of corpus q))
           (filter (fun q => negb (p =? q)%string && mem p (links_of corpus q))
              (keys corpus))
         + sumQ (fun q => rank r q / len corpus)
             (filter (fun q => is_nil (links_of corpus q)) (keys corpus))).

(** ** Well-formed corpora *)

(** No page links to itself. *)
Definition no_self_links (corpus : corpus_t) : bool :=
  forallb (fun q => negb (mem q (links_of corpus q))) (keys corpus).

(** Every link leads to a page of the corpus. *)
Definition no_dangling_links (corpus : corpus_t) : bool :=
  forallb (fun q => forallb (fun p => mem p (keys corpus)) (links_of corpus q))
    (keys corpus).

(** Every link set is a set. *)
Definition link_sets (corpus : corpus_t) : bool :=
  forallb (fun q => distinct (links_of corpus q)) (keys corpus).

(** A number of sweeps after which the loop of [iterate_pagerank] has
    stopped, for a damping factor below 1. *)
Definition sweep_bound (d : Q) : nat :=
  Z.to_nat (Qceiling (2 / (tolerance * (1 - d)))).

(** The ranks [r] are left as they are by a sweep. *)
Definition fixed_point (corpus : corpus_t) (d : Q) (r : dict Q) : Prop :=
  forall p, In p (keys corpus) -> rank (sweep corpus d r) p == rank r p.

(** ** [crawl]

    The directory listing, the contents of the files and the matches of
    the link pattern are what [os.listdir], [f.read()] and [re.findall]
    return; they are taken as given, and so is the success of the file
    operations.  [set(l)] keeps one copy of every element of [l]. *)

(** [s.endswith(suffix)] *)
Definition endswith (s suffix : string) : bool :=
  let n := String.length s in
  let m := String.length suffix in
  (m <=? n)%nat && (substring (n - m) m s =? suffix)%string.

(** [set(l)] *)
Definition to_set (l : list page) : list page := nodup string_dec l.

(** [s - {x}] *)
Definition set_remove (x : page) (s : list page) : list page :=
  filter (fun y => negb (y =? x)%string) s.

(** The body of [for filename in os.listdir(directory)]. *)
Definition crawl_file (read : string -> string)
  (findall : string -> list string) (filename : string) (pages : corpus_t)
  : result corpus_t :=
  if negb (endswith filename ".html") then Ok pages
  else
    let contents := read filename in
    let links := findall contents in
    Ok (setitem pages filename (set_remove filename (to_set links))).

(** The body of [for filename in pages]. *)
Definition crawl_keep (filename : string) (pages : corpus_t)
  : result corpus_t :=
  links <- getitem pages filename ;;
  Ok (setitem pages filename
        (to_set (filter (fun link => mem link (keys pages)) links))).

Definition crawl (listdir : list string) (read : string -> string)
  (findall : string -> list string) : result corpus_t :=
  let pages : corpus_t := [] in
  pages <- for_each listdir (crawl_file read findall) pages ;;
  for_each (keys pages) crawl_keep pages.

(** ** [main]

    What [main] prints, line by line, and how it ends.  [fmt] is the
    formatting of a rank with four decimals. *)

Definition DAMPING : Q := 85 # 100.
Definition SAMPLES : Z := 10000.

Inductive ending : Set :=
| Returns
| Exits (message : string)
| Fails (e : exn)
| Runs.

(** [sorted(l)] for strings, by insertion. *)
Fixpoint insert_sorted (x : string) (l : list string) : list string :=
  match l with
  | [] => [x]
  | y :: t => if String.leb x y then x :: y :: t else y :: insert_sorted x t
  end.

Definition sorted (l : list string) : list string :=
  fold_right insert_sorted [] l.

(** The line that is printed for a page. *)
Definition rank_line (fmt : Q -> string) (ranks : dict Q) (pg : page)
  : string :=
  ("  " ++ pg ++ ": " ++ fmt (rank ranks pg))%string.

(** [for page in pages: print(f"  {page}: {ranks[page]:.4f}")], after
    the lines [out]; a failure keeps what is printed before it. *)
Fixpoint print_ranks (fmt : Q -> string) (ranks : dict Q)
  (pages : list string) (out : list string) : list string * option exn :=
  match pages with
  | [] => (out, None)
  | pg :: pages' =>
      match getitem ranks pg with
      | Raise e => (out, Some e)
      | Ok v =>
          print_ranks fmt ranks pages'
            (out ++ [("  " ++ pg ++ ": " ++ fmt v)%string])
      end
  end.

Definition main (argv : list string) (listdir : string -> list string)
  (read : string -> string -> string) (findall : string -> list string)
  (draws : nat -> Q) (fmt : Q -> string) (fuel : nat)
  : list string * ending :=
  match argv with
  | [_; directory] =>
      match crawl (listdir directory) (read directory) findall with
      | Raise e => ([], Fails e)
      | Ok corpus =>
          match sample_pagerank draws corpus DAMPING SAMPLES with
          | Raise e => ([], Fails e)
          | Ok ranks =>
              let out := ["PageRank Results from Sampling (n = 10000)"%string] in
              match print_ranks fmt ranks (sorted (keys ranks)) out with
              | (out, Some e) => (out, Fails e)
              | (out, None) =>
                  match iterate_pagerank fuel corpus DAMPING with
                  | None => (out, Runs)
                  | Some (Raise e) => (out, Fails e)
                  | Some (Ok ranks) =>
                      let out :=
                        out ++ ["PageRank Results from Iteration"%string] in
                      match print_ranks fmt ranks (sorted (keys ranks)) out with
                      | (out, Some e) => (out, Fails e)
                      | (out, None) => (out, Returns)
                      end
                  end
              end
          end
      end
  | _ => ([], Exits "Usage: python pagerank.py corpus")
  end.

(** * [iterate_pagerank] on binary64 numbers

    The same loop with the numbers the program computes with: Python's
    [float] is the binary64 format, with every operation rounded to the
    nearest number, ties to even.  The functions are those of
    [iterate_pagerank] above with the operations of [float] in place
    of those of [Q]; an [int] that meets a [float] is converted first
    ([len(...)], [N], the [1] of [1 - damping_factor] and the [0] that
    [sum_links] starts from), and [1 / N] on two [int]s is the rounded
    quotient. *)

Module Binary64.
Import PrimFloat.
Local Open Scope float_scope.

(** [float(n)], exact for the lengths met here (below 2^53). *)
Fixpoint of_nat (n : nat) : float :=
  match n with
  | O => 0
  | S k => of_nat k + 1
  end.

Definition len {A : Type} (l : list A) : float := of_nat (List.length l).

Definition py_div (a b : float) : result float :=
  if b =? 0 then Raise ZeroDivisionError else Ok (a / b).

Definition sum_links_body (corpus : corpus_t) (page_rank : dict float)
  (N : float) (current_page : page) (pg : page) (sum_links : float)
  : result float :=
  linked <-
    (if negb (String.eqb current_page pg) then
       links <- getitem corpus pg ;; Ok (mem current_page links)
     else Ok false) ;;
  sum_links <-
    (if linked : bool then
       r <- getitem page_rank pg ;;
       links <- getitem corpus pg ;;
       x <- py_div r (len links) ;;
       Ok (sum_links + x)
     else Ok sum_links) ;;
  links <- getitem corpus pg ;;
  match links with
  | [] =>
      r <- getitem page_rank pg ;;
      x <- py_div r N ;;
      Ok (sum_links + x)
  | _ :: _ => Ok sum_links
  end.

Definition compute_ranks (corpus : corpus_t) (damping_factor N : float)
  (page_rank calculated_pr : dict float) : result (dict float) :=
  for_each (keys page_rank)
    (fun current_page calculated_pr =>
       sum_links <-
         for_each (keys corpus)
           (sum_links_body corpus page_rank N current_page) 0 ;;
       base <- py_div (1 - damping_factor) N ;;
       let new_pr := base + damping_factor * sum_links in
       Ok (setitem calculated_pr current_page new_pr))
    calculated_pr.

(** The literal [0.001]: the binary64 number nearest to 1/1000. *)
Definition tolerance : float := 0x1.0624dd2f1a9fcp-10.

Definition adopt_ranks (calculated_pr page_rank : dict float)
  : result (bool * dict float) :=
  for_each (keys page_rank)
    (fun current_page (st : bool * dict float) =>
       let '(condition, page_rank) := st in
       old <- getitem page_rank current_page ;;
       new <- getitem calculated_pr current_page ;;
       let condition :=
         if tolerance <? PrimFloat.abs (old - new) then true else condition in
       new <- getitem calculated_pr current_page ;;
       Ok (condition, setitem page_rank current_page new))
    (false, page_rank).

Definition sweep_step (corpus : corpus_t) (damping_factor N : float)
  (page_rank calculated_pr : dict float)
  : result (bool * dict float * dict float) :=
  calculated_pr <-
    compute_ranks corpus damping_factor N page_rank calculated_pr ;;
  st <- adopt_ranks calculated_pr page_rank ;;
  Ok (fst st, snd st, calculated_pr).

Fixpoint while_loop (fuel : nat) (corpus : corpus_t)
  (damping_factor N : float) (page_rank calculated_pr : dict float)
  : option (result (dict float)) :=
  match fuel with
  | O => None
  | S fuel' =>
      match sweep_step corpus damping_factor N page_rank calculated_pr with
      | Raise e => Some (Raise e)
      | Ok (condition, page_rank, calculated_pr) =>
          if condition : bool then
            while_loop fuel' corpus damping_factor N page_rank calculated_pr
          else Some (Ok page_rank)
      end
  end.

Definition iterate_pagerank (fuel : nat) (corpus : corpus_t)
  (damping_factor : float) : option (result (dict float)) :=
  let N := len corpus in
  let calculated_pr : dict float := [] in
  match
    for_each (keys corpus)
      (fun pg pr => v <- py_div 1 N ;; Ok (setitem pr pg v)) []
  with
  | Raise e => Some (Raise e)
  | Ok page_rank => while_loop fuel corpus damping_factor N page_rank calculated_pr
  end.

(** The largest binary64 number below 1, which Python prints as
    [0.9999999999999999]. *)
Definition below_one : float := 0x1.fffffffffffffp-1.

(** 1 -> 2, 2 -> 3, 3 -> 1, 4 -> 1. *)
Definition rotation : corpus_t :=
  [("1.html", ["2.html"]); ("2.html", ["3.html"]); ("3.html", ["1.html"]);
   ("4.html", ["1.html"])]%string.

(** The ranks that the loop goes through on [rotation] with damping
    factor [below_one], from the first sweep on. *)
Definition rotation_ranks (a b c : float) : dict float :=
  [("1.html", a); ("2.html", b); ("3.html", c);
   ("4.html", 0x1p-55)]%string.

End Binary64.


(** * Proofs *)

(** ** The model on the sample corpora *)

Example transition_model_two_cycle :
  transition_model two_cycle "1.html"%string (85 # 100)
  = Ok [("1.html"%string, 15 # 200); ("2.html"%string, 18500 # 20000)].
Proof. reflexivity. Qed.

Example transition_model_sink :
  transition_model sink_corpus "1.html"%string (85 # 100)
  = Ok [("1.html"%string, 1 # 2); ("2.html"%string, 1 # 2)].
Proof. reflexivity. Qed.

(** A link that leaves the corpus makes [prop_distribution[i] += ...]
    fail, and a page that is not in the corpus makes [corpus[page]]
    fail. *)
Example transition_model_dangling :
  transition_model [("1.html", ["9.html"])]%string "1.html"%string (85 # 100)
  = Raise KeyError
  /\ transition_model two_cycle "9.html"%string (85 # 100) = Raise KeyError.
Proof. split; reflexivity. Qed.

Example sample_pagerank_two_cycle :
  sample_pagerank (fun _ => 1 # 2) two_cycle (85 # 100) 5
  = Ok [("1.html"%string, 2 # 5); ("2.html"%string, 2 # 5)]
  /\ sample_pagerank (fun _ => 1 # 2) two_cycle (85 # 100) 1
     = Ok [("1.html"%string, 0 # 1); ("2.html"%string, 0 # 1)].
Proof. split; vm_compute; reflexivity. Qed.

(** The symmetric two-cycle converges in one sweep to a half each; with
    a page without links, that page ends with the larger rank. *)
Example iterate_pagerank_two_cycle :
  exists r,
    iterate_pagerank 1 two_cycle (85 # 100) = Some (Ok r)
    /\ keys r = ["1.html"; "2.html"]%string
    /\ rank r "1.html"%string == 1 # 2
    /\ rank r "2.html"%string == 1 # 2.
Proof.
  eexists. split; [vm_compute; reflexivity|]. repeat split.
Qed.

Example iterate_pagerank_sink :
  exists r,
    iterate_pagerank 20 sink_corpus (85 # 100) = Some (Ok r)
    /\ rank r "2.html"%string < rank r "1.html"%string.
Proof.
  eexists. split; [vm_compute; reflexivity|]. vm_compute. reflexivity.
Qed.

(** ** Sets and dictionaries *)

Lemma mem_In (p : page) (s : list page) : mem p s = true <-> In p s.
Proof.
  unfold mem. rewrite existsb_exists. split.
  - intros (x & Hx & E). apply String.eqb_eq in E. now subst.
  - intros H. exists p. split; [assumption | apply String.eqb_refl].
Qed.

Lemma mem_false (p : page) (s : list page) : mem p s = false <-> ~ In p s.
Proof.
  rewrite <- mem_In. destruct (mem p s); split; congruence.
Qed.

Lemma distinct_NoDup (l : list page) : distinct l = true <-> NoDup l.
Proof.
  induction l as [|x t IH]; simpl.
  - split; [constructor | reflexivity].
  - rewrite andb_true_iff, negb_true_iff, mem_false, IH. split.
    + intros [H1 H2]. now constructor.
    + intros H. inversion H. now split.
Qed.

Section DictFacts.
Context {V : Type}.
Implicit Types (d : dict V) (k : page) (v : V).

Lemma lookup_In d k : In k (keys d) -> exists v, lookup d k = Some v.
Proof.
  induction d as [|[k' v'] t IH]; simpl; [tauto|].
  intros H. destruct (String.eqb_spec k k') as [->|N].
  - now exists v'.
  - destruct H as [H|H]; [congruence | auto].
Qed.

Lemma lookup_notin d k : ~ In k (keys d) -> lookup d k = None.
Proof.
  induction d as [|[k' v'] t IH]; simpl; [reflexivity|].
  intros H. destruct (String.eqb_spec k k') as [->|N]; [tauto | auto].
Qed.

Lemma lookup_Some_In d k v : lookup d k = Some v -> In k (keys d).
Proof.
  induction d as [|[k' v'] t IH]; simpl; [discriminate|].
  destruct (String.eqb_spec k k') as [->|N]; auto.
Qed.

Lemma getitem_In d k :
  In k (keys d) -> exists v, lookup d k = Some v /\ getitem d k = Ok v.
Proof.
  intros H. destruct (lookup_In d k H) as [v E].
  exists v. unfold getitem. now rewrite E.
Qed.

Lemma keys_setitem_in d k v : In k (keys d) -> keys (setitem d k v) = keys d.
Proof.
  induction d as [|[k' v'] t IH]; simpl; [tauto|].
  intros H. destruct (String.eqb_spec k k') as [->|N]; simpl.
  - reflexivity.
  - f_equal. apply IH. destruct H; congruence.
Qed.

Lemma setitem_notin d k v : ~ In k (keys d) -> setitem d k v = d ++ [(k, v)].
Proof.
  induction d as [|[k' v'] t IH]; simpl; [reflexivity|].
  intros H. destruct (String.eqb_spec k k') as [->|N]; [tauto|].
  f_equal. apply IH. tauto.
Qed.

Lemma lookup_setitem_eq d k v : lookup (setitem d k v) k = Some v.
Proof.
  induction d as [|[k' v'] t IH]; simpl.
  - now rewrite String.eqb_refl.
  - destruct (String.eqb_spec k k') as [->|N]; simpl.
    + now rewrite String.eqb_refl.
    + destruct (String.eqb_spec k k'); [congruence | exact IH].
Qed.

Lemma lookup_setitem_neq d k k' v :
  k' <> k -> lookup (setitem d k v) k' = lookup d k'.
Proof.
  intros N. induction d as [|[k0 v0] t IH]; simpl.
  - destruct (String.eqb_spec k' k); [congruence | reflexivity].
  - destruct (String.eqb_spec k k0) as [->|N0]; simpl.
    + destruct (String.eqb_spec k' k0); [congruence | reflexivity].
    + now rewrite IH.
Qed.

Lemma lookup_map (f : page -> V) (ks : list page) k :
  In k ks -> lookup (map (fun p => (p, f p)) ks) k = Some (f k).
Proof.
  induction ks as [|a t IH]; simpl; [tauto|].
  intros H. destruct (String.eqb_spec k a) as [->|N]; [reflexivity|].
  apply IH. destruct H; congruence.
Qed.

Lemma keys_map (f : page -> V) (ks : list page) :
  keys (map (fun p => (p, f p)) ks) = ks.
Proof.
  unfold keys. rewrite map_map. simpl. apply map_id.
Qed.

End DictFacts.

(** ** Loops *)

(** A loop whose body never raises is a fold. *)
Lemma for_each_fold {A S : Type} (P : S -> Prop) (f : A -> S -> S)
  (body : A -> S -> result S) (xs : list A) :
  (forall x s, In x xs -> P s -> body x s = Ok (f x s) /\ P (f x s)) ->
  forall s, P s ->
    for_each xs body s = Ok (fold_left (fun s x => f x s) xs s)
    /\ P (fold_left (fun s x => f x s) xs s).
Proof.
  induction xs as [|x t IH]; simpl; intros H s Hs; [now split|].
  destruct (H x s (or_introl eq_refl) Hs) as [E Hs'].
  rewrite E. simpl. apply IH; [|assumption].
  intros y s' Hy. apply H. now right.
Qed.

(** [for k in ks: d[k] = f k] *)
Lemma fold_setitem_lookup {V : Type} (f : page -> V) (ks : list page) :
  forall (d : dict V) (k : page),
    lookup (fold_left (fun d k => setitem d k (f k)) ks d) k
    = if mem k ks then Some (f k) else lookup d k.
Proof.
  induction ks as [|a t IH]; simpl; intros d k; [reflexivity|].
  rewrite IH. destruct (mem k t) eqn:M.
  - now rewrite orb_true_r.
  - rewrite orb_false_r. destruct (String.eqb_spec k a) as [->|N].
    + apply lookup_setitem_eq.
    + now apply lookup_setitem_neq.
Qed.

Lemma fold_setitem_fresh {V : Type} (f : page -> V) (ks : list page) :
  forall d : dict V,
    NoDup (keys d ++ ks) ->
    fold_left (fun d k => setitem d k (f k)) ks d
    = d ++ map (fun p => (p, f p)) ks.
Proof.
  induction ks as [|a t IH]; simpl; intros d H.
  - now rewrite app_nil_r.
  - assert (Ha : ~ In a (keys d)).
    { apply NoDup_remove_2 in H. intros C. apply H. apply in_or_app. now left. }
    rewrite setitem_notin by assumption.
    rewrite IH.
    + now rewrite <- app_assoc.
    + unfold keys. rewrite map_app. simpl. rewrite <- app_assoc. exact H.
Qed.

(** A dictionary comprehension over distinct keys. *)
Lemma comprehension {V : Type} (f : page -> V) (ks : list page) :
  NoDup ks ->
  fold_left (fun d k => setitem d k (f k)) ks [] = map (fun p => (p, f p)) ks.
Proof.
  intros H. now rewrite fold_setitem_fresh.
Qed.

(** ** Numbers and sums *)

Lemma len_cons {A : Type} (a : A) (l : list A) : len (a :: l) == len l + 1.
Proof.
  unfold len. cbn [List.length]. rewrite Nat2Z.inj_succ, <- Z.add_1_r.
  now rewrite inject_Z_plus.
Qed.

Lemma len_nonneg {A : Type} (l : list A) : 0 <= len l.
Proof.
  unfold len. change 0 with (inject_Z 0). rewrite <- Zle_Qle. lia.
Qed.

Lemma len_pos {A : Type} (l : list A) : l <> [] -> 0 < len l.
Proof.
  intros H. destruct l as [|a t]; [congruence|].
  rewrite len_cons. pose proof (len_nonneg t). lra.
Qed.

Lemma py_div_ok (a b : Q) : ~ b == 0 -> py_div a b = Ok (a / b).
Proof.
  intros H. unfold py_div. destruct (Qeq_bool b 0) eqn:E; [|reflexivity].
  apply Qeq_bool_eq in E. contradiction.
Qed.

Lemma total_setitem (d : dict Q) (k : page) (v : Q) :
  In k (keys d) -> total (setitem d k v) == total d - rank d k + v.
Proof.
  unfold total, rank.
  induction d as [|[k' v'] t IH]; simpl; [tauto|].
  intros H. destruct (String.eqb_spec k k') as [->|N]; simpl.
  - lra.
  - rewrite IH by (destruct H; congruence). lra.
Qed.

Lemma total_const (c : Q) (ks : list page) :
  total (map (fun p => (p, c)) ks) == len ks * c.
Proof.
  unfold total. induction ks as [|a t IH]; cbn [map values Qsum snd].
  - change (len (@nil page)) with 0. lra.
  - rewrite len_cons. unfold values in IH. rewrite IH. lra.
Qed.

(** ** [transition_model] computes [transition] *)

Lemma boost_keys (x : Q) (links : list page) :
  forall pd, incl links (keys pd) -> keys (boost x links pd) = keys pd.
Proof.
  unfold boost.
  induction links as [|a t IH]; simpl; intros pd H; [reflexivity|].
  assert (Ha : In a (keys pd)) by (apply H; now left).
  rewrite IH; rewrite keys_setitem_in; auto.
  intros y Hy. apply H. now right.
Qed.

Lemma boost_total (x : Q) (links : list page) :
  forall pd, incl links (keys pd) ->
    total (boost x links pd) == total pd + len links * x.
Proof.
  unfold boost.
  induction links as [|a t IH]; cbn [fold_left]; intros pd H.
  - change (len (@nil page)) with 0. lra.
  - assert (Ha : In a (keys pd)) by (apply H; now left).
    rewrite IH.
    + rewrite total_setitem by assumption. rewrite len_cons.
      unfold rank. lra.
    + rewrite keys_setitem_in by assumption.
      intros y Hy. apply H. now right.
Qed.

Lemma boost_rank (x : Q) (links : list page) (i : page) :
  NoDup links ->
  forall pd,
    rank (boost x links pd) i == rank pd i + (if mem i links then x else 0).
Proof.
  unfold boost.
  induction 1 as [|a t Ha ND IH]; simpl; intros pd; [lra|].
  rewrite IH. unfold rank at 1.
  destruct (String.eqb_spec i a) as [->|N]; simpl.
  - rewrite lookup_setitem_eq.
    apply mem_false in Ha. rewrite Ha. unfold rank. lra.
  - rewrite lookup_setitem_neq by assumption. fold (rank pd i). lra.
Qed.

Lemma transition_model_ok (corpus : corpus_t) (pg : page) (d : Q) :
  NoDup (keys corpus) ->
  In pg (keys corpus) ->
  incl (links_of corpus pg) (keys corpus) ->
  transition_model corpus pg d = Ok (transition corpus pg d).
Proof.
  intros ND Hpg Hcl.
  unfold transition_model, transition.
  destruct (getitem_In corpus pg Hpg) as (ls & E & G).
  unfold links_of in Hcl. rewrite G, E in *. simpl.
  assert (HN : ~ len corpus == 0).
  { assert (0 < len corpus); [|lra].
    apply len_pos. intros ->. contradiction. }
  destruct (Qlt_le_dec 0 (len ls)) as [L|L].
  - destruct (for_each_fold (fun _ => True)
                (fun i (pd : dict Q) => setitem pd i ((1 - d) / len corpus))
                (fun i pd => v <- py_div (1 - d) (len corpus) ;;
                             Ok (setitem pd i v))
                (keys corpus)) with (s := @nil (page * Q)) as [E1 _]; auto.
    { intros x s _ _. now rewrite py_div_ok. }
    rewrite E1. simpl. rewrite comprehension by assumption.
    set (pd0 := map _ (keys corpus)).
    destruct (for_each_fold (fun pd : dict Q => keys pd = keys corpus)
                (fun i (pd : dict Q) =>
                   setitem pd i
                     (match lookup pd i with Some v => v | None => 0 end
                      + d / len ls))
                (fun i pd => old <- getitem pd i ;;
                             extra <- py_div d (len ls) ;;
                             Ok (setitem pd i (old + extra)))
                ls) with (s := pd0) as [E2 _].
    + intros x s Hx Hs.
      assert (Hin : In x (keys s)) by (rewrite Hs; now apply Hcl).
      destruct (getitem_In s x Hin) as (v & Ev & Gv).
      rewrite Gv, Ev. simpl. rewrite py_div_ok by lra. simpl.
      split; [reflexivity|]. now rewrite keys_setitem_in.
    + apply keys_map.
    + exact E2.
  - destruct (for_each_fold (fun _ => True)
                (fun i (pd : dict Q) => setitem pd i (1 / len corpus))
                (fun i pd => v <- py_div 1 (len corpus) ;; Ok (setitem pd i v))
                (keys corpus)) with (s := @nil (page * Q)) as [E1 _]; auto.
    { intros x s _ _. now rewrite py_div_ok. }
    rewrite E1. now rewrite comprehension.
Qed.

Lemma transition_keys (corpus : corpus_t) (pg : page) (d : Q) :
  incl (links_of corpus pg) (keys corpus) ->
  keys (transition corpus pg d) = keys corpus.
Proof.
  intros H. unfold transition. fold (links_of corpus pg).
  destruct (Qlt_le_dec 0 _).
  - rewrite boost_keys; rewrite keys_map; auto.
  - apply keys_map.
Qed.

Lemma transition_total (corpus : corpus_t) (pg : page) (d : Q) :
  corpus <> [] ->
  incl (links_of corpus pg) (keys corpus) ->
  total (transition corpus pg d) == 1.
Proof.
  intros NE H. unfold transition. fold (links_of corpus pg).
  assert (HN : 0 < len corpus) by now apply len_pos.
  assert (HK : len (keys corpus) == len corpus).
  { unfold len, keys. now rewrite length_map. }
  destruct (Qlt_le_dec 0 _) as [L|L].
  - rewrite boost_total by (rewrite keys_map; auto).
    rewrite total_const, HK. field. split; lra.
  - rewrite total_const, HK. field. lra.
Qed.

(** ** The random source picks a member *)

Lemma random_choice_ok (seq : list page) (u : Q) :
  seq <> [] -> 0 <= u < 1 ->
  exists p, random_choice seq u = Ok p /\ In p seq.
Proof.
  intros NE [U0 U1]. unfold random_choice.
  destruct seq as [|a t] eqn:Es; [congruence|]. rewrite <- Es.
  assert (L : 0 < len seq) by (apply len_pos; congruence).
  set (x := u * len seq).
  assert (X0 : 0 <= x) by (unfold x; nra).
  assert (X1 : x < len seq) by (unfold x; nra).
  assert (F0 : (0 <= Qfloor x)%Z).
  { change 0%Z with (Qfloor 0). now apply Qfloor_resp_le. }
  assert (F1 : (Qfloor x < Z.of_nat (List.length seq))%Z).
  { rewrite Zlt_Qlt. apply Qle_lt_trans with x; [apply Qfloor_le | exact X1]. }
  assert (I : (Z.to_nat (Qfloor x) < List.length seq)%nat) by lia.
  destruct (nth_error seq (Z.to_nat (Qfloor x))) as [p|] eqn:E.
  - exists p. split; [reflexivity|]. eapply nth_error_In; eassumption.
  - apply nth_error_None in E. lia.
Qed.

Lemma bisect_loop_bounds (a : list Q) (x : Q) (fuel : nat) :
  forall lo hi, (lo <= hi)%nat ->
    (lo <= bisect_loop fuel a x lo hi <= hi)%nat.
Proof.
  induction fuel as [|f IH]; cbn [bisect_loop]; intros lo hi H; [lia|].
  destruct (Nat.ltb_spec lo hi) as [L|L]; [|lia].
  assert (M : (lo <= (lo + hi) / 2 < hi)%nat).
  { split.
    - apply Nat.div_le_lower_bound; lia.
    - apply Nat.Div0.div_lt_upper_bound; lia. }
  generalize dependent ((lo + hi) / 2)%nat. intros mid M.
  destruct (Qlt_le_dec x (nth mid a 0)).
  - assert (lo <= mid)%nat as B by lia. apply IH in B. lia.
  - assert (mid + 1 <= hi)%nat as B by lia. apply IH in B. lia.
Qed.

Lemma accumulate_from_length (l : list Q) :
  forall acc, List.length (accumulate_from acc l) = List.length l.
Proof.
  induction l as [|x t IH]; simpl; intros acc; [reflexivity|].
  now rewrite IH.
Qed.

Lemma accumulate_from_last (l : list Q) :
  forall acc dflt,
    last (accumulate_from acc l) dflt
    == (if is_nil l then dflt else acc + Qsum l).
Proof.
  induction l as [|x t IH]; intros acc dflt; [reflexivity|].
  cbn [accumulate_from last is_nil Qsum].
  destruct t as [|y t'].
  - simpl. lra.
  - specialize (IH (acc + x) dflt).
    cbn [accumulate_from is_nil] in IH |- *.
    rewrite IH. cbn [Qsum]. lra.
Qed.

Lemma rev_head_last {A : Type} (l : list A) (x dflt : A) (t : list A) :
  rev l = x :: t -> last l dflt = x.
Proof.
  intros H.
  assert (NE : l <> []) by (intros ->; discriminate).
  rewrite (app_removelast_last dflt NE), rev_app_distr in H.
  simpl in H. congruence.
Qed.

Lemma random_choices_ok (population : list page) (weights : list Q) (u : Q) :
  population <> [] ->
  List.length weights = List.length population ->
  0 < Qsum weights ->
  exists p, random_choices population weights u = Ok p /\ In p population.
Proof.
  intros NE HL HS. unfold random_choices.
  assert (LA : List.length (accumulate weights) = List.length population).
  { rewrite <- HL. destruct weights; simpl; [reflexivity|].
    now rewrite accumulate_from_length. }
  rewrite LA, Nat.eqb_refl. simpl.
  destruct (rev (accumulate weights)) as [|tot rest] eqn:ER.
  - apply (f_equal (@List.length Q)) in ER. rewrite length_rev, LA in ER.
    destruct population; [congruence | discriminate].
  - assert (T : tot == Qsum weights).
    { apply rev_head_last with (dflt := 0) in ER. rewrite <- ER.
      destruct weights as [|w ws]; [reflexivity|].
      cbn [accumulate Qsum].
      destruct ws as [|w' ws'].
      - simpl. lra.
      - cbn [accumulate_from last].
        change (match accumulate_from (w + w') ws' with
                | [] => w + w'
                | _ :: _ => last (accumulate_from (w + w') ws') 0
                end)
          with (last (accumulate_from w (w' :: ws')) 0).
        rewrite accumulate_from_last. reflexivity. }
    destruct (Qle_bool tot 0) eqn:EB.
    { apply Qle_bool_iff in EB. lra. }
    set (i := bisect _ _ _ _).
    assert (I : (i <= List.length population - 1)%nat).
    { unfold i, bisect. apply bisect_loop_bounds. lia. }
    destruct (nth_error population i) as [p|] eqn:E.
    + exists p. split; [reflexivity|]. eapply nth_error_In; eassumption.
    + apply nth_error_None in E.
      destruct population; [congruence | simpl in *; lia].
Qed.

(** ** Loops that update a dictionary in place *)

Lemma for_each_seq {St : Type} (I : nat -> St -> Prop)
  (body : nat -> St -> result St) (m : nat) :
  forall (start : nat) (s : St) (i0 : nat),
    (forall i s, (i0 <= i < i0 + m)%nat -> I i s ->
       exists s', body (start + (i - i0))%nat s = Ok s' /\ I (S i) s') ->
    I i0 s ->
    exists s', for_each (seq start m) body s = Ok s' /\ I (i0 + m)%nat s'.
Proof.
  induction m as [|m IH]; intros start s i0 H Hs.
  - exists s. rewrite Nat.add_0_r. now split.
  - cbn [seq for_each].
    destruct (H i0 s ltac:(lia) Hs) as (s1 & E & H1).
    rewrite Nat.sub_diag, Nat.add_0_r in E. rewrite E. cbn [bind].
    destruct (IH (S start) s1 (S i0)) as (s2 & E2 & H2).
    + intros i s' Hi Hs'.
      destruct (H i s' ltac:(lia) Hs') as (s'' & E' & H').
      exists s''. split; [|assumption].
      rewrite <- E'. f_equal. lia.
    + assumption.
    + exists s2. split; [assumption|].
      now rewrite <- Nat.add_succ_comm.
Qed.

Section InPlace.
Context {V : Type}.
Implicit Types (d pre suf : dict V).

Lemma lookup_app_notin pre d k :
  ~ In k (keys pre) -> lookup (pre ++ d) k = lookup d k.
Proof.
  induction pre as [|[k' v'] t IH]; simpl; intros H; [reflexivity|].
  destruct (String.eqb_spec k k') as [->|N]; [tauto | apply IH; tauto].
Qed.

Lemma setitem_app_notin pre d k v :
  ~ In k (keys pre) -> setitem (pre ++ d) k v = pre ++ setitem d k v.
Proof.
  induction pre as [|[k' v'] t IH]; simpl; intros H; [reflexivity|].
  destruct (String.eqb_spec k k') as [->|N]; [tauto|].
  f_equal. apply IH. tauto.
Qed.

Lemma NoDup_keys_app_head pre k v suf :
  NoDup (keys (pre ++ (k, v) :: suf)) -> ~ In k (keys pre).
Proof.
  unfold keys. rewrite map_app. simpl. intros H C.
  apply NoDup_remove_2 in H. apply H. apply in_or_app. now left.
Qed.

Lemma NoDup_keys_app_shift pre k v v' suf :
  NoDup (keys (pre ++ (k, v) :: suf)) ->
  NoDup (keys ((pre ++ [(k, v')]) ++ suf)).
Proof.
  unfold keys. rewrite <- app_assoc. now rewrite !map_app.
Qed.

(** In a dictionary, an entry is what its key maps to. *)
Lemma lookup_entry d k v :
  NoDup (keys d) -> In (k, v) d -> lookup d k = Some v.
Proof.
  induction d as [|[k' v'] t IH]; simpl; [tauto|].
  intros ND H. inversion ND as [|? ? Hk ND']; subst.
  destruct H as [[= -> ->]|H].
  - now rewrite String.eqb_refl.
  - destruct (String.eqb_spec k k') as [->|N]; [|auto].
    exfalso. apply Hk. unfold keys. change k' with (fst (k', v)).
    now apply in_map.
Qed.
End InPlace.

(** [for key in page_rank.keys(): page_rank[key] /= n] *)
Lemma divide_in_place (n : Q) :
  ~ n == 0 ->
  forall suf pre : dict Q,
    NoDup (keys (pre ++ suf)) ->
    for_each (keys suf)
      (fun key pr =>
         count <- getitem pr key ;;
         v <- py_div count n ;;
         Ok (setitem pr key v))
      (pre ++ suf)
    = Ok (pre ++ map (fun e => (fst e, snd e / n)) suf).
Proof.
  intros Hn. induction suf as [|[k v] t IH]; intros pre ND.
  - reflexivity.
  - pose proof (NoDup_keys_app_head _ _ _ _ ND) as Hk.
    cbn [keys map fst for_each]. unfold getitem.
    rewrite lookup_app_notin by assumption.
    cbn [lookup]. rewrite String.eqb_refl. cbn [bind].
    rewrite py_div_ok by assumption. cbn [bind].
    rewrite setitem_app_notin by assumption.
    cbn [setitem]. rewrite String.eqb_refl.
    change (pre ++ (k, v / n) :: t) with (pre ++ [(k, v / n)] ++ t).
    rewrite app_assoc. fold (keys t).
    rewrite IH by (eapply NoDup_keys_app_shift; eassumption).
    now rewrite <- app_assoc.
Qed.

Lemma total_divide (n : Q) (r : dict Q) :
  total (map (fun e => (fst e, snd e / n)) r) == total r / n.
Proof.
  unfold total, values. induction r as [|[k v] t IH]; cbn [map Qsum snd fst].
  - unfold Qdiv. lra.
  - rewrite IH. unfold Qdiv. lra.
Qed.

Lemma keys_divide (n : Q) (r : dict Q) :
  keys (map (fun e => (fst e, snd e / n)) r) = keys r.
Proof.
  unfold keys. rewrite map_map. reflexivity.
Qed.

(** ** [sample_pagerank] *)

Lemma no_dangling_incl (corpus : corpus_t) (q : page) :
  no_dangling_links corpus = true ->
  In q (keys corpus) ->
  incl (links_of corpus q) (keys corpus).
Proof.
  unfold no_dangling_links. rewrite forallb_forall. intros H Hq p Hp.
  specialize (H q Hq). rewrite forallb_forall in H.
  apply mem_In. now apply H.
Qed.

Lemma initial_counters (ks : list page) :
  NoDup ks ->
  for_each ks (fun key (pr : dict Q) => Ok (setitem pr key 0)) []
  = Ok (map (fun p => (p, 0)) ks).
Proof.
  intros ND.
  destruct (for_each_fold (fun _ => True)
              (fun key (pr : dict Q) => setitem pr key 0)
              (fun key pr => Ok (setitem pr key 0)) ks)
    with (s := @nil (page * Q)) as [E _]; auto.
  rewrite E. now rewrite comprehension.
Qed.

Lemma rank_map_cases (F : page -> Q) (ks : list page) (q : page) :
  rank (map (fun p => (p, F p)) ks) q = if mem q ks then F q else 0.
Proof.
  unfold rank. destruct (mem q ks) eqn:M.
  - apply mem_In in M. now rewrite (lookup_map F).
  - apply mem_false in M. rewrite lookup_notin; [reflexivity|].
    now rewrite keys_map.
Qed.

Lemma rank_setitem (d : dict Q) (k p : page) (v : Q) :
  rank (setitem d k v) p = if (p =? k)%string then v else rank d p.
Proof.
  unfold rank. destruct (String.eqb_spec p k) as [->|N].
  - now rewrite lookup_setitem_eq.
  - now rewrite lookup_setitem_neq.
Qed.

Lemma rank_divide (n : Q) (d : dict Q) (p : page) :
  rank (map (fun e => (fst e, snd e / n)) d) p == rank d p / n.
Proof.
  unfold rank. induction d as [|[k v] t IH]; cbn [map lookup fst snd].
  - unfold Qdiv. ring.
  - destruct (p =? k)%string; [reflexivity | exact IH].
Qed.

Lemma draw_next_ok (draws : nat -> Q) (corpus : corpus_t) (d : Q) (j : nat)
  (pg : page) :
  NoDup (keys corpus) ->
  no_dangling_links corpus = true ->
  In pg (keys corpus) ->
  exists p,
    random_choices (keys (transition corpus pg d))
      (values (transition corpus pg d)) (draws j) = Ok p
    /\ draw_next draws corpus d j pg = Ok p
    /\ In p (keys corpus).
Proof.
  intros ND CL Hpg. unfold draw_next.
  pose proof (no_dangling_incl corpus pg CL Hpg) as Hcl.
  rewrite transition_model_ok by assumption. cbn [bind].
  assert (NE : corpus <> []) by (intros ->; contradiction).
  destruct (random_choices_ok (keys (transition corpus pg d))
              (values (transition corpus pg d)) (draws j))
    as (p & Ep & Hp).
  - rewrite transition_keys by assumption.
    destruct corpus; [congruence | discriminate].
  - unfold keys, values. now rewrite !length_map.
  - fold (total (transition corpus pg d)). rewrite transition_total; auto.
    reflexivity.
  - exists p. rewrite transition_keys in Hp by assumption. now repeat split.
Qed.

Lemma sample_step_ok (draws : nat -> Q) (corpus : corpus_t) (d : Q)
  (j : nat) (pr : dict Q) (np : page) :
  NoDup (keys corpus) ->
  no_dangling_links corpus = true ->
  keys pr = keys corpus -> In np (keys corpus) ->
  exists np',
    sample_step draws corpus d j (pr, np)
    = Ok (setitem pr np (rank pr np + 1), np')
    /\ draw_next draws corpus d j np = Ok np'
    /\ In np' (keys corpus).
Proof.
  intros ND CL HK Hnp. unfold sample_step.
  assert (Hin : In np (keys pr)) by now rewrite HK.
  destruct (getitem_In pr np Hin) as (c & Ec & Gc).
  rewrite Gc. cbn [bind].
  destruct (draw_next_ok draws corpus d j np ND CL Hnp) as (p & Ep & Dp & Hp).
  pose proof (no_dangling_incl corpus np CL Hnp) as Hcl.
  rewrite transition_model_ok by assumption. cbn [bind].
  rewrite Ep. cbn [bind].
  exists p. unfold rank. rewrite Ec. now repeat split.
Qed.

Lemma visits_succ (draws : nat -> Q) (corpus : corpus_t) (d : Q) (m : nat)
  (p : page) :
  visits draws corpus d (S m) p
  = (visits draws corpus d m p
     + if (p =? drawn draws corpus d m)%string then 1 else 0)%nat.
Proof.
  unfold visits. rewrite seq_S, map_app, count_occ_app. f_equal.
  cbn [map count_occ Nat.add].
  destruct (string_dec (drawn draws corpus d m) p) as [E|N].
  - rewrite E, String.eqb_refl. reflexivity.
  - destruct (String.eqb_spec p (drawn draws corpus d m)); [congruence|].
    reflexivity.
Qed.

(** What [sample_pagerank] returns when [n] is not zero: the counters
    divided by [n], where the counters tally the first [n - 1] draws. *)
Lemma sample_pagerank_spec (draws : nat -> Q) (corpus : corpus_t) (d : Q)
  (n : Z) :
  NoDup (keys corpus) -> corpus <> [] ->
  ((1 < n)%Z -> no_dangling_links corpus = true) ->
  0 <= draws O < 1 ->
  n <> 0%Z ->
  exists counters : dict Q,
    sample_pagerank draws corpus d n
    = Ok (map (fun e => (fst e, snd e / inject_Z n)) counters)
    /\ keys counters = keys corpus
    /\ total counters == inject_Z (Z.of_nat (Z.to_nat (n - 1)))
    /\ (forall p,
          rank counters p
          == inject_Z (Z.of_nat (visits draws corpus d (Z.to_nat (n - 1)) p)))
    /\ (Z.to_nat (n - 1) = O -> counters = map (fun p => (p, 0)) (keys corpus)).
Proof.
  intros ND NE CL HU Hn. unfold sample_pagerank.
  rewrite initial_counters by assumption. cbn [bind].
  destruct (random_choice_ok (keys corpus) (draws O)) as (p0 & E0 & H0).
  { destruct corpus; [congruence | discriminate]. }
  { assumption. }
  rewrite E0. cbn [bind].
  set (pr0 := map (fun p => (p, 0)) (keys corpus)).
  destruct (for_each_seq
              (fun i (st : dict Q * page) =>
                 keys (fst st) = keys corpus
                 /\ snd st = drawn draws corpus d i
                 /\ In (snd st) (keys corpus)
                 /\ total (fst st) == inject_Z (Z.of_nat i)
                 /\ (forall p,
                       rank (fst st) p
                       == inject_Z (Z.of_nat (visits draws corpus d i p)))
                 /\ (i = O -> fst st = pr0))
              (sample_step draws corpus d)
              (Z.to_nat (n - 1)) 1%nat (pr0 : dict Q, p0) O)
    as ([pr np] & E & HK & _ & Hnp & HT & HV & HZ).
  - intros i [pr np] Hi (HK & Hd & Hnp & HT & HV & _).
    cbn [fst snd] in HK, Hd, Hnp, HT, HV.
    assert (CL' : no_dangling_links corpus = true) by (apply CL; lia).
    rewrite Nat.sub_0_r. change (1 + i)%nat with (S i).
    destruct (sample_step_ok draws corpus d (S i) pr np)
      as (np' & Es & Dn & Hnp'); auto.
    exists (setitem pr np (rank pr np + 1), np'). cbn [fst snd].
    assert (Hin : In np (keys pr)) by now rewrite HK.
    split; [assumption|]. split; [now rewrite keys_setitem_in|].
    split; [|split; [assumption|split; [|split]]].
    + cbn [drawn]. rewrite <- Hd, Dn. reflexivity.
    + rewrite total_setitem by assumption. rewrite HT.
      rewrite Nat2Z.inj_succ, <- Z.add_1_r, inject_Z_plus.
      change (inject_Z 1) with 1. lra.
    + intros p. rewrite rank_setitem, visits_succ, <- Hd.
      rewrite Nat2Z.inj_add, inject_Z_plus.
      destruct (String.eqb_spec p np) as [->|N].
      * rewrite HV. reflexivity.
      * rewrite HV. change (inject_Z (Z.of_nat 0)) with 0. lra.
    + discriminate.
  - cbn [fst snd]. split; [apply keys_map|].
    split; [cbn [drawn]; now rewrite E0|].
    split; [assumption|]. split; [|split; [|reflexivity]].
    + unfold pr0. rewrite total_const. change (inject_Z (Z.of_nat 0)) with 0.
      lra.
    + intros p. unfold pr0. rewrite rank_map_cases.
      change (inject_Z (Z.of_nat (visits draws corpus d 0 p))) with 0.
      destruct (mem p (keys corpus)); reflexivity.
  - rewrite E. cbn [bind fst]. cbn [fst snd Nat.add] in HK, Hnp, HT, HV, HZ.
    assert (Hq : ~ inject_Z n == 0).
    { change 0 with (inject_Z 0). rewrite inject_Z_injective. assumption. }
    pose proof (divide_in_place (inject_Z n) Hq pr []) as D.
    simpl in D. rewrite D by (rewrite HK; assumption).
    exists pr. repeat split; auto.
Qed.

(** With [n = 0] the last loop divides by zero. *)
Lemma sample_pagerank_zero (draws : nat -> Q) (corpus : corpus_t) (d : Q) :
  NoDup (keys corpus) -> corpus <> [] -> 0 <= draws O < 1 ->
  sample_pagerank draws corpus d 0 = Raise ZeroDivisionError.
Proof.
  intros ND NE HU. unfold sample_pagerank.
  rewrite initial_counters by assumption. cbn [bind].
  destruct (random_choice_ok (keys corpus) (draws O)) as (p0 & E0 & H0).
  { destruct corpus; [congruence | discriminate]. }
  { assumption. }
  rewrite E0. cbn [bind].
  change (Z.to_nat (0 - 1)) with O. cbn [seq for_each bind fst].
  rewrite keys_map.
  destruct corpus as [|[k ls] t]; [congruence|].
  cbn [keys map fst for_each]. unfold getitem. cbn [lookup].
  rewrite String.eqb_refl. reflexivity.
Qed.

(** ** One sweep of [iterate_pagerank] computes [sweep] *)

Lemma mem_nonempty (p : page) (ls : list page) : mem p ls = true -> ls <> [].
Proof.
  intros H ->. discriminate.
Qed.

Lemma sum_links_loop (corpus : corpus_t) (r : dict Q) (p : page) :
  keys r = keys corpus ->
  for_each (keys corpus) (sum_links_body corpus r (len corpus) p) 0
  = Ok (sum_links corpus r p).
Proof.
  intros HK. unfold sum_links.
  apply (for_each_fold (fun _ => True)
           (fun q acc => add_links corpus r p acc q)); [|exact I].
  intros q acc Hq _. split; [|exact I].
  assert (NE : corpus <> []) by (intros ->; contradiction).
  destruct (getitem_In corpus q Hq) as (ls & El & Gl).
  assert (Hq' : In q (keys r)) by now rewrite HK.
  destruct (getitem_In r q Hq') as (v & Ev & Gv).
  unfold sum_links_body, add_links, links_of, rank.
  rewrite Gl, Gv, El, Ev. cbn [bind].
  destruct (negb (p =? q)%string); cbn [bind andb].
  - destruct (mem p ls) eqn:M; cbn [bind].
    + rewrite py_div_ok.
      2:{ apply mem_nonempty in M. apply len_pos in M. lra. }
      cbn [bind]. destruct ls; cbn [is_nil bind]; [|reflexivity].
      rewrite py_div_ok; [reflexivity|]. apply len_pos in NE. lra.
    + destruct ls; cbn [is_nil bind]; [|reflexivity].
      rewrite py_div_ok; [reflexivity|]. apply len_pos in NE. lra.
  - destruct ls; cbn [is_nil bind]; [|reflexivity].
    rewrite py_div_ok; [reflexivity|]. apply len_pos in NE. lra.
Qed.

Lemma compute_ranks_ok (corpus : corpus_t) (d : Q) (r calc : dict Q) :
  keys r = keys corpus ->
  exists calc',
    compute_ranks corpus d (len corpus) r calc = Ok calc'
    /\ forall k, In k (keys r) -> lookup calc' k = Some (new_rank corpus d r k).
Proof.
  intros HK. unfold compute_ranks.
  destruct (for_each_fold (fun _ => True)
              (fun p (c : dict Q) => setitem c p (new_rank corpus d r p))
              (fun current_page calculated_pr =>
                 sum_links <-
                   for_each (keys corpus)
                     (sum_links_body corpus r (len corpus) current_page) 0 ;;
                 base <- py_div (1 - d) (len corpus) ;;
                 Ok (setitem calculated_pr current_page
                       (base + d * sum_links)))
              (keys r)) with (s := calc) as [E _]; [|exact I|].
  - intros p c Hp _. split; [|exact I].
    rewrite sum_links_loop by assumption. cbn [bind].
    rewrite py_div_ok; [reflexivity|].
    assert (NE : corpus <> []).
    { intros ->. rewrite HK in Hp. contradiction. }
    apply len_pos in NE. lra.
  - eexists. split; [exact E|].
    intros k Hk.
    rewrite (fold_setitem_lookup (new_rank corpus d r)).
    apply mem_In in Hk. now rewrite Hk.
Qed.

Lemma adopt_in_place (calc : dict Q) (F : page -> Q) :
  forall (suf pre : dict Q) (c : bool),
    NoDup (keys (pre ++ suf)) ->
    (forall k, In k (keys suf) -> lookup calc k = Some (F k)) ->
    for_each (keys suf)
      (fun current_page (st : bool * dict Q) =>
         let '(condition, page_rank) := st in
         old <- getitem page_rank current_page ;;
         new <- getitem calc current_page ;;
         let condition :=
           if Qlt_le_dec tolerance (Qabs (old - new)) then true
           else condition in
         new <- getitem calc current_page ;;
         Ok (condition, setitem page_rank current_page new))
      (c, pre ++ suf)
    = Ok (c || existsb (fun e => moved (snd e) (F (fst e))) suf,
          pre ++ map (fun e => (fst e, F (fst e))) suf).
Proof.
  induction suf as [|[k v] t IH]; intros pre c ND HF.
  - cbn. now rewrite orb_false_r.
  - pose proof (NoDup_keys_app_head _ _ _ _ ND) as Hk.
    cbn [keys map fst for_each]. unfold getitem.
    rewrite lookup_app_notin by assumption.
    cbn [lookup]. rewrite String.eqb_refl. cbn [bind].
    rewrite (HF k) by now left. cbn [bind].
    rewrite setitem_app_notin by assumption.
    cbn [setitem]. rewrite String.eqb_refl.
    change (pre ++ (k, F k) :: t) with (pre ++ [(k, F k)] ++ t).
    rewrite app_assoc. fold (keys t).
    rewrite IH.
    + rewrite <- app_assoc. cbn [existsb snd fst app]. unfold moved.
      destruct (Qlt_le_dec tolerance (Qabs (v - F k))); cbn.
      * now rewrite orb_true_r.
      * reflexivity.
    + eapply NoDup_keys_app_shift; eassumption.
    + intros k' Hk'. apply HF. now right.
Qed.

Lemma adopt_ranks_ok (calc r : dict Q) (F : page -> Q) :
  NoDup (keys r) ->
  (forall k, In k (keys r) -> lookup calc k = Some (F k)) ->
  adopt_ranks calc r
  = Ok (existsb (fun e => moved (snd e) (F (fst e))) r,
        map (fun e => (fst e, F (fst e))) r).
Proof.
  intros ND HF. exact (adopt_in_place calc F r [] false ND HF).
Qed.

Lemma existsb_ext_members {A : Type} (f g : A -> bool) (l : list A) :
  (forall x, In x l -> f x = g x) -> existsb f l = existsb g l.
Proof.
  induction l as [|a t IH]; simpl; intros H; [reflexivity|].
  rewrite H by now left. f_equal. apply IH. intros x Hx. apply H. now right.
Qed.

Lemma existsb_keys {V : Type} (f : page -> bool) (d : dict V) :
  existsb f (keys d) = existsb (fun e => f (fst e)) d.
Proof.
  induction d as [|a t IH]; simpl; [reflexivity | now rewrite IH].
Qed.

Lemma keys_sweep (corpus : corpus_t) (d : Q) (r : dict Q) :
  keys (sweep corpus d r) = keys r.
Proof.
  apply keys_map.
Qed.

Lemma rank_sweep (corpus : corpus_t) (d : Q) (r : dict Q) (p : page) :
  In p (keys r) -> rank (sweep corpus d r) p = new_rank corpus d r p.
Proof.
  intros H. unfold rank, sweep.
  now rewrite (lookup_map (new_rank corpus d r)).
Qed.

Lemma sweep_step_ok (corpus : corpus_t) (d : Q) (r calc : dict Q) :
  NoDup (keys corpus) ->
  keys r = keys corpus ->
  exists calc',
    sweep_step corpus d (len corpus) r calc
    = Ok (changed r (sweep corpus d r), sweep corpus d r, calc').
Proof.
  intros ND HK. unfold sweep_step.
  destruct (compute_ranks_ok corpus d r calc HK) as (calc' & E & HL).
  rewrite E. cbn [bind]. exists calc'.
  rewrite (adopt_ranks_ok calc' r (new_rank corpus d r)).
  - cbn [bind fst snd]. do 3 f_equal.
    + unfold changed. rewrite existsb_keys.
      apply existsb_ext_members. intros [k v] Hin. cbn [fst snd].
      assert (Hk : In k (keys r)).
      { unfold keys. change k with (fst (k, v)). now apply in_map. }
      rewrite rank_sweep by assumption.
      unfold rank at 1. rewrite (lookup_entry r k v); auto.
      now rewrite HK.
    + unfold sweep, keys. now rewrite map_map.
  - now rewrite HK.
  - exact HL.
Qed.

(** ** The [while] loop *)

Lemma keys_sweeps_from (corpus : corpus_t) (d : Q) (r : dict Q) (k : nat) :
  keys (sweeps_from corpus d r k) = keys r.
Proof.
  unfold sweeps_from. induction k as [|k IH]; simpl; [reflexivity|].
  now rewrite keys_sweep.
Qed.

Lemma sweeps_from_shift (corpus : corpus_t) (d : Q) (r : dict Q) (k : nat) :
  sweeps_from corpus d (sweep corpus d r) k = sweeps_from corpus d r (S k).
Proof.
  unfold sweeps_from. symmetry. apply Nat.iter_succ_r.
Qed.

(** The loop never raises; it returns after the first sweep that leaves
    [condition] false, with the ranks of that sweep; it is still running
    as long as every sweep so far has set [condition]. *)
Lemma while_loop_spec (corpus : corpus_t) (d : Q) :
  NoDup (keys corpus) ->
  forall (fuel : nat) (r calc : dict Q),
    keys r = keys corpus ->
    match while_loop fuel corpus d (len corpus) r calc with
    | None =>
        forall j, (j < fuel)%nat ->
          changed (sweeps_from corpus d r j) (sweeps_from corpus d r (S j))
          = true
    | Some (Ok r') =>
        exists k, (k < fuel)%nat /\ stops_at corpus d r k
                  /\ r' = sweeps_from corpus d r (S k)
    | Some (Raise _) => False
    end.
Proof.
  intros ND. induction fuel as [|fuel IH]; intros r calc HK.
  - cbn. intros j Hj. lia.
  - cbn [while_loop].
    destruct (sweep_step_ok corpus d r calc ND HK) as (calc' & E).
    rewrite E.
    destruct (changed r (sweep corpus d r)) eqn:C.
    + assert (HK' : keys (sweep corpus d r) = keys corpus)
        by now rewrite keys_sweep.
      specialize (IH (sweep corpus d r) calc' HK').
      destruct (while_loop fuel corpus d (len corpus) (sweep corpus d r) calc')
        as [[r'|e]|].
      * destruct IH as (k & Hk & [Hlt Hst] & Er).
        exists (S k). split; [lia|]. split; [split|].
        -- intros [|j] Hj; [exact C|].
           rewrite <- (sweeps_from_shift corpus d r j).
           rewrite <- (sweeps_from_shift corpus d r (S j)).
           apply Hlt. lia.
        -- rewrite <- (sweeps_from_shift corpus d r k).
           now rewrite <- (sweeps_from_shift corpus d r (S k)).
        -- now rewrite <- (sweeps_from_shift corpus d r (S k)).
      * exact IH.
      * intros [|j] Hj; [exact C|].
        rewrite <- (sweeps_from_shift corpus d r j).
        rewrite <- (sweeps_from_shift corpus d r (S j)).
        apply IH. lia.
    + exists O. split; [lia|]. split; [split|].
      * intros j Hj. lia.
      * exact C.
      * reflexivity.
Qed.

Lemma initial_ranks_loop (corpus : corpus_t) :
  NoDup (keys corpus) ->
  for_each (keys corpus)
    (fun pg (pr : dict Q) => v <- py_div 1 (len corpus) ;; Ok (setitem pr pg v))
    []
  = Ok (initial_ranks corpus).
Proof.
  intros ND.
  destruct (for_each_fold (fun _ => True)
              (fun pg (pr : dict Q) => setitem pr pg (1 / len corpus))
              (fun pg pr => v <- py_div 1 (len corpus) ;; Ok (setitem pr pg v))
              (keys corpus)) with (s := @nil (page * Q)) as [E _]; auto.
  - intros p s Hp _. split; [|exact I].
    rewrite py_div_ok; [reflexivity|].
    assert (NE : corpus <> []) by (intros ->; contradiction).
    apply len_pos in NE. lra.
  - rewrite E. unfold initial_ranks. now rewrite comprehension.
Qed.

Lemma iterate_pagerank_unfold (fuel : nat) (corpus : corpus_t) (d : Q) :
  NoDup (keys corpus) ->
  iterate_pagerank fuel corpus d
  = while_loop fuel corpus d (len corpus) (initial_ranks corpus) [].
Proof.
  intros ND. unfold iterate_pagerank. now rewrite initial_ranks_loop.
Qed.

(** ** Finite sums of rationals *)

Section Sums.
Context {A : Type}.
Implicit Types (f g : A -> Q) (l : list A).

Lemma sumQ_ext f g l :
  (forall x, In x l -> f x == g x) -> sumQ f l == sumQ g l.
Proof.
  unfold sumQ. induction l as [|a t IH]; cbn [map Qsum]; intros H.
  - reflexivity.
  - rewrite (H a) by now left. rewrite IH; [reflexivity|].
    intros x Hx. apply H. now right.
Qed.

Lemma sumQ_le f g l :
  (forall x, In x l -> f x <= g x) -> sumQ f l <= sumQ g l.
Proof.
  unfold sumQ. induction l as [|a t IH]; cbn [map Qsum]; intros H.
  - lra.
  - pose proof (H a (or_introl eq_refl)).
    assert (Qsum (map f t) <= Qsum (map g t)).
    { apply IH. intros x Hx. apply H. now right. }
    lra.
Qed.

Lemma sumQ_zero l : sumQ (fun _ : A => 0) l == 0.
Proof.
  unfold sumQ. induction l as [|a t IH]; cbn [map Qsum]; [|rewrite IH]; lra.
Qed.

Lemma sumQ_nonneg f l : (forall x, In x l -> 0 <= f x) -> 0 <= sumQ f l.
Proof.
  intros H. rewrite <- (sumQ_zero l). now apply sumQ_le.
Qed.

Lemma sumQ_plus f g l :
  sumQ (fun x => f x + g x) l == sumQ f l + sumQ g l.
Proof.
  unfold sumQ. induction l as [|a t IH]; cbn [map Qsum]; [|rewrite IH]; lra.
Qed.

Lemma sumQ_scale (c : Q) f l : sumQ (fun x => c * f x) l == c * sumQ f l.
Proof.
  unfold sumQ. induction l as [|a t IH]; cbn [map Qsum]; [|rewrite IH]; lra.
Qed.

Lemma sumQ_const (c : Q) l : sumQ (fun _ => c) l == len l * c.
Proof.
  unfold sumQ. induction l as [|a t IH]; cbn [map Qsum].
  - change (len (@nil A)) with 0. lra.
  - rewrite IH, len_cons. lra.
Qed.

Lemma sumQ_abs f l : Qabs (sumQ f l) <= sumQ (fun x => Qabs (f x)) l.
Proof.
  unfold sumQ. induction l as [|a t IH]; cbn [map Qsum].
  - cbn. lra.
  - eapply Qle_trans; [apply Qabs_triangle|]. lra.
Qed.

Lemma sumQ_member f l (a : A) :
  (forall x, In x l -> 0 <= f x) -> In a l -> f a <= sumQ f l.
Proof.
  unfold sumQ. induction l as [|b t IH]; cbn [map Qsum]; intros H Ha.
  - contradiction.
  - assert (0 <= sumQ f t).
    { apply sumQ_nonneg. intros x Hx. apply H. now right. }
    unfold sumQ in *.
    destruct Ha as [->|Ha].
    + lra.
    + pose proof (H b (or_introl eq_refl)).
      assert (f a <= Qsum (map f t)).
      { apply IH; [|assumption]. intros x Hx. apply H. now right. }
      lra.
Qed.

Lemma sumQ_indicator (b : A -> bool) (c : Q) l :
  sumQ (fun x => if b x then c else 0) l == len (filter b l) * c.
Proof.
  unfold sumQ. induction l as [|a t IH]; cbn [map Qsum filter].
  - change (len (@nil A)) with 0. lra.
  - rewrite IH. destruct (b a); [rewrite len_cons|]; lra.
Qed.

Lemma sumQ_filter (b : A -> bool) f l :
  sumQ f (filter b l) == sumQ (fun x => if b x then f x else 0) l.
Proof.
  unfold sumQ. induction l as [|a t IH]; cbn [map Qsum filter].
  - reflexivity.
  - destruct (b a); cbn [map Qsum]; rewrite IH; lra.
Qed.
End Sums.

Lemma sumQ_swap {A B : Type} (f : A -> B -> Q) (la : list A) (lb : list B) :
  sumQ (fun a => sumQ (fun b => f a b) lb) la
  == sumQ (fun b => sumQ (fun a => f a b) la) lb.
Proof.
  induction la as [|a t IH].
  - unfold sumQ at 1. cbn [map Qsum].
    rewrite (sumQ_ext (fun b => sumQ (fun a => f a b) []) (fun _ => 0)).
    + now rewrite sumQ_zero.
    + intros. reflexivity.
  - unfold sumQ at 1. cbn [map Qsum]. fold (sumQ (fun a => sumQ (f a) lb) t).
    rewrite IH.
    rewrite (sumQ_ext (fun b => sumQ (fun a0 => f a0 b) (a :: t))
               (fun b => f a b + sumQ (fun a0 => f a0 b) t)).
    + now rewrite sumQ_plus.
    + intros. reflexivity.
Qed.

Lemma total_sumQ (r : dict Q) :
  NoDup (keys r) -> total r == sumQ (rank r) (keys r).
Proof.
  intros ND. unfold total, values, sumQ, keys. rewrite map_map.
  apply (sumQ_ext snd (fun e => rank r (fst e)) r).
  intros [k v] H. cbn [fst snd]. unfold rank.
  now rewrite (lookup_entry r k v).
Qed.

(** ** The sweep in terms of weights *)

Lemma add_links_weight (corpus : corpus_t) (r : dict Q) (p q : page) (acc : Q) :
  add_links corpus r p acc q == acc + weight corpus p q * rank r q.
Proof.
  unfold add_links, weight.
  destruct (negb (p =? q)%string && mem p (links_of corpus q));
    destruct (is_nil (links_of corpus q)); unfold Qdiv; ring.
Qed.

Lemma sum_links_weight (corpus : corpus_t) (r : dict Q) (p : page) :
  sum_links corpus r p
  == sumQ (fun q => weight corpus p q * rank r q) (keys corpus).
Proof.
  unfold sum_links.
  assert (G : forall ks acc,
             fold_left (add_links corpus r p) ks acc
             == acc + sumQ (fun q => weight corpus p q * rank r q) ks).
  { induction ks as [|a t IH]; intros acc; cbn [fold_left].
    - unfold sumQ. cbn. lra.
    - rewrite IH, add_links_weight. unfold sumQ. cbn [map Qsum]. lra. }
  rewrite G. lra.
Qed.

Lemma weight_nonneg (corpus : corpus_t) (p q : page) : 0 <= weight corpus p q.
Proof.
  unfold weight.
  assert (forall {A} (l : list A), 0 <= 1 / len l) as H.
  { intros A l. pose proof (len_nonneg l) as L.
    unfold Qdiv. rewrite Qmult_1_l. now apply Qinv_le_0_compat. }
  pose proof (H _ (links_of corpus q)).
  pose proof (H _ corpus).
  destruct (_ && _); destruct (is_nil _); lra.
Qed.

Lemma new_rank_weight (corpus : corpus_t) (d : Q) (r : dict Q) (p : page) :
  new_rank corpus d r p
  == (1 - d) / len corpus
     + d * sumQ (fun q => weight corpus p q * rank r q) (keys corpus).
Proof.
  unfold new_rank. now rewrite sum_links_weight.
Qed.

(** ** What a page hands out in a sweep *)

Lemma len_le {A B : Type} (a : list A) (b : list B) :
  (List.length a <= List.length b)%nat -> len a <= len b.
Proof.
  intros H. unfold len. rewrite <- Zle_Qle. lia.
Qed.

Lemma len_keys {V : Type} (d : dict V) : len (keys d) = len d.
Proof.
  unfold len, keys. now rewrite length_map.
Qed.

Lemma incoming_count_le (ks ls : list page) (q : page) :
  NoDup ks ->
  (List.length (filter (fun p => negb (p =? q)%string && mem p ls) ks)
   <= List.length ls)%nat.
Proof.
  intros ND. apply NoDup_incl_length.
  - now apply NoDup_filter.
  - intros x Hx. apply filter_In in Hx. destruct Hx as [_ Hx].
    apply andb_true_iff in Hx. now apply mem_In.
Qed.

Lemma incoming_count_ge (ks ls : list page) (q : page) :
  NoDup ls -> incl ls ks -> ~ In q ls ->
  (List.length ls
   <= List.length (filter (fun p => negb (p =? q)%string && mem p ls) ks))%nat.
Proof.
  intros ND HI Hq. apply NoDup_incl_length; [assumption|].
  intros x Hx. apply filter_In. split; [now apply HI|].
  apply andb_true_iff. split; [|now apply mem_In].
  apply negb_true_iff. apply String.eqb_neq. intros ->. contradiction.
Qed.

Lemma column_split (corpus : corpus_t) (q : page) :
  sumQ (fun p => weight corpus p q) (keys corpus)
  == len (filter (fun p => negb (p =? q)%string && mem p (links_of corpus q))
            (keys corpus))
     * (1 / len (links_of corpus q))
     + len corpus * (if is_nil (links_of corpus q) then 1 / len corpus else 0).
Proof.
  unfold weight. rewrite sumQ_plus, sumQ_const, len_keys.
  now rewrite (sumQ_indicator
                 (fun p => negb (p =? q)%string && mem p (links_of corpus q))).
Qed.

(** A page hands out at most its own rank ... *)
Lemma column_le_one (corpus : corpus_t) (q : page) :
  NoDup (keys corpus) -> In q (keys corpus) ->
  sumQ (fun p => weight corpus p q) (keys corpus) <= 1.
Proof.
  intros ND Hq. rewrite column_split.
  assert (NE : corpus <> []) by (intros ->; contradiction).
  pose proof (len_pos corpus NE) as HN.
  pose proof (len_le _ _ (incoming_count_le (keys corpus)
                            (links_of corpus q) q ND)) as HC.
  pose proof (len_nonneg
                (filter (fun p => negb (p =? q)%string
                                  && mem p (links_of corpus q))
                   (keys corpus))) as HC0.
  set (cnt := len (filter _ _)) in *.
  destruct (links_of corpus q) as [|l ls] eqn:E; cbn [is_nil].
  - change (len (@nil page)) with 0 in HC.
    assert (C0 : cnt == 0) by lra.
    assert (U : len corpus * (1 / len corpus) == 1) by (field; lra).
    rewrite C0, Qmult_0_l, Qplus_0_l, U. lra.
  - pose proof (len_pos (l :: ls) ltac:(discriminate)) as HL.
    set (m := len (l :: ls)) in *.
    assert (D : cnt / m <= 1) by (apply Qle_shift_div_r; lra).
    assert (cnt * (1 / m) == cnt / m) as -> by (field; lra).
    lra.
Qed.

(** ... and exactly its rank in a corpus without self-links and
    dangling links. *)
Lemma column_eq_one (corpus : corpus_t) (q : page) :
  NoDup (keys corpus) -> In q (keys corpus) ->
  NoDup (links_of corpus q) ->
  incl (links_of corpus q) (keys corpus) ->
  ~ In q (links_of corpus q) ->
  sumQ (fun p => weight corpus p q) (keys corpus) == 1.
Proof.
  intros ND Hq NDl HI Hs. rewrite column_split.
  assert (NE : corpus <> []) by (intros ->; contradiction).
  pose proof (len_pos corpus NE) as HN.
  pose proof (len_le _ _ (incoming_count_le (keys corpus)
                            (links_of corpus q) q ND)) as HC.
  pose proof (len_le _ _ (incoming_count_ge (keys corpus)
                            (links_of corpus q) q NDl HI Hs)) as HC'.
  set (cnt := len (filter _ _)) in *.
  assert (C : cnt == len (links_of corpus q)) by lra.
  assert (U : len corpus * (1 / len corpus) == 1) by (field; lra).
  destruct (links_of corpus q) as [|l ls] eqn:E; cbn [is_nil].
  - change (len (@nil page)) with 0 in C.
    rewrite C, Qmult_0_l, Qplus_0_l, U. reflexivity.
  - pose proof (len_pos (l :: ls) ltac:(discriminate)) as HL.
    rewrite C. field. lra.
Qed.

(** ** The rank mass after a sweep *)

Lemma total_map (F : page -> Q) (ks : list page) :
  total (map (fun p => (p, F p)) ks) = sumQ F ks.
Proof.
  unfold total, values, sumQ. now rewrite map_map.
Qed.

Lemma sweep_total (corpus : corpus_t) (d : Q) (r : dict Q) :
  corpus <> [] -> keys r = keys corpus ->
  total (sweep corpus d r)
  == (1 - d)
     + d * sumQ (fun q => sumQ (fun p => weight corpus p q) (keys corpus)
                          * rank r q)
             (keys corpus).
Proof.
  intros NE HK. unfold sweep. rewrite total_map, HK.
  pose proof (len_pos corpus NE) as HN.
  rewrite (sumQ_ext _
             (fun p => (1 - d) / len corpus
                       + d * sumQ (fun q => weight corpus p q * rank r q)
                               (keys corpus)))
    by (intros; apply new_rank_weight).
  rewrite sumQ_plus, sumQ_const, sumQ_scale, len_keys.
  rewrite (sumQ_swap (fun p q => weight corpus p q * rank r q)).
  rewrite (sumQ_ext
             (fun q => sumQ (fun p => weight corpus p q * rank r q)
                         (keys corpus))
             (fun q => sumQ (fun p => weight corpus p q) (keys corpus)
                       * rank r q)).
  - field. lra.
  - intros q _.
    rewrite (sumQ_ext (fun p => weight corpus p q * rank r q)
               (fun p => rank r q * weight corpus p q))
      by (intros; ring).
    rewrite sumQ_scale. ring.
Qed.

Lemma initial_total (corpus : corpus_t) :
  corpus <> [] -> total (initial_ranks corpus) == 1.
Proof.
  intros NE. unfold initial_ranks. rewrite total_const, len_keys.
  pose proof (len_pos corpus NE). field. lra.
Qed.

(** In a corpus that keeps the invariants of the data model every page
    hands out exactly its rank, and a sweep keeps the mass. *)
Lemma well_formed_column (corpus : corpus_t) (q : page) :
  NoDup (keys corpus) -> link_sets corpus = true ->
  no_self_links corpus = true -> no_dangling_links corpus = true ->
  In q (keys corpus) ->
  sumQ (fun p => weight corpus p q) (keys corpus) == 1.
Proof.
  intros ND LS SL DL Hq. apply column_eq_one; auto.
  - unfold link_sets in LS. rewrite forallb_forall in LS.
    apply distinct_NoDup. now apply LS.
  - now apply no_dangling_incl.
  - unfold no_self_links in SL. rewrite forallb_forall in SL.
    apply mem_false. apply negb_true_iff. now apply SL.
Qed.

Lemma sweep_keeps_mass (corpus : corpus_t) (d : Q) (r : dict Q) :
  NoDup (keys corpus) -> corpus <> [] -> link_sets corpus = true ->
  no_self_links corpus = true -> no_dangling_links corpus = true ->
  keys r = keys corpus ->
  total (sweep corpus d r) == (1 - d) + d * total r.
Proof.
  intros ND NE LS SL DL HK. rewrite sweep_total by assumption.
  rewrite (total_sumQ r) by now rewrite HK. rewrite HK.
  rewrite (sumQ_ext _ (rank r)); [reflexivity|].
  intros q Hq. rewrite well_formed_column by assumption. ring.
Qed.

(** ** Ranks are bounded below *)

Lemma sum_links_nonneg (corpus : corpus_t) (r : dict Q) (p : page) :
  nonneg_ranks r -> 0 <= sum_links corpus r p.
Proof.
  intros H. rewrite sum_links_weight. apply sumQ_nonneg. intros q _.
  apply Qmult_le_0_compat; [apply weight_nonneg | apply H].
Qed.

Lemma new_rank_lower (corpus : corpus_t) (d : Q) (r : dict Q) (p : page) :
  0 <= d -> nonneg_ranks r ->
  (1 - d) / len corpus <= new_rank corpus d r p.
Proof.
  intros Hd H. unfold new_rank.
  pose proof (sum_links_nonneg corpus r p H).
  assert (0 <= d * sum_links corpus r p) by now apply Qmult_le_0_compat.
  lra.
Qed.

Lemma base_nonneg (corpus : corpus_t) (d : Q) :
  d <= 1 -> 0 <= (1 - d) / len corpus.
Proof.
  intros Hd. pose proof (len_nonneg corpus).
  unfold Qdiv. apply Qmult_le_0_compat; [lra | now apply Qinv_le_0_compat].
Qed.

Lemma sweep_nonneg (corpus : corpus_t) (d : Q) (r : dict Q) :
  0 <= d <= 1 -> nonneg_ranks r -> nonneg_ranks (sweep corpus d r).
Proof.
  intros [Hd0 Hd1] H q. unfold sweep. rewrite rank_map_cases.
  destruct (mem q (keys r)); [|lra].
  pose proof (new_rank_lower corpus d r q Hd0 H).
  pose proof (base_nonneg corpus d Hd1). lra.
Qed.

Lemma initial_nonneg (corpus : corpus_t) : nonneg_ranks (initial_ranks corpus).
Proof.
  intros q. unfold initial_ranks. rewrite rank_map_cases.
  destruct (mem q (keys corpus)); [|lra].
  pose proof (len_nonneg corpus).
  unfold Qdiv. rewrite Qmult_1_l. now apply Qinv_le_0_compat.
Qed.

Lemma sweeps_nonneg (corpus : corpus_t) (d : Q) (k : nat) :
  0 <= d <= 1 -> nonneg_ranks (sweeps_from corpus d (initial_ranks corpus) k).
Proof.
  intros Hd. unfold sweeps_from. induction k as [|k IH]; cbn [Nat.iter].
  - apply initial_nonneg.
  - now apply sweep_nonneg.
Qed.

(** ** A sweep is a contraction *)

Lemma Qmult_le_l_weak (z x y : Q) : 0 <= z -> x <= y -> z * x <= z * y.
Proof.
  intros Hz H. rewrite !(Qmult_comm z). now apply Qmult_le_compat_r.
Qed.

Lemma new_rank_difference (corpus : corpus_t) (d : Q) (r r' : dict Q) (p : page) :
  new_rank corpus d r' p - new_rank corpus d r p
  == d * sumQ (fun q => weight corpus p q * (rank r' q - rank r q))
           (keys corpus).
Proof.
  rewrite !new_rank_weight.
  rewrite (sumQ_ext (fun q => weight corpus p q * (rank r' q - rank r q))
             (fun q => weight corpus p q * rank r' q
                       + (-1) * (weight corpus p q * rank r q)))
    by (intros; ring).
  rewrite sumQ_plus, sumQ_scale. ring.
Qed.

Lemma new_rank_moves (corpus : corpus_t) (d : Q) (r r' : dict Q) (p : page) :
  0 <= d ->
  Qabs (new_rank corpus d r' p - new_rank corpus d r p)
  <= d * sumQ (fun q => weight corpus p q * Qabs (rank r' q - rank r q))
           (keys corpus).
Proof.
  intros Hd. rewrite new_rank_difference, Qabs_Qmult.
  rewrite (Qabs_pos d) by assumption.
  apply Qmult_le_l_weak; [assumption|].
  eapply Qle_trans; [apply sumQ_abs|].
  apply sumQ_le. intros q _. rewrite Qabs_Qmult.
  rewrite (Qabs_pos (weight corpus p q)) by apply weight_nonneg.
  apply Qle_refl.
Qed.

Lemma sweep_contracts (corpus : corpus_t) (d : Q) (r r' : dict Q) :
  NoDup (keys corpus) ->
  keys r = keys corpus -> keys r' = keys corpus ->
  0 <= d ->
  distance (keys corpus) (sweep corpus d r) (sweep corpus d r')
  <= d * distance (keys corpus) r r'.
Proof.
  intros ND HK HK' Hd. unfold distance.
  set (x := fun q => Qabs (rank r' q - rank r q)).
  apply Qle_trans
    with (sumQ (fun p => d * sumQ (fun q => weight corpus p q * x q)
                               (keys corpus))
            (keys corpus)).
  { apply sumQ_le. intros p Hp.
    rewrite !rank_sweep by (rewrite ?HK, ?HK'; assumption).
    now apply new_rank_moves. }
  rewrite sumQ_scale.
  apply Qmult_le_l_weak; [assumption|].
  rewrite (sumQ_swap (fun p q => weight corpus p q * x q)).
  apply sumQ_le. intros q Hq.
  rewrite (sumQ_ext (fun p => weight corpus p q * x q)
             (fun p => x q * weight corpus p q))
    by (intros; ring).
  rewrite sumQ_scale.
  pose proof (column_le_one corpus q ND Hq) as C.
  assert (X : 0 <= x q) by apply Qabs_nonneg.
  set (c := sumQ _ _) in *. nra.
Qed.

(** A sequence that shrinks by a factor below one gets below any bound. *)
Lemma geometric_decay (a : nat -> Q) (d eps : Q) :
  0 <= d < 1 -> 0 < eps ->
  (forall k, 0 <= a k) ->
  (forall k, a (S k) <= d * a k) ->
  exists k, a k <= eps.
Proof.
  intros [Hd0 Hd1] He Ha Hstep.
  set (t := 1 - d).
  assert (B : forall k, (1 + inject_Z (Z.of_nat k) * t) * a k <= a O).
  { induction k as [|k IH].
    - change (inject_Z (Z.of_nat 0)) with 0. lra.
    - rewrite Nat2Z.inj_succ, <- Z.add_1_r, inject_Z_plus.
      change (inject_Z 1) with 1.
      set (K := inject_Z (Z.of_nat k)) in *.
      assert (HK : 0 <= K).
      { unfold K. change 0 with (inject_Z 0). rewrite <- Zle_Qle. lia. }
      pose proof (Ha k) as A0. pose proof (Hstep k) as A1.
      pose proof (Ha (S k)) as A2.
      set (u := a (S k)) in *. set (v := a k) in *.
      assert (P1 : (1 + (K + 1) * t) * u <= (1 + (K + 1) * t) * (d * v)).
      { apply Qmult_le_l_weak; [unfold t; nra | assumption]. }
      assert (P2 : (1 + (K + 1) * t) * (d * v) <= (1 + K * t) * v).
      { assert (E : (1 + K * t) * v - (1 + (K + 1) * t) * (d * v)
                    == ((K + 1) * (t * t)) * v) by (unfold t; ring).
        assert (0 <= ((K + 1) * (t * t)) * v); [|lra].
        apply Qmult_le_0_compat; [|assumption].
        apply Qmult_le_0_compat; [lra|]. unfold t. nra. }
      lra. }
  set (x := a O / (eps * t)).
  assert (Ht : 0 < t) by (unfold t; lra).
  assert (Hx : 0 <= x).
  { unfold x. apply Qle_shift_div_l; [nra|]. pose proof (Ha O). lra. }
  exists (Z.to_nat (Qceiling x)).
  specialize (B (Z.to_nat (Qceiling x))).
  assert (C0 : (0 <= Qceiling x)%Z).
  { change 0%Z with (Qceiling 0). now apply Qceiling_resp_le. }
  rewrite Z2Nat.id in B by assumption.
  pose proof (Qle_ceiling x) as C1.
  set (K := inject_Z (Qceiling x)) in *.
  set (v := a (Z.to_nat (Qceiling x))) in *.
  assert (X : a O <= K * (eps * t)).
  { apply Qle_trans with (x * (eps * t)).
    - unfold x. field_simplify; [lra | nra].
    - apply Qmult_le_compat_r; [assumption | nra]. }
  assert (V : (1 + K * t) * v <= (1 + K * t) * eps) by nra.
  apply Qmult_le_l in V; [assumption | nra].
Qed.

(** ** Convergence *)

Lemma moved_true (old new : Q) :
  tolerance < Qabs (old - new) -> moved old new = true.
Proof.
  intros H. unfold moved.
  destruct (Qlt_le_dec tolerance (Qabs (old - new))); [reflexivity | lra].
Qed.

Lemma moved_spec (old new : Q) :
  moved old new = false <-> Qabs (old - new) <= tolerance.
Proof.
  unfold moved.
  destruct (Qlt_le_dec tolerance (Qabs (old - new))); split;
    intros; try reflexivity; try discriminate; lra.
Qed.

Lemma changed_false (r r' : dict Q) :
  changed r r' = false
  <-> forall p, In p (keys r) -> Qabs (rank r p - rank r' p) <= tolerance.
Proof.
  unfold changed. split.
  - intros H p Hp. apply moved_spec.
    destruct (moved (rank r p) (rank r' p)) eqn:M; [|reflexivity].
    assert (existsb (fun p => moved (rank r p) (rank r' p)) (keys r) = true)
      by (apply existsb_exists; exists p; now split).
    congruence.
  - intros H.
    destruct (existsb _ _) eqn:E; [|reflexivity].
    apply existsb_exists in E. destruct E as (p & Hp & M).
    apply H, moved_spec in Hp. congruence.
Qed.

Lemma changed_true (r r' : dict Q) :
  changed r r' = true
  <-> exists p, In p (keys r) /\ tolerance < Qabs (rank r p - rank r' p).
Proof.
  unfold changed. rewrite existsb_exists. split.
  - intros (p & Hp & M). exists p. split; [assumption|].
    unfold moved in M.
    destruct (Qlt_le_dec tolerance (Qabs (rank r p - rank r' p)));
      [assumption | discriminate].
  - intros (p & Hp & M). exists p. split; [assumption|].
    now apply moved_true.
Qed.

Lemma small_distance_stops (ks : list page) (r r' : dict Q) :
  keys r = ks -> distance ks r r' <= tolerance -> changed r r' = false.
Proof.
  intros HK H. apply changed_false. intros p Hp.
  rewrite Qabs_Qminus.
  apply Qle_trans with (distance ks r r'); [|assumption].
  unfold distance.
  apply (sumQ_member (fun p => Qabs (rank r' p - rank r p))).
  - intros. apply Qabs_nonneg.
  - now rewrite <- HK.
Qed.

Lemma sweeps_converge (corpus : corpus_t) (d : Q) (r : dict Q) :
  NoDup (keys corpus) -> keys r = keys corpus -> 0 <= d < 1 ->
  exists k,
    changed (sweeps_from corpus d r k) (sweeps_from corpus d r (S k)) = false.
Proof.
  intros ND HK Hd.
  destruct (geometric_decay
              (fun k => distance (keys corpus) (sweeps_from corpus d r k)
                          (sweeps_from corpus d r (S k)))
              d tolerance Hd) as (k & Hk).
  - reflexivity.
  - intros k. unfold distance. apply sumQ_nonneg. intros. apply Qabs_nonneg.
  - intros k.
    change (sweeps_from corpus d r (S (S k)))
      with (sweep corpus d (sweeps_from corpus d r (S k))).
    change (sweeps_from corpus d r (S k))
      with (sweep corpus d (sweeps_from corpus d r k)) at 1.
    apply sweep_contracts; auto.
    + now rewrite keys_sweeps_from.
    + now rewrite keys_sweeps_from.
    + tauto.
  - exists k. apply small_distance_stops with (ks := keys corpus); auto.
    now rewrite keys_sweeps_from.
Qed.

Lemma stops_at_unique (corpus : corpus_t) (d : Q) (r : dict Q) (k k' : nat) :
  stops_at corpus d r k -> stops_at corpus d r k' -> k = k'.
Proof.
  intros [H1 H2] [H1' H2'].
  destruct (Nat.lt_trichotomy k k') as [L|[E|L]]; [|assumption|].
  - apply H1' in L. congruence.
  - apply H1 in L. congruence.
Qed.

(** With enough fuel the loop returns the ranks of the sweep at which it
    stops, and with less it is still running. *)
Lemma while_loop_result (corpus : corpus_t) (d : Q) (r calc : dict Q)
  (k fuel : nat) :
  NoDup (keys corpus) -> keys r = keys corpus ->
  stops_at corpus d r k ->
  while_loop fuel corpus d (len corpus) r calc
  = if (k <? fuel)%nat then Some (Ok (sweeps_from corpus d r (S k))) else None.
Proof.
  intros ND HK St.
  pose proof (while_loop_spec corpus d ND fuel r calc HK) as W.
  destruct (while_loop fuel corpus d (len corpus) r calc) as [[r'|e]|].
  - destruct W as (k' & Hk' & St' & ->).
    rewrite (stops_at_unique _ _ _ _ _ St St').
    apply Nat.ltb_lt in Hk'. now rewrite Hk'.
  - contradiction.
  - destruct (Nat.ltb_spec k fuel) as [L|L]; [|reflexivity].
    apply W in L. destruct St as [_ St]. congruence.
Qed.

Lemma while_loop_terminates (corpus : corpus_t) (d : Q) (r calc : dict Q) :
  NoDup (keys corpus) -> keys r = keys corpus -> 0 <= d < 1 ->
  exists k, stops_at corpus d r k.
Proof.
  intros ND HK Hd.
  destruct (sweeps_converge corpus d r ND HK Hd) as (k & Hk).
  pose proof (while_loop_spec corpus d ND (S k) r calc HK) as W.
  destruct (while_loop (S k) corpus d (len corpus) r calc) as [[r'|e]|].
  - destruct W as (k' & _ & St & _). now exists k'.
  - contradiction.
  - specialize (W k (Nat.lt_succ_diag_r k)). congruence.
Qed.

Lemma keys_initial_ranks (corpus : corpus_t) :
  keys (initial_ranks corpus) = keys corpus.
Proof.
  apply keys_map.
Qed.

Lemma iterate_pagerank_result (corpus : corpus_t) (d : Q) (k fuel : nat) :
  NoDup (keys corpus) ->
  stops_at corpus d (initial_ranks corpus) k ->
  iterate_pagerank fuel corpus d
  = if (k <? fuel)%nat
    then Some (Ok (sweeps_from corpus d (initial_ranks corpus) (S k)))
    else None.
Proof.
  intros ND St. rewrite iterate_pagerank_unfold by assumption.
  apply while_loop_result; auto. apply keys_initial_ranks.
Qed.

Lemma iterate_pagerank_enough (corpus : corpus_t) (d : Q) (k : nat) :
  NoDup (keys corpus) ->
  stops_at corpus d (initial_ranks corpus) k ->
  iterate_pagerank (S k) corpus d
  = Some (Ok (sweeps_from corpus d (initial_ranks corpus) (S k))).
Proof.
  intros ND St. rewrite (iterate_pagerank_result corpus d k (S k) ND St).
  assert (E : (k <? S k)%nat = true) by (apply Nat.ltb_lt; lia).
  now rewrite E.
Qed.

Lemma iterate_pagerank_returns (corpus : corpus_t) (d : Q) (fuel : nat)
  (r : dict Q) :
  NoDup (keys corpus) ->
  iterate_pagerank fuel corpus d = Some (Ok r) ->
  exists k, (k < fuel)%nat
            /\ stops_at corpus d (initial_ranks corpus) k
            /\ r = sweeps_from corpus d (initial_ranks corpus) (S k).
Proof.
  intros ND E. rewrite iterate_pagerank_unfold in E by assumption.
  pose proof (while_loop_spec corpus d ND fuel (initial_ranks corpus) []
                (keys_initial_ranks corpus)) as W.
  rewrite E in W. exact W.
Qed.

Lemma iterate_pagerank_terminates (corpus : corpus_t) (d : Q) :
  NoDup (keys corpus) -> 0 <= d < 1 ->
  exists k, stops_at corpus d (initial_ranks corpus) k.
Proof.
  intros ND Hd.
  apply while_loop_terminates; auto using keys_initial_ranks.
  exact [].
Qed.

(** ** The recurrence of a sweep *)

Lemma new_rank_formula (corpus : corpus_t) (d : Q) (r : dict Q) (p : page) :
  new_rank corpus d r p == new_rank_excluding_self corpus d r p.
Proof.
  rewrite new_rank_weight. unfold new_rank_excluding_self.
  rewrite !sumQ_filter, <- sumQ_plus.
  apply Qplus_comp; [reflexivity|]. apply Qmult_comp; [reflexivity|].
  apply sumQ_ext. intros q _. unfold weight.
  destruct (negb (p =? q)%string && mem p (links_of corpus q));
    destruct (is_nil (links_of corpus q)); unfold Qdiv; ring.
Qed.

Lemma excluding_self_irrelevant (corpus : corpus_t) (d : Q) (r : dict Q)
  (p : page) :
  no_self_links corpus = true ->
  new_rank_excluding_self corpus d r p = spec_new_rank corpus d r p.
Proof.
  intros SL. unfold new_rank_excluding_self, spec_new_rank.
  do 4 f_equal. apply filter_ext_in. intros q Hq.
  destruct (String.eqb_spec p q) as [->|N]; [|reflexivity].
  unfold no_self_links in SL. rewrite forallb_forall in SL.
  specialize (SL q Hq). apply negb_true_iff in SL. now rewrite SL.
Qed.

Lemma sweep_step_ranks (corpus : corpus_t) (d : Q) (r calc : dict Q) :
  NoDup (keys corpus) -> keys r = keys corpus ->
  exists c r' calc',
    sweep_step corpus d (len corpus) r calc = Ok (c, r', calc')
    /\ c = changed r r'
    /\ r' = sweep corpus d r.
Proof.
  intros ND HK.
  destruct (sweep_step_ok corpus d r calc ND HK) as (calc' & E).
  now exists (changed r (sweep corpus d r)), (sweep corpus d r), calc'.
Qed.

(** ** A self-link loses mass *)

Lemma sumQ_lt {A : Type} (f g : A -> Q) (l : list A) (a : A) :
  (forall x, In x l -> f x <= g x) -> In a l -> f a < g a ->
  sumQ f l < sumQ g l.
Proof.
  unfold sumQ. induction l as [|b t IH]; cbn [map Qsum]; intros H Ha Hlt.
  - contradiction.
  - pose proof (H b (or_introl eq_refl)) as Hb.
    assert (Ht : forall x, In x t -> f x <= g x)
      by (intros x Hx; apply H; now right).
    pose proof (sumQ_le f g t Ht) as Hle. unfold sumQ in Hle.
    destruct Ha as [->|Ha].
    + lra.
    + specialize (IH Ht Ha Hlt). lra.
Qed.




(** ** A corpus on which the loop never stops *)

Lemma three_pages_new_ranks (r : dict Q) :
  new_rank three_pages 1 r "1.html"%string
  == rank r "2.html"%string + rank r "3.html"%string
  /\ new_rank three_pages 1 r "2.html"%string == rank r "1.html"%string
  /\ new_rank three_pages 1 r "3.html"%string == 0.
Proof.
  rewrite !new_rank_weight. unfold sumQ, weight, links_of.
  cbn [three_pages keys map fst Qsum lookup String.eqb Ascii.eqb Bool.eqb
       negb andb mem existsb orb is_nil].
  change (len three_pages) with 3.
  change (len ["1.html"%string]) with 1.
  change (len ["2.html"%string]) with 1.
  generalize (rank r "1.html"%string) (rank r "2.html"%string)
    (rank r "3.html"%string).
  intros a b c. repeat split; field.
Qed.

(** With damping 1 the first page and the two others keep exchanging a
    third of the mass. *)
Lemma three_pages_imbalance (k : nat) :
  let r := sweeps_from three_pages 1 (initial_ranks three_pages) k in
  keys r = keys three_pages
  /\ tolerance
     < Qabs (rank r "1.html"%string
             - (rank r "2.html"%string + rank r "3.html"%string)).
Proof.
  induction k as [|k [HK IH]].
  - split; [reflexivity|]. vm_compute. reflexivity.
  - cbv zeta in *.
    change (sweeps_from three_pages 1 (initial_ranks three_pages) (S k))
      with (sweep three_pages 1
              (sweeps_from three_pages 1 (initial_ranks three_pages) k)).
    set (r := sweeps_from three_pages 1 (initial_ranks three_pages) k) in *.
    split; [now rewrite keys_sweep|].
    rewrite !rank_sweep by (rewrite HK; cbn; tauto).
    destruct (three_pages_new_ranks r) as (E1 & E2 & E3).
    rewrite E1, E2, E3.
    setoid_replace (rank r "2.html"%string + rank r "3.html"%string
                    - (rank r "1.html"%string + 0))
      with (- (rank r "1.html"%string
               - (rank r "2.html"%string + rank r "3.html"%string)))
      by ring.
    now rewrite Qabs_opp.
Qed.

Lemma three_pages_keeps_changing (k : nat) :
  changed (sweeps_from three_pages 1 (initial_ranks three_pages) k)
    (sweeps_from three_pages 1 (initial_ranks three_pages) (S k))
  = true.
Proof.
  destruct (three_pages_imbalance k) as [HK H]. cbv zeta in *.
  change (sweeps_from three_pages 1 (initial_ranks three_pages) (S k))
    with (sweep three_pages 1
            (sweeps_from three_pages 1 (initial_ranks three_pages) k)).
  set (r := sweeps_from three_pages 1 (initial_ranks three_pages) k) in *.
  apply changed_true. exists "1.html"%string.
  assert (Hin : In "1.html"%string (keys r)) by (rewrite HK; cbn; tauto).
  split; [assumption|].
  rewrite rank_sweep by assumption.
  destruct (three_pages_new_ranks r) as (E1 & _). now rewrite E1.
Qed.

Lemma three_pages_runs_forever (fuel : nat) :
  iterate_pagerank fuel three_pages 1 = None.
Proof.
  assert (ND : NoDup (keys three_pages)) by (now apply distinct_NoDup).
  rewrite iterate_pagerank_unfold by assumption.
  pose proof (while_loop_spec three_pages 1 ND fuel
                (initial_ranks three_pages) []
                (keys_initial_ranks three_pages)) as W.
  destruct (while_loop fuel three_pages 1 (len three_pages)
              (initial_ranks three_pages) []) as [[r'|e]|].
  - destruct W as (k & _ & [_ St] & _).
    rewrite three_pages_keeps_changing in St. discriminate.
  - contradiction.
  - reflexivity.
Qed.

(** * The claims *)

(** ** The transition model *)

(** C1.  For a corpus (a dictionary of link sets whose links are pages of
    the corpus), a page [pg] of it and any damping factor [d]:
    [transition_model] returns a mapping over exactly the pages of the
    corpus.  When [pg] has [num_links > 0] outgoing links, every page
    gets [(1 - d) / num_pages], and a page of the link set of [pg] gets
    [d / num_links] on top of it; when [pg] has no outgoing links, every
    page gets [1 / num_pages]. *)
Theorem transition_model_distribution (corpus : corpus_t) (pg : page) (d : Q) :
  distinct (keys corpus) = true ->
  link_sets corpus = true ->
  no_dangling_links corpus = true ->
  In pg (keys corpus) ->
  exists pd,
    transition_model corpus pg d = Ok pd
    /\ keys pd = keys corpus
    /\ (0 < len (links_of corpus pg) ->
        forall i, In i (keys corpus) ->
          rank pd i
          == (1 - d) / len corpus
             + (if mem i (links_of corpus pg)
                then d / len (links_of corpus pg) else 0))
    /\ (links_of corpus pg = [] ->
        forall i, In i (keys corpus) -> rank pd i == 1 / len corpus).
Proof.
  intros ND LS CL Hpg. apply distinct_NoDup in ND.
  pose proof (no_dangling_incl corpus pg CL Hpg) as Hcl.
  exists (transition corpus pg d).
  split; [now apply transition_model_ok|].
  split; [now apply transition_keys|].
  unfold transition. fold (links_of corpus pg). split.
  - intros L i Hi.
    destruct (Qlt_le_dec 0 (len (links_of corpus pg))) as [_|L']; [|lra].
    rewrite boost_rank.
    + rewrite rank_map_cases. apply mem_In in Hi. rewrite Hi. reflexivity.
    + unfold link_sets in LS. rewrite forallb_forall in LS.
      apply distinct_NoDup. now apply LS.
  - intros E i Hi. rewrite E.
    destruct (Qlt_le_dec 0 (len (@nil page))) as [L|_].
    + change (len (@nil page)) with 0 in L. lra.
    + rewrite rank_map_cases. apply mem_In in Hi. rewrite Hi. reflexivity.
Qed.

Lemma transition_model_distribution_witness :
  distinct (keys two_cycle) = true
  /\ link_sets two_cycle = true
  /\ no_dangling_links two_cycle = true
  /\ In "1.html"%string (keys two_cycle)
  /\ exists pd,
       transition_model two_cycle "1.html"%string (85 # 100) = Ok pd
       /\ keys pd = keys two_cycle
       /\ (0 < len (links_of two_cycle "1.html"%string) ->
           forall i, In i (keys two_cycle) ->
             rank pd i
             == (1 - (85 # 100)) / len two_cycle
                + (if mem i (links_of two_cycle "1.html"%string)
                   then (85 # 100) / len (links_of two_cycle "1.html"%string)
                   else 0))
       /\ (links_of two_cycle "1.html"%string = [] ->
           forall i, In i (keys two_cycle) -> rank pd i == 1 / len two_cycle).
Proof.
  assert (H1 : distinct (keys two_cycle) = true) by reflexivity.
  assert (H2 : link_sets two_cycle = true) by reflexivity.
  assert (H3 : no_dangling_links two_cycle = true) by reflexivity.
  assert (H4 : In "1.html"%string (keys two_cycle)) by (simpl; tauto).
  repeat (split; [assumption|]).
  exact (transition_model_distribution two_cycle "1.html"%string (85 # 100)
           H1 H2 H3 H4).
Defined.

(** C7.  For a non-empty corpus, a page [pg] of it and any damping
    factor: the values of the distribution that [transition_model]
    returns sum to 1 (exactly, in exact arithmetic). *)
Theorem transition_model_sums_to_one (corpus : corpus_t) (pg : page) (d : Q) :
  distinct (keys corpus) = true ->
  no_dangling_links corpus = true ->
  In pg (keys corpus) ->
  exists pd, transition_model corpus pg d = Ok pd /\ total pd == 1.
Proof.
  intros ND CL Hpg. apply distinct_NoDup in ND.
  pose proof (no_dangling_incl corpus pg CL Hpg) as Hcl.
  exists (transition corpus pg d).
  split; [now apply transition_model_ok|].
  apply transition_total; [|assumption]. intros ->. contradiction.
Qed.

Lemma transition_model_sums_to_one_witness :
  distinct (keys sink_corpus) = true
  /\ no_dangling_links sink_corpus = true
  /\ In "2.html"%string (keys sink_corpus)
  /\ exists pd,
       transition_model sink_corpus "2.html"%string (85 # 100) = Ok pd
       /\ total pd == 1.
Proof.
  assert (H1 : distinct (keys sink_corpus) = true) by reflexivity.
  assert (H2 : no_dangling_links sink_corpus = true) by reflexivity.
  assert (H3 : In "2.html"%string (keys sink_corpus)) by (simpl; tauto).
  repeat (split; [assumption|]).
  exact (transition_model_sums_to_one sink_corpus "2.html"%string (85 # 100)
           H1 H2 H3).
Defined.

(** ** The sampling estimator *)

(** C3, as the code has it.  For a non-empty corpus, any damping
    factor, any random source and [n >= 1]: [sample_pagerank] returns
    the counters divided by [n]; the counters tally the first [n - 1] of
    the [n] pages drawn, the first draw included, and the last draw is
    not tallied; so the returned values sum to [(n - 1) / n], and for
    [n = 1] every returned value is 0. *)
Theorem sample_pagerank_total (draws : nat -> Q) (corpus : corpus_t) (d : Q)
  (n : Z) :
  distinct (keys corpus) = true ->
  no_dangling_links corpus = true ->
  corpus <> [] ->
  (forall i, 0 <= draws i < 1) ->
  (1 <= n)%Z ->
  exists counters r,
    sample_pagerank draws corpus d n = Ok r
    /\ r = map (fun e => (fst e, snd e / inject_Z n)) counters
    /\ keys counters = keys corpus
    /\ (forall p,
          rank counters p
          == inject_Z (Z.of_nat (visits draws corpus d (Z.to_nat (n - 1)) p)))
    /\ total counters == inject_Z n - 1
    /\ total r == (inject_Z n - 1) / inject_Z n
    /\ (n = 1%Z -> forall v, In v (values r) -> v == 0).
Proof.
  intros ND CL NE HU Hn. apply distinct_NoDup in ND.
  destruct (sample_pagerank_spec draws corpus d n ND NE (fun _ => CL) (HU O))
    as (counters & E & HK & HT & HV & HZ); [lia|].
  assert (T : total counters == inject_Z n - 1).
  { rewrite HT, Z2Nat.id by lia.
    unfold Zminus. rewrite inject_Z_plus. reflexivity. }
  exists counters, (map (fun e => (fst e, snd e / inject_Z n)) counters).
  repeat split; auto.
  - now rewrite total_divide, T.
  - intros -> v Hv. rewrite HZ in Hv by reflexivity.
    unfold values in Hv. rewrite !map_map in Hv. cbn [fst snd] in Hv.
    apply in_map_iff in Hv. destruct Hv as (p & <- & _). reflexivity.
Qed.

Lemma sample_pagerank_total_witness :
  distinct (keys two_cycle) = true
  /\ no_dangling_links two_cycle = true
  /\ two_cycle <> []
  /\ (forall i : nat, 0 <= 1 # 2 < 1)
  /\ (1 <= 5)%Z
  /\ exists counters r,
       sample_pagerank (fun _ => 1 # 2) two_cycle (85 # 100) 5 = Ok r
       /\ r = map (fun e => (fst e, snd e / inject_Z 5)) counters
       /\ keys counters = keys two_cycle
       /\ (forall p,
             rank counters p
             == inject_Z
                  (Z.of_nat
                     (visits (fun _ => 1 # 2) two_cycle (85 # 100)
                        (Z.to_nat (5 - 1)) p)))
       /\ total counters == inject_Z 5 - 1
       /\ total r == (inject_Z 5 - 1) / inject_Z 5
       /\ (5%Z = 1%Z -> forall v, In v (values r) -> v == 0).
Proof.
  assert (H1 : distinct (keys two_cycle) = true) by reflexivity.
  assert (H2 : no_dangling_links two_cycle = true) by reflexivity.
  assert (H3 : two_cycle <> []) by discriminate.
  assert (H4 : forall i : nat, 0 <= 1 # 2 < 1) by (intros _; split; lra).
  assert (H5 : (1 <= 5)%Z) by lia.
  repeat (split; [assumption|]).
  exact (sample_pagerank_total (fun _ => 1 # 2) two_cycle (85 # 100) 5
           H1 H2 H3 H4 H5).
Defined.

(** C3 as stated fails in its account of which draw is left out: with
    [n = 2] on the two-cycle, the first draw is page 1 and the second is
    page 2; the one visit that is tallied is that of page 1, the first
    page drawn, and page 2, the last one drawn, is not tallied. *)
Lemma first_draw_is_tallied :
  drawn zero_then_half two_cycle (85 # 100) 0 = "1.html"%string
  /\ drawn zero_then_half two_cycle (85 # 100) 1 = "2.html"%string
  /\ exists r,
       sample_pagerank zero_then_half two_cycle (85 # 100) 2 = Ok r
       /\ rank r "1.html"%string == 1 # 2
       /\ rank r "2.html"%string == 0.
Proof.
  split; [reflexivity|]. split; [reflexivity|].
  eexists. split; [vm_compute; reflexivity|]. split; reflexivity.
Qed.

(** C4, as the code has it.  Nothing is validated and no [InvalidInput]
    exists: on an empty corpus [sample_pagerank] fails with the
    [IndexError] of [random.choice], with [n = 0] on a non-empty corpus
    it fails with [ZeroDivisionError], with [n < 0] it returns the
    all-zero mapping, and [iterate_pagerank] on the empty corpus returns
    the empty mapping. *)
Theorem precondition_violations (draws : nat -> Q) (corpus : corpus_t) (d : Q)
  (n m : Z) (fuel : nat) :
  distinct (keys corpus) = true ->
  corpus <> [] ->
  0 <= draws O < 1 ->
  (n < 0)%Z ->
  sample_pagerank draws [] d m = Raise IndexError
  /\ sample_pagerank draws corpus d 0 = Raise ZeroDivisionError
  /\ sample_pagerank draws corpus d n
     = Ok (map (fun p => (p, 0 / inject_Z n)) (keys corpus))
  /\ iterate_pagerank (S fuel) [] d = Some (Ok []).
Proof.
  intros ND NE HU Hn. apply distinct_NoDup in ND.
  split; [reflexivity|].
  split; [now apply sample_pagerank_zero|].
  split; [|reflexivity].
  destruct (sample_pagerank_spec draws corpus d n ND NE)
    as (c & E & _ & _ & _ & HZ).
  - intros. lia.
  - assumption.
  - lia.
  - rewrite E, HZ by lia. now rewrite map_map.
Qed.

Lemma precondition_violations_witness :
  distinct (keys two_cycle) = true
  /\ two_cycle <> []
  /\ 0 <= 1 # 2 < 1
  /\ (-3 < 0)%Z
  /\ sample_pagerank (fun _ => 1 # 2) [] (85 # 100) 10 = Raise IndexError
  /\ sample_pagerank (fun _ => 1 # 2) two_cycle (85 # 100) 0
     = Raise ZeroDivisionError
  /\ sample_pagerank (fun _ => 1 # 2) two_cycle (85 # 100) (-3)
     = Ok (map (fun p => (p, 0 / inject_Z (-3))) (keys two_cycle))
  /\ iterate_pagerank 1 [] (85 # 100) = Some (Ok []).
Proof.
  assert (H1 : distinct (keys two_cycle) = true) by reflexivity.
  assert (H2 : two_cycle <> []) by discriminate.
  assert (H3 : 0 <= 1 # 2 < 1) by (split; lra).
  assert (H4 : (-3 < 0)%Z) by lia.
  repeat (split; [assumption|]).
  exact (precondition_violations (fun _ => 1 # 2) two_cycle (85 # 100)
           (-3) 10 O H1 H2 H3 H4).
Defined.

(** C4 as stated fails: on the empty corpus [iterate_pagerank] returns
    the empty mapping, and with a negative [n] [sample_pagerank] returns
    a mapping; neither fails. *)
Lemma invalid_input_not_raised :
  iterate_pagerank 1 [] (85 # 100) = Some (Ok [])
  /\ sample_pagerank (fun _ => 1 # 2) two_cycle (85 # 100) (-3)
     = Ok [("1.html"%string, 0 # 3); ("2.html"%string, 0 # 3)].
Proof.
  split; vm_compute; reflexivity.
Qed.

(** C8.  For a non-empty corpus and valid arguments, the mapping that
    [sample_pagerank] returns and every mapping that [iterate_pagerank]
    returns have the keys of the corpus, in the order of the corpus; and
    with a damping factor below 1 [iterate_pagerank] does return. *)
Theorem rank_mappings_keys (draws : nat -> Q) (corpus : corpus_t) (d : Q)
  (n : Z) :
  distinct (keys corpus) = true ->
  no_dangling_links corpus = true ->
  corpus <> [] ->
  (forall i, 0 <= draws i < 1) ->
  (1 <= n)%Z ->
  0 <= d <= 1 ->
  (exists r, sample_pagerank draws corpus d n = Ok r /\ keys r = keys corpus)
  /\ (forall fuel r,
        iterate_pagerank fuel corpus d = Some (Ok r) -> keys r = keys corpus)
  /\ (d < 1 ->
      exists fuel r,
        iterate_pagerank fuel corpus d = Some (Ok r) /\ keys r = keys corpus).
Proof.
  intros ND CL NE HU Hn Hd. apply distinct_NoDup in ND.
  assert (K : forall k,
             keys (sweeps_from corpus d (initial_ranks corpus) k)
             = keys corpus).
  { intros k. now rewrite keys_sweeps_from, keys_initial_ranks. }
  split; [|split].
  - destruct (sample_pagerank_spec draws corpus d n ND NE (fun _ => CL) (HU O))
      as (counters & E & HK & _); [lia|].
    eexists. split; [exact E|]. now rewrite keys_divide.
  - intros fuel r E.
    destruct (iterate_pagerank_returns corpus d fuel r ND E) as (k & _ & _ & ->).
    apply K.
  - intros Hd1.
    destruct (iterate_pagerank_terminates corpus d ND) as (k & St); [lra|].
    exists (S k), (sweeps_from corpus d (initial_ranks corpus) (S k)).
    split; [|apply K].
    now apply iterate_pagerank_enough.
Qed.

Lemma rank_mappings_keys_witness :
  distinct (keys sink_corpus) = true
  /\ no_dangling_links sink_corpus = true
  /\ sink_corpus <> []
  /\ (forall i : nat, 0 <= 1 # 4 < 1)
  /\ (1 <= 3)%Z
  /\ 0 <= 85 # 100 <= 1
  /\ (exists r,
        sample_pagerank (fun _ => 1 # 4) sink_corpus (85 # 100) 3 = Ok r
        /\ keys r = keys sink_corpus)
  /\ (forall fuel r,
        iterate_pagerank fuel sink_corpus (85 # 100) = Some (Ok r) ->
        keys r = keys sink_corpus)
  /\ (85 # 100 < 1 ->
      exists fuel r,
        iterate_pagerank fuel sink_corpus (85 # 100) = Some (Ok r)
        /\ keys r = keys sink_corpus).
Proof.
  assert (H1 : distinct (keys sink_corpus) = true) by reflexivity.
  assert (H2 : no_dangling_links sink_corpus = true) by reflexivity.
  assert (H3 : sink_corpus <> []) by discriminate.
  assert (H4 : forall i : nat, 0 <= 1 # 4 < 1) by (intros _; split; lra).
  assert (H5 : (1 <= 3)%Z) by lia.
  assert (H6 : 0 <= 85 # 100 <= 1) by (split; lra).
  repeat (split; [assumption|]).
  exact (rank_mappings_keys (fun _ => 1 # 4) sink_corpus (85 # 100) 3
           H1 H2 H3 H4 H5 H6).
Defined.

(** ** The iterative estimator *)

(** C2.  In a corpus without self-links, one round of the [while] body
    from the ranks [r] leaves, for every page [p], the rank
    [(1 - d)/N + d * (sum over the q with p in links(q) of r[q]/|links(q)|
    + sum over the q without links of r[q]/N)], every [r[q]] being the
    rank before the round; so do the successive sweeps of
    [iterate_pagerank]. *)
Theorem sweep_recurrence (corpus : corpus_t) (d : Q) (r calc : dict Q) :
  distinct (keys corpus) = true ->
  no_self_links corpus = true ->
  keys r = keys corpus ->
  (exists c r' calc',
     sweep_step corpus d (len corpus) r calc = Ok (c, r', calc')
     /\ keys r' = keys corpus
     /\ forall p, In p (keys corpus) ->
          rank r' p == spec_new_rank corpus d r p)
  /\ forall k p, In p (keys corpus) ->
       rank (sweeps_from corpus d (initial_ranks corpus) (S k)) p
       == spec_new_rank corpus d
            (sweeps_from corpus d (initial_ranks corpus) k) p.
Proof.
  intros ND SL HK. apply distinct_NoDup in ND.
  assert (F : forall r0 p, keys r0 = keys corpus -> In p (keys corpus) ->
                rank (sweep corpus d r0) p == spec_new_rank corpus d r0 p).
  { intros r0 p HK0 Hp. rewrite rank_sweep by now rewrite HK0.
    rewrite new_rank_formula. now rewrite excluding_self_irrelevant. }
  split.
  - destruct (sweep_step_ranks corpus d r calc ND HK) as (c & r' & calc' & E & _ & ->).
    exists c, (sweep corpus d r), calc'.
    split; [assumption|]. split; [now rewrite keys_sweep|].
    intros p Hp. now apply F.
  - intros k p Hp.
    change (sweeps_from corpus d (initial_ranks corpus) (S k))
      with (sweep corpus d (sweeps_from corpus d (initial_ranks corpus) k)).
    apply F; [|assumption].
    now rewrite keys_sweeps_from, keys_initial_ranks.
Qed.

Lemma sweep_recurrence_witness :
  distinct (keys sink_corpus) = true
  /\ no_self_links sink_corpus = true
  /\ keys (initial_ranks sink_corpus) = keys sink_corpus
  /\ (exists c r' calc',
        sweep_step sink_corpus (85 # 100) (len sink_corpus)
          (initial_ranks sink_corpus) []
        = Ok (c, r', calc')
        /\ keys r' = keys sink_corpus
        /\ forall p, In p (keys sink_corpus) ->
             rank r' p
             == spec_new_rank sink_corpus (85 # 100)
                  (initial_ranks sink_corpus) p)
  /\ forall k p, In p (keys sink_corpus) ->
       rank (sweeps_from sink_corpus (85 # 100)
               (initial_ranks sink_corpus) (S k)) p
       == spec_new_rank sink_corpus (85 # 100)
            (sweeps_from sink_corpus (85 # 100)
               (initial_ranks sink_corpus) k) p.
Proof.
  assert (H1 : distinct (keys sink_corpus) = true) by reflexivity.
  assert (H2 : no_self_links sink_corpus = true) by reflexivity.
  assert (H3 : keys (initial_ranks sink_corpus) = keys sink_corpus)
    by reflexivity.
  repeat (split; [assumption|]).
  exact (sweep_recurrence sink_corpus (85 # 100) (initial_ranks sink_corpus) []
           H1 H2 H3).
Defined.

Lemma sweeps_total (corpus : corpus_t) (d : Q) (k : nat) :
  NoDup (keys corpus) -> corpus <> [] -> link_sets corpus = true ->
  no_self_links corpus = true -> no_dangling_links corpus = true ->
  total (sweeps_from corpus d (initial_ranks corpus) k) == 1.
Proof.
  intros ND NE LS SL DL. induction k as [|k IH].
  - now apply initial_total.
  - change (sweeps_from corpus d (initial_ranks corpus) (S k))
      with (sweep corpus d (sweeps_from corpus d (initial_ranks corpus) k)).
    rewrite sweep_keeps_mass; auto.
    + rewrite IH. ring.
    + now rewrite keys_sweeps_from, keys_initial_ranks.
Qed.

(** C6.  In a non-empty corpus without self-links and dangling links the
    ranks sum to 1 after the initialisation, a round of the [while] body
    from ranks of sum [s] leaves ranks of sum [(1 - d) + d * s], hence 1
    when [s] is 1, and every mapping that [iterate_pagerank] returns
    sums to 1; with a damping factor in [0,1) it does return one. *)
Theorem iterate_pagerank_mass (corpus : corpus_t) (d : Q) :
  distinct (keys corpus) = true ->
  link_sets corpus = true ->
  no_self_links corpus = true ->
  no_dangling_links corpus = true ->
  corpus <> [] ->
  total (initial_ranks corpus) == 1
  /\ (forall r calc, keys r = keys corpus ->
        exists c r' calc',
          sweep_step corpus d (len corpus) r calc = Ok (c, r', calc')
          /\ total r' == (1 - d) + d * total r
          /\ (total r == 1 -> total r' == 1))
  /\ (forall fuel r,
        iterate_pagerank fuel corpus d = Some (Ok r) -> total r == 1)
  /\ (0 <= d < 1 ->
      exists fuel r,
        iterate_pagerank fuel corpus d = Some (Ok r) /\ total r == 1).
Proof.
  intros ND LS SL DL NE. apply distinct_NoDup in ND.
  split; [now apply initial_total|]. split; [|split].
  - intros r calc HK.
    destruct (sweep_step_ranks corpus d r calc ND HK)
      as (c & r' & calc' & E & _ & ->).
    exists c, (sweep corpus d r), calc'. split; [assumption|].
    pose proof (sweep_keeps_mass corpus d r ND NE LS SL DL HK) as M.
    split; [assumption|]. intros T. rewrite M, T. ring.
  - intros fuel r E.
    destruct (iterate_pagerank_returns corpus d fuel r ND E) as (k & _ & _ & ->).
    now apply sweeps_total.
  - intros Hd.
    destruct (iterate_pagerank_terminates corpus d ND Hd) as (k & St).
    exists (S k), (sweeps_from corpus d (initial_ranks corpus) (S k)).
    split; [now apply iterate_pagerank_enough | now apply sweeps_total].
Qed.

Lemma iterate_pagerank_mass_witness :
  distinct (keys two_cycle) = true
  /\ link_sets two_cycle = true
  /\ no_self_links two_cycle = true
  /\ no_dangling_links two_cycle = true
  /\ two_cycle <> []
  /\ total (initial_ranks two_cycle) == 1
  /\ (forall r calc, keys r = keys two_cycle ->
        exists c r' calc',
          sweep_step two_cycle (85 # 100) (len two_cycle) r calc
          = Ok (c, r', calc')
          /\ total r' == (1 - (85 # 100)) + (85 # 100) * total r
          /\ (total r == 1 -> total r' == 1))
  /\ (forall fuel r,
        iterate_pagerank fuel two_cycle (85 # 100) = Some (Ok r) ->
        total r == 1)
  /\ (0 <= 85 # 100 < 1 ->
      exists fuel r,
        iterate_pagerank fuel two_cycle (85 # 100) = Some (Ok r)
        /\ total r == 1).
Proof.
  assert (H1 : distinct (keys two_cycle) = true) by reflexivity.
  assert (H2 : link_sets two_cycle = true) by reflexivity.
  assert (H3 : no_self_links two_cycle = true) by reflexivity.
  assert (H4 : no_dangling_links two_cycle = true) by reflexivity.
  assert (H5 : two_cycle <> []) by discriminate.
  repeat (split; [assumption|]).
  exact (iterate_pagerank_mass two_cycle (85 # 100) H1 H2 H3 H4 H5).
Defined.

(** C9.  For a non-empty corpus and a damping factor [d] in [0,1]:
    every value of a mapping that [iterate_pagerank] returns is at least
    [(1 - d)/N], hence positive when [d < 1]; and when [d < 1] it does
    return one. *)
Theorem iterate_pagerank_lower_bound (corpus : corpus_t) (d : Q) :
  distinct (keys corpus) = true ->
  corpus <> [] ->
  0 <= d <= 1 ->
  (forall fuel r,
     iterate_pagerank fuel corpus d = Some (Ok r) ->
     forall p v, lookup r p = Some v ->
       (1 - d) / len corpus <= v /\ (d < 1 -> 0 < v))
  /\ (d < 1 -> exists fuel r, iterate_pagerank fuel corpus d = Some (Ok r)).
Proof.
  intros ND NE Hd. apply distinct_NoDup in ND. split.
  - intros fuel r E p v Hv.
    destruct (iterate_pagerank_returns corpus d fuel r ND E) as (k & _ & _ & ->).
    change (sweeps_from corpus d (initial_ranks corpus) (S k))
      with (sweep corpus d (sweeps_from corpus d (initial_ranks corpus) k))
      in Hv.
    set (r0 := sweeps_from corpus d (initial_ranks corpus) k) in *.
    assert (Hp : In p (keys r0)).
    { apply lookup_Some_In in Hv. now rewrite keys_sweep in Hv. }
    pose proof (rank_sweep corpus d r0 p Hp) as R.
    unfold rank in R. rewrite Hv in R. subst v.
    assert (L : (1 - d) / len corpus <= new_rank corpus d r0 p).
    { apply new_rank_lower; [tauto|]. now apply sweeps_nonneg. }
    split; [assumption|]. intros Hd1.
    assert (0 < (1 - d) / len corpus); [|lra].
    apply Qlt_shift_div_l; [now apply len_pos | lra].
  - intros Hd1.
    destruct (iterate_pagerank_terminates corpus d ND) as (k & St); [lra|].
    exists (S k), (sweeps_from corpus d (initial_ranks corpus) (S k)).
    now apply iterate_pagerank_enough.
Qed.

Lemma iterate_pagerank_lower_bound_witness :
  distinct (keys sink_corpus) = true
  /\ sink_corpus <> []
  /\ 0 <= 85 # 100 <= 1
  /\ (forall fuel r,
        iterate_pagerank fuel sink_corpus (85 # 100) = Some (Ok r) ->
        forall p v, lookup r p = Some v ->
          (1 - (85 # 100)) / len sink_corpus <= v /\ (85 # 100 < 1 -> 0 < v))
  /\ (85 # 100 < 1 ->
      exists fuel r, iterate_pagerank fuel sink_corpus (85 # 100) = Some (Ok r)).
Proof.
  assert (H1 : distinct (keys sink_corpus) = true) by reflexivity.
  assert (H2 : sink_corpus <> []) by discriminate.
  assert (H3 : 0 <= 85 # 100 <= 1) by (split; lra).
  repeat (split; [assumption|]).
  exact (iterate_pagerank_lower_bound sink_corpus (85 # 100) H1 H2 H3).
Defined.

(** C5, as the code has it, in exact arithmetic.  With the ranks and
    the comparison with 0.001 computed exactly, for a damping factor in
    [0,1) the loop of [iterate_pagerank] terminates: there is a sweep,
    number [k + 1], that is the first in which no page's rank changes by
    more than 0.001, and with fuel for more than [k] sweeps
    [iterate_pagerank] returns the ranks computed by that sweep; with
    less fuel it is still running.  Nothing is said here of the loop
    run with binary64 numbers, which need not stop for a damping factor
    just below 1. *)
Theorem iterate_pagerank_stops (corpus : corpus_t) (d : Q) :
  distinct (keys corpus) = true ->
  0 <= d < 1 ->
  exists k,
    (forall j, (j < k)%nat ->
       exists p,
         In p (keys corpus)
         /\ tolerance
            < Qabs (rank (sweeps_from corpus d (initial_ranks corpus) j) p
                    - rank (sweeps_from corpus d (initial_ranks corpus) (S j)) p))
    /\ (forall p, In p (keys corpus) ->
          Qabs (rank (sweeps_from corpus d (initial_ranks corpus) k) p
                - rank (sweeps_from corpus d (initial_ranks corpus) (S k)) p)
          <= tolerance)
    /\ forall fuel,
         iterate_pagerank fuel corpus d
         = if (k <? fuel)%nat
           then Some (Ok (sweeps_from corpus d (initial_ranks corpus) (S k)))
           else None.
Proof.
  intros ND Hd. apply distinct_NoDup in ND.
  destruct (iterate_pagerank_terminates corpus d ND Hd) as (k & St).
  assert (K : forall j,
             keys (sweeps_from corpus d (initial_ranks corpus) j)
             = keys corpus).
  { intros j. now rewrite keys_sweeps_from, keys_initial_ranks. }
  exists k. split; [|split].
  - intros j Hj. destruct St as [St _]. specialize (St j Hj).
    apply changed_true in St. destruct St as (p & Hp & M).
    exists p. rewrite K in Hp. now split.
  - intros p Hp. destruct St as [_ St].
    rewrite changed_false in St. apply St. now rewrite K.
  - intros fuel. now apply iterate_pagerank_result.
Qed.

Lemma iterate_pagerank_stops_witness :
  distinct (keys three_pages) = true
  /\ 0 <= 85 # 100 < 1
  /\ exists k,
       (forall j, (j < k)%nat ->
          exists p,
            In p (keys three_pages)
            /\ tolerance
               < Qabs (rank (sweeps_from three_pages (85 # 100)
                               (initial_ranks three_pages) j) p
                       - rank (sweeps_from three_pages (85 # 100)
                                 (initial_ranks three_pages) (S j)) p))
       /\ (forall p, In p (keys three_pages) ->
             Qabs (rank (sweeps_from three_pages (85 # 100)
                           (initial_ranks three_pages) k) p
                   - rank (sweeps_from three_pages (85 # 100)
                             (initial_ranks three_pages) (S k)) p)
             <= tolerance)
       /\ forall fuel,
            iterate_pagerank fuel three_pages (85 # 100)
            = if (k <? fuel)%nat
              then Some (Ok (sweeps_from three_pages (85 # 100)
                               (initial_ranks three_pages) (S k)))
              else None.
Proof.
  assert (H1 : distinct (keys three_pages) = true) by reflexivity.
  assert (H2 : 0 <= 85 # 100 < 1) by (split; lra).
  repeat (split; [assumption|]).
  exact (iterate_pagerank_stops three_pages (85 # 100) H1 H2).
Defined.

(** C5 as stated fails at damping factor 1: on the corpus
    1 -> 2, 2 -> 1, 3 -> 1, which has neither self-links nor dangling
    links, every sweep moves a third of the mass between the first two
    pages, and the loop is still running whatever the fuel. *)
Lemma iterate_pagerank_runs_forever :
  distinct (keys three_pages) = true
  /\ link_sets three_pages = true
  /\ no_self_links three_pages = true
  /\ no_dangling_links three_pages = true
  /\ ~ exists fuel outcome, iterate_pagerank fuel three_pages 1 = Some outcome.
Proof.
  repeat (split; [reflexivity|]).
  intros (fuel & outcome & E).
  rewrite three_pages_runs_forever in E. discriminate.
Qed.




(** On the corpus 1 -> {1, 2}, 2 -> 1 the first sweep with damping 0.85
    leaves ranks that sum to 0.7875. *)
Example self_loop_first_sweep :
  exists c r' calc',
    sweep_step self_loop (85 # 100) (len self_loop)
      (initial_ranks self_loop) []
    = Ok (c, r', calc')
    /\ total (initial_ranks self_loop) == 1
    /\ total r' == 7875 # 10000.
Proof.
  vm_compute. do 3 eexists. split; [reflexivity|]. split; reflexivity.
Qed.

(** * Further properties *)

(** ** [crawl] *)

Lemma substring_split (s : string) :
  forall k, (k <= String.length s)%nat ->
    s = (substring 0 k s ++ substring k (String.length s - k) s)%string.
Proof.
  induction s as [|c s IH]; intros k Hk.
  - destruct k; reflexivity.
  - destruct k as [|k].
    + cbn [substring String.append String.length Nat.sub]. f_equal.
      specialize (IH O (Nat.le_0_l _)).
      rewrite Nat.sub_0_r in IH.
      assert (E : substring 0 0 s = EmptyString) by (destruct s; reflexivity).
      rewrite E in IH. exact IH.
    + cbn [substring String.append String.length Nat.sub]. f_equal.
      apply IH. cbn [String.length] in Hk. lia.
Qed.

Lemma substring_append_tail (pre suf : string) :
  substring (String.length pre) (String.length suf) (pre ++ suf)%string = suf.
Proof.
  induction pre as [|c pre IH]; cbn [String.length String.append].
  - induction suf as [|c suf IH]; [reflexivity|].
    cbn [String.length substring]. now rewrite IH.
  - cbn [substring]. exact IH.
Qed.

Lemma length_append (a b : string) :
  String.length (a ++ b)%string = (String.length a + String.length b)%nat.
Proof.
  induction a as [|c a IH]; cbn [String.append String.length]; [reflexivity|].
  now rewrite IH.
Qed.

Lemma endswith_spec (s suffix : string) :
  endswith s suffix = true <-> exists stem, s = (stem ++ suffix)%string.
Proof.
  unfold endswith. rewrite andb_true_iff, Nat.leb_le, String.eqb_eq. split.
  - intros [L E].
    exists (substring 0 (String.length s - String.length suffix) s).
    pose proof (substring_split s (String.length s - String.length suffix)
                  ltac:(lia)) as S.
    replace (String.length s - (String.length s - String.length suffix))%nat
      with (String.length suffix) in S by lia.
    now rewrite E in S.
  - intros [stem ->]. rewrite length_append. split; [lia|].
    replace (String.length stem + String.length suffix
             - String.length suffix)%nat
      with (String.length stem) by lia.
    apply substring_append_tail.
Qed.

Lemma to_set_In (l : list page) (p : page) : In p (to_set l) <-> In p l.
Proof.
  apply nodup_In.
Qed.

Lemma to_set_NoDup (l : list page) : NoDup (to_set l).
Proof.
  apply NoDup_nodup.
Qed.

Lemma set_remove_In (x : page) (s : list page) (p : page) :
  In p (set_remove x s) <-> In p s /\ p <> x.
Proof.
  unfold set_remove. rewrite filter_In, negb_true_iff, String.eqb_neq.
  reflexivity.
Qed.

Lemma keys_setitem_NoDup {V : Type} (d : dict V) (k : page) (v : V) :
  NoDup (keys d) -> NoDup (keys (setitem d k v)).
Proof.
  intros ND. destruct (in_dec string_dec k (keys d)) as [H|H].
  - now rewrite keys_setitem_in.
  - rewrite setitem_notin by assumption.
    unfold keys. rewrite map_app. cbn [map fst].
    apply NoDup_app; auto.
    + repeat constructor. intros [].
    + intros x Hx [<-|[]]. contradiction.
Qed.

Lemma fold_setitem_NoDup {V : Type} (f : page -> V) (ks : list page) :
  forall d : dict V,
    NoDup (keys d) ->
    NoDup (keys (fold_left (fun d k => setitem d k (f k)) ks d)).
Proof.
  induction ks as [|a t IH]; cbn [fold_left]; intros d ND; [assumption|].
  apply IH. now apply keys_setitem_NoDup.
Qed.

Lemma fold_setitem_keys_In {V : Type} (f : page -> V) (ks : list page)
  (k : page) :
  In k (keys (fold_left (fun d k => setitem d k (f k)) ks (@nil (page * V))))
  <-> In k ks.
Proof.
  pose proof (fold_setitem_lookup f ks [] k) as L. cbn [lookup] in L.
  split.
  - intros H. apply lookup_In in H. destruct H as [v Hv].
    rewrite Hv in L. destruct (mem k ks) eqn:M; [|discriminate].
    now apply mem_In.
  - intros H. apply mem_In in H. rewrite H in L.
    eapply lookup_Some_In. exact L.
Qed.

(** The first loop of [crawl]: one entry per [.html] file. *)
Lemma crawl_first_loop (read : string -> string)
  (findall : string -> list string) (listdir : list string) :
  forall pages : corpus_t,
    for_each listdir (crawl_file read findall) pages
    = Ok (fold_left
            (fun d k =>
               setitem d k (set_remove k (to_set (findall (read k)))))
            (filter (fun f => endswith f ".html") listdir) pages).
Proof.
  induction listdir as [|f t IH]; intros pages; [reflexivity|].
  cbn [for_each filter]. unfold crawl_file at 1.
  destruct (endswith f ".html"); cbn [negb bind fold_left]; apply IH.
Qed.

Lemma lookup_map_values {V W : Type} (g : V -> W) (d : dict V) (k : page) :
  lookup (map (fun e => (fst e, g (snd e))) d) k = option_map g (lookup d k).
Proof.
  induction d as [|[k' v] t IH]; cbn [map lookup fst snd]; [reflexivity|].
  destruct (k =? k')%string; [reflexivity | exact IH].
Qed.

(** The second loop of [crawl]: every link set is filtered in place. *)
Lemma crawl_second_loop (K : list page) :
  NoDup K ->
  forall suf pre : corpus_t,
    keys (pre ++ suf) = K ->
    for_each (keys suf) crawl_keep (pre ++ suf)
    = Ok (pre ++ map (fun e =>
                        (fst e,
                         to_set (filter (fun link => mem link K) (snd e))))
                   suf).
Proof.
  intros ND. induction suf as [|[k v] t IH]; intros pre HK.
  - reflexivity.
  - assert (ND' : NoDup (keys (pre ++ (k, v) :: t))) by now rewrite HK.
    pose proof (NoDup_keys_app_head _ _ _ _ ND') as Hk.
    cbn [keys map fst for_each]. unfold crawl_keep at 1. unfold getitem.
    rewrite lookup_app_notin by assumption.
    cbn [lookup]. rewrite String.eqb_refl. cbn [bind].
    rewrite setitem_app_notin by assumption.
    cbn [setitem]. rewrite String.eqb_refl. rewrite HK.
    set (v' := to_set (filter (fun link => mem link K) v)).
    change (pre ++ (k, v') :: t) with (pre ++ [(k, v')] ++ t).
    rewrite app_assoc. fold (keys t).
    rewrite IH.
    + now rewrite <- app_assoc.
    + rewrite <- HK. unfold keys. rewrite <- app_assoc. now rewrite !map_app.
Qed.

(** What [crawl] returns: the [.html] files of the listing, each with
    the links found in it that are other [.html] files of the listing. *)
Lemma crawl_spec (listdir : list string) (read : string -> string)
  (findall : string -> list string) :
  exists corpus,
    crawl listdir read findall = Ok corpus
    /\ NoDup (keys corpus)
    /\ (forall f, In f (keys corpus)
                  <-> In f listdir /\ endswith f ".html" = true)
    /\ (NoDup listdir ->
        keys corpus = filter (fun f => endswith f ".html") listdir)
    /\ (forall f, In f (keys corpus) ->
          NoDup (links_of corpus f)
          /\ forall p, In p (links_of corpus f)
                       <-> In p (findall (read f)) /\ p <> f
                           /\ In p (keys corpus)).
Proof.
  unfold crawl. rewrite crawl_first_loop. cbn [bind].
  set (F := fun k => set_remove k (to_set (findall (read k)))).
  set (html := filter (fun f => endswith f ".html") listdir).
  change (fold_left
            (fun (d : dict (list page)) (k : page) =>
               setitem d k (set_remove k (to_set (findall (read k)))))
            html [])
    with (fold_left (fun (d : dict (list page)) k => setitem d k (F k))
            html []).
  set (pages := fold_left (fun d k => setitem d k (F k)) html []).
  assert (ND : NoDup (keys pages)).
  { apply fold_setitem_NoDup. constructor. }
  assert (KI : forall f, In f (keys pages) <-> In f html).
  { intros f. apply fold_setitem_keys_In. }
  pose proof (crawl_second_loop (keys pages) ND pages [] eq_refl) as L.
  cbn [app] in L. rewrite L.
  eexists. split; [reflexivity|].
  assert (KE : keys (map (fun e : page * list page =>
                            (fst e,
                             to_set (filter (fun link => mem link (keys pages))
                                       (snd e)))) pages)
               = keys pages).
  { unfold keys. now rewrite map_map. }
  rewrite KE. split; [assumption|]. split; [|split].
  - intros f. rewrite KI. unfold html. now rewrite filter_In.
  - intros NDl. unfold pages. rewrite comprehension.
    + apply keys_map.
    + now apply NoDup_filter.
  - intros f Hf. unfold links_of.
    rewrite (lookup_map_values
               (fun v => to_set (filter (fun link => mem link (keys pages)) v))
               pages f).
    assert (E : lookup pages f = Some (F f)).
    { unfold pages. rewrite (fold_setitem_lookup F html [] f).
      apply KI, mem_In in Hf. now rewrite Hf. }
    rewrite E. cbn [option_map]. split; [apply to_set_NoDup|].
    intros p. rewrite to_set_In, filter_In. unfold F.
    rewrite set_remove_In, to_set_In, mem_In. tauto.
Qed.

(** X1.  Whatever the directory holds, [crawl] returns a corpus that
    keeps the invariants the estimators rely on: the pages are pairwise
    distinct, every link set is a set, no page links to itself and every
    link leads to a page of the corpus. *)
Theorem crawl_well_formed (listdir : list string) (read : string -> string)
  (findall : string -> list string) :
  exists corpus,
    crawl listdir read findall = Ok corpus
    /\ distinct (keys corpus) = true
    /\ link_sets corpus = true
    /\ no_self_links corpus = true
    /\ no_dangling_links corpus = true.
Proof.
  destruct (crawl_spec listdir read findall) as (corpus & E & ND & _ & _ & HL).
  exists corpus. split; [assumption|].
  split; [now apply distinct_NoDup|].
  unfold link_sets, no_self_links, no_dangling_links.
  rewrite !forallb_forall. repeat split.
  - intros f Hf. apply distinct_NoDup. now apply HL.
  - intros f Hf. apply negb_true_iff, mem_false. intros C.
    apply (HL f Hf) in C. tauto.
  - intros f Hf. rewrite forallb_forall. intros p Hp.
    apply mem_In. apply (HL f Hf) in Hp. tauto.
Qed.

(** X2.  The pages of the corpus that [crawl] returns are the names of
    the listing that end in [.html], in the order of the listing; the
    other names are skipped. *)
Theorem crawl_pages (listdir : list string) (read : string -> string)
  (findall : string -> list string) :
  NoDup listdir ->
  exists corpus,
    crawl listdir read findall = Ok corpus
    /\ keys corpus = filter (fun f => endswith f ".html") listdir
    /\ forall f, In f (keys corpus)
                 <-> In f listdir /\ exists stem, f = (stem ++ ".html")%string.
Proof.
  intros NDl.
  destruct (crawl_spec listdir read findall) as (corpus & E & _ & HK & HF & _).
  exists corpus. split; [assumption|]. split; [now apply HF|].
  intros f. rewrite HK, endswith_spec. reflexivity.
Qed.

Lemma crawl_pages_witness :
  NoDup ["1.html"; "notes.txt"; "2.html"]%string
  /\ exists corpus,
       crawl ["1.html"; "notes.txt"; "2.html"]%string (fun f => f)
         (fun _ => ["2.html"; "3.html"]%string)
       = Ok corpus
       /\ keys corpus
          = filter (fun f => endswith f ".html")
              ["1.html"; "notes.txt"; "2.html"]%string
       /\ forall f, In f (keys corpus)
                    <-> In f ["1.html"; "notes.txt"; "2.html"]%string
                        /\ exists stem, f = (stem ++ ".html")%string.
Proof.
  assert (H : NoDup ["1.html"; "notes.txt"; "2.html"]%string).
  { apply distinct_NoDup. reflexivity. }
  split; [assumption|].
  exact (crawl_pages ["1.html"; "notes.txt"; "2.html"]%string (fun f => f)
           (fun _ => ["2.html"; "3.html"]%string) H).
Defined.

(** X3.  In the corpus that [crawl] returns, a page [f] links to [p]
    exactly when [p] is among the links found in [f], is not [f] itself
    and is a page of the corpus. *)
Theorem crawl_links (listdir : list string) (read : string -> string)
  (findall : string -> list string) (f p : page) :
  In f listdir ->
  endswith f ".html" = true ->
  exists corpus,
    crawl listdir read findall = Ok corpus
    /\ In f (keys corpus)
    /\ (mem p (links_of corpus f) = true
        <-> In p (findall (read f)) /\ p <> f /\ In p (keys corpus)).
Proof.
  intros Hf Hh.
  destruct (crawl_spec listdir read findall) as (corpus & E & _ & HK & _ & HL).
  exists corpus. split; [assumption|].
  assert (Hin : In f (keys corpus)) by (apply HK; now split).
  split; [assumption|]. rewrite mem_In. now apply HL.
Qed.

Lemma crawl_links_witness :
  In "1.html"%string ["1.html"; "notes.txt"; "2.html"]%string
  /\ endswith "1.html" ".html" = true
  /\ exists corpus,
       crawl ["1.html"; "notes.txt"; "2.html"]%string (fun f => f)
         (fun _ => ["2.html"; "3.html"]%string)
       = Ok corpus
       /\ In "1.html"%string (keys corpus)
       /\ (mem "2.html"%string (links_of corpus "1.html"%string) = true
           <-> In "2.html"%string ["2.html"; "3.html"]%string
               /\ "2.html"%string <> "1.html"%string
               /\ In "2.html"%string (keys corpus)).
Proof.
  assert (H1 : In "1.html"%string ["1.html"; "notes.txt"; "2.html"]%string)
    by (simpl; tauto).
  assert (H2 : endswith "1.html" ".html" = true) by reflexivity.
  repeat (split; [assumption|]).
  exact (crawl_links ["1.html"; "notes.txt"; "2.html"]%string (fun f => f)
           (fun _ => ["2.html"; "3.html"]%string)
           "1.html"%string "2.html"%string H1 H2).
Defined.

(** The model of [crawl] on a small directory. *)
Example crawl_small_directory :
  crawl ["1.html"; "notes.txt"; "2.html"]%string (fun f => f)
    (fun contents =>
       if (contents =? "1.html")%string
       then ["2.html"; "1.html"; "3.html"; "2.html"]%string
       else ["1.html"]%string)
  = Ok [("1.html", ["2.html"]); ("2.html", ["1.html"])]%string.
Proof. reflexivity. Qed.

(** ** [transition_model]: failures and probabilities *)

Lemma forallb_false_witness {A : Type} (f : A -> bool) (l : list A) :
  forallb f l = false -> exists x, In x l /\ f x = false.
Proof.
  induction l as [|a t IH]; cbn [forallb]; [discriminate|].
  destruct (f a) eqn:E; cbn [andb].
  - intros H. destruct (IH H) as (x & Hx & Fx). exists x. split; [now right|].
    assumption.
  - intros _. exists a. split; [now left | assumption].
Qed.

Lemma boost_loop_dangling (x L : Q) (K : list page) (links : list page) :
  ~ L == 0 ->
  (exists l, In l links /\ ~ In l K) ->
  forall pd : dict Q,
    keys pd = K ->
    for_each links
      (fun i pd =>
         old <- getitem pd i ;;
         extra <- py_div x L ;;
         Ok (setitem pd i (old + extra)))
      pd
    = Raise KeyError.
Proof.
  intros HL.
  set (body := fun i (pd : dict Q) =>
                 old <- getitem pd i ;;
                 extra <- py_div x L ;;
                 Ok (setitem pd i (old + extra))).
  induction links as [|a t IH]; intros (l & Hl & Hn) pd HK.
  - contradiction.
  - cbn [for_each]. unfold body at 1.
    destruct (in_dec string_dec a K) as [Ha|Ha].
    + rewrite <- HK in Ha. destruct (getitem_In pd a Ha) as (v & _ & G).
      rewrite G. cbn [bind]. rewrite py_div_ok by assumption. cbn [bind].
      apply IH.
      * exists l. split; [|assumption].
        destruct Hl as [->|Hl]; [|assumption].
        rewrite HK in Ha. contradiction.
      * rewrite keys_setitem_in; assumption.
    + unfold getitem. rewrite lookup_notin by now rewrite HK. reflexivity.
Qed.

(** X4.  [transition_model] fails in one way only, with [KeyError]: when
    the page is not in the corpus, or when one of its links is not; in
    every other case it returns a distribution.  It never divides by
    zero. *)
Theorem transition_model_outcome (corpus : corpus_t) (pg : page) (d : Q) :
  distinct (keys corpus) = true ->
  if mem pg (keys corpus)
     && forallb (fun l => mem l (keys corpus)) (links_of corpus pg)
  then exists pd, transition_model corpus pg d = Ok pd
  else transition_model corpus pg d = Raise KeyError.
Proof.
  intros ND. apply distinct_NoDup in ND.
  destruct (mem pg (keys corpus)) eqn:M; cbn [andb].
  - apply mem_In in M.
    destruct (forallb _ (links_of corpus pg)) eqn:F.
    + rewrite forallb_forall in F.
      exists (transition corpus pg d). apply transition_model_ok; auto.
      intros l Hl. apply mem_In. now apply F.
    + assert (D : exists l, In l (links_of corpus pg) /\ ~ In l (keys corpus)).
      { destruct (forallb_false_witness
                    (fun l => mem l (keys corpus)) (links_of corpus pg) F)
          as (l & Hl & Hm).
        exists l. split; [assumption|]. now apply mem_false. }
      unfold transition_model.
      destruct (getitem_In corpus pg M) as (ls & E & G).
      unfold links_of in D. rewrite E in D. rewrite G. cbn [bind].
      assert (NE : ls <> []).
      { destruct D as (l & Hl & _). intros ->. contradiction. }
      pose proof (len_pos ls NE) as L.
      assert (HN : ~ len corpus == 0).
      { assert (0 < len corpus); [|lra].
        apply len_pos. intros ->. contradiction. }
      destruct (Qlt_le_dec 0 (len ls)) as [_|L']; [|lra].
      destruct (for_each_fold (fun _ => True)
                  (fun i (pd : dict Q) => setitem pd i ((1 - d) / len corpus))
                  (fun i pd => v <- py_div (1 - d) (len corpus) ;;
                               Ok (setitem pd i v))
                  (keys corpus)) with (s := @nil (page * Q)) as [E1 _]; auto.
      { intros x s _ _. now rewrite py_div_ok. }
      rewrite E1. cbn [bind]. rewrite comprehension by assumption.
      apply (boost_loop_dangling d (len ls) (keys corpus) ls); auto.
      * lra.
      * apply keys_map.
  - apply mem_false in M. unfold transition_model, getitem.
    now rewrite lookup_notin.
Qed.

Lemma transition_model_outcome_witness :
  distinct (keys [("1.html", ["9.html"])]%string) = true
  /\ if mem "1.html"%string (keys [("1.html", ["9.html"])]%string)
        && forallb (fun l => mem l (keys [("1.html", ["9.html"])]%string))
             (links_of [("1.html", ["9.html"])]%string "1.html"%string)
     then exists pd,
            transition_model [("1.html", ["9.html"])]%string "1.html"%string
              (85 # 100) = Ok pd
     else transition_model [("1.html", ["9.html"])]%string "1.html"%string
            (85 # 100) = Raise KeyError.
Proof.
  assert (H : distinct (keys [("1.html", ["9.html"])]%string) = true)
    by reflexivity.
  split; [assumption|].
  exact (transition_model_outcome [("1.html", ["9.html"])]%string
           "1.html"%string (85 # 100) H).
Defined.

Lemma values_setitem_nonneg (d : dict Q) (k : page) (v : Q) :
  Forall (fun x => 0 <= x) (values d) -> 0 <= v ->
  Forall (fun x => 0 <= x) (values (setitem d k v)).
Proof.
  intros H Hv. induction d as [|[k' v'] t IH]; cbn [setitem].
  - repeat constructor. assumption.
  - cbn [values map snd] in H. inversion H as [|? ? H1 H2]; subst.
    destruct (k =? k')%string; cbn [values map snd]; constructor; auto.
Qed.

Lemma rank_nonneg (d : dict Q) (k : page) :
  Forall (fun x => 0 <= x) (values d) -> 0 <= rank d k.
Proof.
  intros H. unfold rank. destruct (lookup d k) as [v|] eqn:E; [|lra].
  rewrite Forall_forall in H. apply H.
  clear H. induction d as [|[k' v'] t IH]; cbn [lookup] in E; [discriminate|].
  cbn [values map snd]. destruct (k =? k')%string.
  - injection E as ->. now left.
  - right. now apply IH.
Qed.

Lemma boost_nonneg (x : Q) (links : list page) :
  0 <= x ->
  forall pd,
    Forall (fun v => 0 <= v) (values pd) ->
    Forall (fun v => 0 <= v) (values (boost x links pd)).
Proof.
  intros Hx. unfold boost.
  induction links as [|a t IH]; cbn [fold_left]; intros pd H; [assumption|].
  apply IH. apply values_setitem_nonneg; [assumption|].
  pose proof (rank_nonneg pd a H) as R. unfold rank in R. lra.
Qed.

Lemma Qsum_member (l : list Q) (v : Q) :
  Forall (fun x => 0 <= x) l -> In v l -> v <= Qsum l.
Proof.
  intros H Hv.
  pose proof (sumQ_member (fun x => x) l v) as S.
  unfold sumQ in S. rewrite map_id in S. apply S; [|assumption].
  now apply Forall_forall.
Qed.

Lemma transition_nonneg (corpus : corpus_t) (pg : page) (d : Q) :
  0 <= d <= 1 ->
  Forall (fun v => 0 <= v) (values (transition corpus pg d)).
Proof.
  intros [Hd0 Hd1]. unfold transition.
  assert (C : forall c, 0 <= c ->
              Forall (fun v => 0 <= v)
                (values (map (fun p : page => (p, c)) (keys corpus)))).
  { intros c Hc. apply Forall_forall. intros v Hv.
    unfold values in Hv. rewrite map_map in Hv. cbn [snd] in Hv.
    apply in_map_iff in Hv. destruct Hv as (_ & <- & _). assumption. }
  assert (I : forall {A} (l : list A), 0 <= / len l).
  { intros A l. apply Qinv_le_0_compat, len_nonneg. }
  destruct (Qlt_le_dec 0 _).
  - apply boost_nonneg.
    + unfold Qdiv. apply Qmult_le_0_compat; [assumption | apply I].
    + apply C. unfold Qdiv. apply Qmult_le_0_compat; [lra | apply I].
  - apply C. unfold Qdiv. apply Qmult_le_0_compat; [lra | apply I].
Qed.

(** X5.  For a damping factor in [0,1] the values that
    [transition_model] returns are probabilities: each lies between 0
    and 1. *)
Theorem transition_model_probabilities (corpus : corpus_t) (pg : page)
  (d : Q) :
  distinct (keys corpus) = true ->
  no_dangling_links corpus = true ->
  In pg (keys corpus) ->
  0 <= d <= 1 ->
  exists pd,
    transition_model corpus pg d = Ok pd
    /\ forall p v, lookup pd p = Some v -> 0 <= v <= 1.
Proof.
  intros ND CL Hpg Hd. apply distinct_NoDup in ND.
  pose proof (no_dangling_incl corpus pg CL Hpg) as Hcl.
  exists (transition corpus pg d).
  split; [now apply transition_model_ok|].
  intros p v Hv.
  pose proof (transition_nonneg corpus pg d Hd) as N.
  assert (Hin : In v (values (transition corpus pg d))).
  { clear - Hv. induction (transition corpus pg d) as [|[k' v'] t IH];
      cbn [lookup] in Hv; [discriminate|].
    cbn [values map snd]. destruct (p =? k')%string.
    - injection Hv as ->. now left.
    - right. now apply IH. }
  split.
  - rewrite Forall_forall in N. now apply N.
  - rewrite <- (transition_total corpus pg d).
    + now apply Qsum_member.
    + intros ->. contradiction.
    + assumption.
Qed.

Lemma transition_model_probabilities_witness :
  distinct (keys self_loop) = true
  /\ no_dangling_links self_loop = true
  /\ In "1.html"%string (keys self_loop)
  /\ 0 <= 85 # 100 <= 1
  /\ exists pd,
       transition_model self_loop "1.html"%string (85 # 100) = Ok pd
       /\ forall p v, lookup pd p = Some v -> 0 <= v <= 1.
Proof.
  assert (H1 : distinct (keys self_loop) = true) by reflexivity.
  assert (H2 : no_dangling_links self_loop = true) by reflexivity.
  assert (H3 : In "1.html"%string (keys self_loop)) by (simpl; tauto).
  assert (H4 : 0 <= 85 # 100 <= 1) by (split; lra).
  repeat (split; [assumption|]).
  exact (transition_model_probabilities self_loop "1.html"%string (85 # 100)
           H1 H2 H3 H4).
Defined.

(** ** [sample_pagerank]: the range of the estimates *)

Lemma visits_bound (draws : nat -> Q) (corpus : corpus_t) (d : Q) (m : nat)
  (p : page) :
  (visits draws corpus d m p <= m)%nat.
Proof.
  induction m as [|m IH].
  - apply Nat.le_refl.
  - rewrite visits_succ.
    destruct (p =? drawn draws corpus d m)%string; lia.
Qed.

(** X6.  For a non-empty corpus and [n >= 1] every estimate that
    [sample_pagerank] returns lies between 0 and [(n - 1) / n]: no page
    gets rank 1. *)
Theorem sample_pagerank_range (draws : nat -> Q) (corpus : corpus_t) (d : Q)
  (n : Z) :
  distinct (keys corpus) = true ->
  no_dangling_links corpus = true ->
  corpus <> [] ->
  (forall i, 0 <= draws i < 1) ->
  (1 <= n)%Z ->
  exists r,
    sample_pagerank draws corpus d n = Ok r
    /\ forall p v, lookup r p = Some v ->
         0 <= v <= (inject_Z n - 1) / inject_Z n.
Proof.
  intros ND CL NE HU Hn. apply distinct_NoDup in ND.
  destruct (sample_pagerank_spec draws corpus d n ND NE (fun _ => CL) (HU O))
    as (counters & E & _ & _ & HV & _); [lia|].
  eexists. split; [exact E|]. intros p v Hv.
  pose proof (rank_divide (inject_Z n) counters p) as R.
  unfold rank at 1 in R. rewrite Hv in R. rewrite R, HV.
  pose proof (visits_bound draws corpus d (Z.to_nat (n - 1)) p) as B.
  set (c := visits draws corpus d (Z.to_nat (n - 1)) p) in *.
  assert (N : 0 < inject_Z n).
  { change 0 with (inject_Z 0). rewrite <- Zlt_Qlt. lia. }
  assert (C0 : 0 <= inject_Z (Z.of_nat c)).
  { change 0 with (inject_Z 0). rewrite <- Zle_Qle. lia. }
  assert (C1 : inject_Z (Z.of_nat c) <= inject_Z n - 1).
  { change 1 with (inject_Z 1). unfold Qminus.
    rewrite <- inject_Z_opp, <- inject_Z_plus, <- Zle_Qle. lia. }
  split.
  - apply Qle_shift_div_l; [assumption | lra].
  - unfold Qdiv. apply Qmult_le_compat_r; [assumption|].
    apply Qinv_le_0_compat. lra.
Qed.

Lemma sample_pagerank_range_witness :
  distinct (keys sink_corpus) = true
  /\ no_dangling_links sink_corpus = true
  /\ sink_corpus <> []
  /\ (forall i : nat, 0 <= 3 # 4 < 1)
  /\ (1 <= 7)%Z
  /\ exists r,
       sample_pagerank (fun _ => 3 # 4) sink_corpus (85 # 100) 7 = Ok r
       /\ forall p v, lookup r p = Some v ->
            0 <= v <= (inject_Z 7 - 1) / inject_Z 7.
Proof.
  assert (H1 : distinct (keys sink_corpus) = true) by reflexivity.
  assert (H2 : no_dangling_links sink_corpus = true) by reflexivity.
  assert (H3 : sink_corpus <> []) by discriminate.
  assert (H4 : forall i : nat, 0 <= 3 # 4 < 1) by (intros _; split; lra).
  assert (H5 : (1 <= 7)%Z) by lia.
  repeat (split; [assumption|]).
  exact (sample_pagerank_range (fun _ => 3 # 4) sink_corpus (85 # 100) 7
           H1 H2 H3 H4 H5).
Defined.

(** ** [iterate_pagerank]: failures, bounds and fixed points *)

(** X7.  [iterate_pagerank] never raises, whatever the corpus (links to
    pages outside the corpus and self-links included), the damping
    factor and the number of sweeps it is given: it has returned a
    mapping or is still running. *)
Theorem iterate_pagerank_never_raises (corpus : corpus_t) (d : Q)
  (fuel : nat) (e : exn) :
  distinct (keys corpus) = true ->
  iterate_pagerank fuel corpus d <> Some (Raise e).
Proof.
  intros ND E. apply distinct_NoDup in ND.
  rewrite iterate_pagerank_unfold in E by assumption.
  pose proof (while_loop_spec corpus d ND fuel (initial_ranks corpus) []
                (keys_initial_ranks corpus)) as W.
  rewrite E in W. exact W.
Qed.

Lemma iterate_pagerank_never_raises_witness :
  distinct (keys [("1.html", ["1.html"; "9.html"]); ("2.html", [])]%string)
  = true
  /\ iterate_pagerank 50
       [("1.html", ["1.html"; "9.html"]); ("2.html", [])]%string (3 # 2)
     <> Some (Raise ZeroDivisionError).
Proof.
  assert (H : distinct
                (keys [("1.html", ["1.html"; "9.html"]); ("2.html", [])]%string)
              = true) by reflexivity.
  split; [assumption|].
  exact (iterate_pagerank_never_raises
           [("1.html", ["1.html"; "9.html"]); ("2.html", [])]%string (3 # 2)
           50 ZeroDivisionError H).
Defined.

Lemma sweep_total_le (corpus : corpus_t) (d : Q) (r : dict Q) :
  NoDup (keys corpus) -> corpus <> [] -> keys r = keys corpus ->
  0 <= d -> nonneg_ranks r ->
  total (sweep corpus d r) <= (1 - d) + d * total r.
Proof.
  intros ND NE HK Hd Hr. rewrite sweep_total by assumption.
  rewrite (total_sumQ r) by now rewrite HK. rewrite HK.
  assert (L : sumQ (fun q => sumQ (fun p => weight corpus p q) (keys corpus)
                             * rank r q) (keys corpus)
              <= sumQ (rank r) (keys corpus)).
  { apply sumQ_le. intros q Hq.
    pose proof (column_le_one corpus q ND Hq). pose proof (Hr q).
    set (c := sumQ _ _) in *. nra. }
  set (a := sumQ _ _) in *. set (b := sumQ (rank r) _) in *. nra.
Qed.

Lemma sweeps_total_le (corpus : corpus_t) (d : Q) (k : nat) :
  NoDup (keys corpus) -> 0 <= d <= 1 ->
  total (sweeps_from corpus d (initial_ranks corpus) k) <= 1.
Proof.
  intros ND Hd. destruct corpus as [|e t] eqn:Ec.
  - assert (E : sweeps_from [] d (initial_ranks []) k = []).
    { induction k as [|k IH]; [reflexivity|].
      change (sweeps_from [] d (initial_ranks []) (S k))
        with (sweep [] d (sweeps_from [] d (initial_ranks []) k)).
      now rewrite IH. }
    rewrite E. cbn. lra.
  - rewrite <- Ec in *. assert (NE : corpus <> []) by (rewrite Ec; discriminate).
    clear Ec. induction k as [|k IH].
    + change (sweeps_from corpus d (initial_ranks corpus) 0)
        with (initial_ranks corpus).
      rewrite initial_total by assumption. lra.
    + change (sweeps_from corpus d (initial_ranks corpus) (S k))
        with (sweep corpus d (sweeps_from corpus d (initial_ranks corpus) k)).
      pose proof (sweep_total_le corpus d
                    (sweeps_from corpus d (initial_ranks corpus) k) ND NE) as L.
      rewrite keys_sweeps_from, keys_initial_ranks in L.
      specialize (L eq_refl (proj1 Hd) (sweeps_nonneg corpus d k Hd)).
      set (s := total (sweeps_from corpus d (initial_ranks corpus) k)) in *.
      nra.
Qed.

Lemma values_rank (r : dict Q) (p : page) (v : Q) :
  lookup r p = Some v -> rank r p = v /\ In p (keys r).
Proof.
  intros H. unfold rank. rewrite H. split; [reflexivity|].
  eapply lookup_Some_In; eassumption.
Qed.

(** X8.  In exact arithmetic, for a damping factor in [0,1] and any
    corpus, the ranks that [iterate_pagerank] returns are values between
    0 and 1, and their sum is at most 1.  (The second part records that
    the statement is not empty: in exact arithmetic a mapping is
    returned when the damping factor is below 1.) *)
Theorem iterate_pagerank_range (corpus : corpus_t) (d : Q) :
  distinct (keys corpus) = true ->
  0 <= d <= 1 ->
  (forall fuel r,
     iterate_pagerank fuel corpus d = Some (Ok r) ->
     total r <= 1 /\ forall p v, lookup r p = Some v -> 0 <= v <= 1)
  /\ (d < 1 -> exists fuel r, iterate_pagerank fuel corpus d = Some (Ok r)).
Proof.
  intros ND Hd. apply distinct_NoDup in ND. split.
  - intros fuel r E.
    destruct (iterate_pagerank_returns corpus d fuel r ND E) as (k & _ & _ & ->).
    set (r := sweeps_from corpus d (initial_ranks corpus) (S k)).
    pose proof (sweeps_total_le corpus d (S k) ND Hd) as T. fold r in T.
    pose proof (sweeps_nonneg corpus d (S k) Hd) as N. fold r in N.
    split; [assumption|]. intros p v Hv.
    destruct (values_rank r p v Hv) as [<- Hp].
    split; [apply N|].
    apply Qle_trans with (total r); [|assumption].
    assert (NDr : NoDup (keys r)).
    { unfold r. now rewrite keys_sweeps_from, keys_initial_ranks. }
    rewrite (total_sumQ r NDr).
    apply (sumQ_member (rank r)); [|assumption]. intros x _. apply N.
  - intros Hd1.
    destruct (iterate_pagerank_terminates corpus d ND) as (k & St); [lra|].
    exists (S k), (sweeps_from corpus d (initial_ranks corpus) (S k)).
    now apply iterate_pagerank_enough.
Qed.

Lemma iterate_pagerank_range_witness :
  distinct (keys self_loop) = true
  /\ 0 <= 85 # 100 <= 1
  /\ (forall fuel r,
        iterate_pagerank fuel self_loop (85 # 100) = Some (Ok r) ->
        total r <= 1 /\ forall p v, lookup r p = Some v -> 0 <= v <= 1)
  /\ (85 # 100 < 1 ->
      exists fuel r, iterate_pagerank fuel self_loop (85 # 100) = Some (Ok r)).
Proof.
  assert (H1 : distinct (keys self_loop) = true) by reflexivity.
  assert (H2 : 0 <= 85 # 100 <= 1) by (split; lra).
  repeat (split; [assumption|]).
  exact (iterate_pagerank_range self_loop (85 # 100) H1 H2).
Defined.

(** A sequence that shrinks by the factor [d] is below [eps] from the
    index [2 / (eps * (1 - d))] on, when it starts at 2 at most. *)
Lemma linear_decay (a : nat -> Q) (d eps : Q) (k : nat) :
  0 <= d < 1 -> 0 < eps ->
  (forall j, 0 <= a j) ->
  (forall j, a (S j) <= d * a j) ->
  a O <= 2 ->
  2 / (eps * (1 - d)) <= inject_Z (Z.of_nat k) ->
  a k <= eps.
Proof.
  intros [Hd0 Hd1] He Ha Hstep H0 Hk.
  set (t := 1 - d) in *.
  assert (Ht : 0 < t) by (unfold t; lra).
  assert (B : forall j, (1 + inject_Z (Z.of_nat j) * t) * a j <= a O).
  { induction j as [|j IH].
    - change (inject_Z (Z.of_nat 0)) with 0. lra.
    - rewrite Nat2Z.inj_succ, <- Z.add_1_r, inject_Z_plus.
      change (inject_Z 1) with 1.
      set (J := inject_Z (Z.of_nat j)) in *.
      assert (HJ : 0 <= J).
      { unfold J. change 0 with (inject_Z 0). rewrite <- Zle_Qle. lia. }
      pose proof (Ha j) as A0. pose proof (Hstep j) as A1.
      set (u := a (S j)) in *. set (v := a j) in *.
      assert (P1 : (1 + (J + 1) * t) * u <= (1 + (J + 1) * t) * (d * v)).
      { apply Qmult_le_l_weak; [nra | assumption]. }
      assert (E : (1 + J * t) * v - (1 + (J + 1) * t) * (d * v)
                  == ((J + 1) * (t * t)) * v) by (unfold t; ring).
      assert (0 <= ((J + 1) * (t * t)) * v); [|lra].
      apply Qmult_le_0_compat; [|assumption].
      apply Qmult_le_0_compat; [lra | nra]. }
  specialize (B k).
  set (K := inject_Z (Z.of_nat k)) in *. set (v := a k) in *.
  assert (X : 2 <= K * (eps * t)).
  { assert (P : 0 < eps * t) by now apply Qmult_lt_0_compat.
    setoid_replace 2 with (2 / (eps * t) * (eps * t)) at 1 by (field; lra).
    apply Qmult_le_compat_r; [assumption | lra]. }
  assert (V : (1 + K * t) * v <= (1 + K * t) * eps) by nra.
  apply Qmult_le_l in V; [assumption | nra].
Qed.

Lemma distance_le_totals (ks : list page) (r r' : dict Q) :
  nonneg_ranks r -> nonneg_ranks r' ->
  distance ks r r' <= sumQ (rank r) ks + sumQ (rank r') ks.
Proof.
  intros N N'. unfold distance. rewrite <- sumQ_plus.
  apply sumQ_le. intros p _.
  pose proof (N p). pose proof (N' p).
  apply Qabs_case; intros; lra.
Qed.

Lemma first_step_le_two (corpus : corpus_t) (d : Q) :
  NoDup (keys corpus) -> 0 <= d <= 1 ->
  distance (keys corpus) (sweeps_from corpus d (initial_ranks corpus) 0)
    (sweeps_from corpus d (initial_ranks corpus) 1)
  <= 2.
Proof.
  intros ND Hd.
  eapply Qle_trans.
  { apply distance_le_totals; apply sweeps_nonneg; assumption. }
  pose proof (sweeps_total_le corpus d 0 ND Hd) as T0.
  pose proof (sweeps_total_le corpus d 1 ND Hd) as T1.
  rewrite total_sumQ in T0, T1
    by (rewrite keys_sweeps_from, keys_initial_ranks; assumption).
  rewrite keys_sweeps_from, keys_initial_ranks in T0, T1. lra.
Qed.

Lemma sweeps_step_shrinks (corpus : corpus_t) (d : Q) (k : nat) :
  NoDup (keys corpus) -> 0 <= d ->
  distance (keys corpus) (sweeps_from corpus d (initial_ranks corpus) (S k))
    (sweeps_from corpus d (initial_ranks corpus) (S (S k)))
  <= d * distance (keys corpus)
           (sweeps_from corpus d (initial_ranks corpus) k)
           (sweeps_from corpus d (initial_ranks corpus) (S k)).
Proof.
  intros ND Hd.
  change (sweeps_from corpus d (initial_ranks corpus) (S (S k)))
    with (sweep corpus d (sweeps_from corpus d (initial_ranks corpus) (S k))).
  change (sweeps_from corpus d (initial_ranks corpus) (S k))
    with (sweep corpus d (sweeps_from corpus d (initial_ranks corpus) k)) at 1.
  apply sweep_contracts; auto;
    now rewrite keys_sweeps_from, keys_initial_ranks.
Qed.

Lemma iterate_pagerank_within_bound (corpus : corpus_t) (d : Q) (fuel : nat) :
  NoDup (keys corpus) ->
  0 <= d < 1 ->
  (sweep_bound d < fuel)%nat ->
  exists k,
    (k <= sweep_bound d)%nat
    /\ stops_at corpus d (initial_ranks corpus) k
    /\ iterate_pagerank fuel corpus d
       = Some (Ok (sweeps_from corpus d (initial_ranks corpus) (S k))).
Proof.
  intros ND Hd Hf.
  assert (C : changed
                (sweeps_from corpus d (initial_ranks corpus) (sweep_bound d))
                (sweeps_from corpus d (initial_ranks corpus)
                   (S (sweep_bound d)))
              = false).
  { apply small_distance_stops with (ks := keys corpus).
    - now rewrite keys_sweeps_from, keys_initial_ranks.
    - apply (linear_decay
               (fun k => distance (keys corpus)
                           (sweeps_from corpus d (initial_ranks corpus) k)
                           (sweeps_from corpus d (initial_ranks corpus) (S k)))
               d tolerance (sweep_bound d) Hd).
      + reflexivity.
      + intros j. unfold distance. apply sumQ_nonneg. intros. apply Qabs_nonneg.
      + intros j. apply sweeps_step_shrinks; tauto.
      + apply first_step_le_two; [assumption | lra].
      + unfold sweep_bound. rewrite Z2Nat.id.
        * apply Qle_ceiling.
        * change 0%Z with (Qceiling 0). apply Qceiling_resp_le.
          apply Qle_shift_div_l; [|lra].
          apply Qmult_lt_0_compat; [reflexivity | lra]. }
  pose proof (while_loop_spec corpus d ND (S (sweep_bound d))
                (initial_ranks corpus) [] (keys_initial_ranks corpus)) as W.
  destruct (while_loop (S (sweep_bound d)) corpus d (len corpus)
              (initial_ranks corpus) []) as [[r'|e]|].
  - destruct W as (k & Hk & St & _).
    exists k. split; [lia|]. split; [assumption|].
    rewrite (iterate_pagerank_result corpus d k fuel ND St).
    assert (E : (k <? fuel)%nat = true) by (apply Nat.ltb_lt; lia).
    now rewrite E.
  - contradiction.
  - specialize (W (sweep_bound d) (Nat.lt_succ_diag_r _)). congruence.
Qed.

(** X9.  In exact arithmetic, for a damping factor [d] in [0,1) and any
    corpus, the loop of [iterate_pagerank] stops within
    [2 / (0.001 * (1 - d))] sweeps, rounded up, plus one: with that much
    fuel it returns.  For the damping factor 0.85 of the program the
    bound is 13334.  The bound is one on the loop run with exact
    numbers; it is not claimed of the loop run with binary64 numbers,
    which need not stop at all for a damping factor just below 1. *)
Theorem iterate_pagerank_sweep_bound (corpus : corpus_t) (d : Q)
  (fuel : nat) :
  distinct (keys corpus) = true ->
  0 <= d < 1 ->
  (sweep_bound d < fuel)%nat ->
  Z.of_nat (sweep_bound DAMPING) = 13334%Z
  /\ exists k r,
       (k <= sweep_bound d)%nat
       /\ stops_at corpus d (initial_ranks corpus) k
       /\ iterate_pagerank fuel corpus d = Some (Ok r).
Proof.
  intros ND Hd Hf. apply distinct_NoDup in ND.
  split.
  { unfold sweep_bound. rewrite Z2Nat.id; vm_compute; congruence. }
  destruct (iterate_pagerank_within_bound corpus d fuel ND Hd Hf)
    as (k & Hk & St & E).
  exists k, (sweeps_from corpus d (initial_ranks corpus) (S k)).
  split; [assumption|]. split; assumption.
Qed.

Lemma iterate_pagerank_sweep_bound_witness :
  distinct (keys three_pages) = true
  /\ 0 <= DAMPING < 1
  /\ (sweep_bound DAMPING < S (sweep_bound DAMPING))%nat
  /\ Z.of_nat (sweep_bound DAMPING) = 13334%Z
  /\ exists k r,
       (k <= sweep_bound DAMPING)%nat
       /\ stops_at three_pages DAMPING (initial_ranks three_pages) k
       /\ iterate_pagerank (S (sweep_bound DAMPING)) three_pages DAMPING
          = Some (Ok r).
Proof.
  assert (H1 : distinct (keys three_pages) = true) by reflexivity.
  assert (H2 : 0 <= DAMPING < 1) by (unfold DAMPING; split; lra).
  assert (H3 : (sweep_bound DAMPING < S (sweep_bound DAMPING))%nat)
    by apply Nat.lt_succ_diag_r.
  repeat (split; [assumption|]).
  exact (iterate_pagerank_sweep_bound three_pages DAMPING
           (S (sweep_bound DAMPING)) H1 H2 H3).
Defined.

(** X10.  A round of the loop body is a contraction: run from two rank
    mappings over the pages of the corpus, it leaves ranks whose
    distance (the sum over the pages of the absolute differences) is at
    most [d] times the distance of the mappings it started from,
    whatever the corpus. *)
Theorem sweep_is_contraction (corpus : corpus_t) (d : Q)
  (r r' calc calc' : dict Q) :
  distinct (keys corpus) = true ->
  keys r = keys corpus ->
  keys r' = keys corpus ->
  0 <= d ->
  exists c s cc c' s' cc',
    sweep_step corpus d (len corpus) r calc = Ok (c, s, cc)
    /\ sweep_step corpus d (len corpus) r' calc' = Ok (c', s', cc')
    /\ distance (keys corpus) s s' <= d * distance (keys corpus) r r'.
Proof.
  intros ND HK HK' Hd. apply distinct_NoDup in ND.
  destruct (sweep_step_ranks corpus d r calc ND HK)
    as (c & s & cc & E & _ & ->).
  destruct (sweep_step_ranks corpus d r' calc' ND HK')
    as (c' & s' & cc' & E' & _ & ->).
  exists c, (sweep corpus d r), cc, c', (sweep corpus d r'), cc'.
  split; [assumption|]. split; [assumption|].
  now apply sweep_contracts.
Qed.

Lemma sweep_is_contraction_witness :
  distinct (keys three_pages) = true
  /\ keys (initial_ranks three_pages) = keys three_pages
  /\ keys (sweep three_pages 1 (initial_ranks three_pages)) = keys three_pages
  /\ 0 <= 1
  /\ exists c s cc c' s' cc',
       sweep_step three_pages 1 (len three_pages) (initial_ranks three_pages) []
       = Ok (c, s, cc)
       /\ sweep_step three_pages 1 (len three_pages)
            (sweep three_pages 1 (initial_ranks three_pages)) []
          = Ok (c', s', cc')
       /\ distance (keys three_pages) s s'
          <= 1 * distance (keys three_pages) (initial_ranks three_pages)
                 (sweep three_pages 1 (initial_ranks three_pages)).
Proof.
  assert (H1 : distinct (keys three_pages) = true) by reflexivity.
  assert (H2 : keys (initial_ranks three_pages) = keys three_pages)
    by reflexivity.
  assert (H3 : keys (sweep three_pages 1 (initial_ranks three_pages))
               = keys three_pages) by reflexivity.
  assert (H4 : 0 <= 1) by lra.
  repeat (split; [assumption|]).
  exact (sweep_is_contraction three_pages 1 (initial_ranks three_pages)
           (sweep three_pages 1 (initial_ranks three_pages)) [] []
           H1 H2 H3 H4).
Defined.

(** X11.  With damping factor 0 the loop stops after its first sweep,
    whatever the links: [iterate_pagerank] returns the uniform ranks
    [1 / N]. *)
Theorem iterate_pagerank_no_damping (corpus : corpus_t) (fuel : nat) :
  distinct (keys corpus) = true ->
  exists r,
    iterate_pagerank (S fuel) corpus 0 = Some (Ok r)
    /\ keys r = keys corpus
    /\ forall p, In p (keys corpus) -> rank r p == 1 / len corpus.
Proof.
  intros ND. apply distinct_NoDup in ND.
  assert (R : forall p, In p (keys corpus) ->
                rank (sweep corpus 0 (initial_ranks corpus)) p
                == 1 / len corpus).
  { intros p Hp. rewrite rank_sweep by now rewrite keys_initial_ranks.
    unfold new_rank. unfold Qdiv. ring. }
  assert (St : stops_at corpus 0 (initial_ranks corpus) 0).
  { split; [intros j Hj; lia|].
    change (sweeps_from corpus 0 (initial_ranks corpus) 1)
      with (sweep corpus 0 (initial_ranks corpus)).
    change (sweeps_from corpus 0 (initial_ranks corpus) 0)
      with (initial_ranks corpus).
    apply changed_false. intros p Hp. rewrite keys_initial_ranks in Hp.
    rewrite (R p Hp).
    unfold initial_ranks. rewrite rank_map_cases.
    apply mem_In in Hp. rewrite Hp.
    setoid_replace (1 / len corpus - 1 / len corpus) with 0 by ring.
    cbn. discriminate. }
  exists (sweep corpus 0 (initial_ranks corpus)).
  split; [|split].
  - rewrite (iterate_pagerank_result corpus 0 O (S fuel) ND St). reflexivity.
  - now rewrite keys_sweep, keys_initial_ranks.
  - exact R.
Qed.

Lemma iterate_pagerank_no_damping_witness :
  distinct (keys three_pages) = true
  /\ exists r,
       iterate_pagerank 1 three_pages 0 = Some (Ok r)
       /\ keys r = keys three_pages
       /\ forall p, In p (keys three_pages) -> rank r p == 1 / len three_pages.
Proof.
  assert (H1 : distinct (keys three_pages) = true) by reflexivity.
  split; [assumption|].
  exact (iterate_pagerank_no_damping three_pages O H1).
Defined.

Lemma Qabs_zero (x : Q) : Qabs x <= 0 -> x == 0.
Proof.
  apply Qabs_case; intros; lra.
Qed.

Lemma distance_zero (ks : list page) (r r' : dict Q) :
  distance ks r r' <= 0 -> forall p, In p ks -> rank r p == rank r' p.
Proof.
  intros H p Hp.
  assert (M : Qabs (rank r' p - rank r p) <= distance ks r r').
  { unfold distance.
    apply (sumQ_member (fun p => Qabs (rank r' p - rank r p)));
      [|assumption].
    intros. apply Qabs_nonneg. }
  assert (Z : rank r' p - rank r p == 0) by (apply Qabs_zero; lra).
  lra.
Qed.

(** X12.  For a damping factor in [0,1) the recurrence has at most one
    fixed point over the pages of a corpus: two rank mappings that a
    sweep leaves unchanged give every page the same rank. *)
Theorem fixed_point_unique (corpus : corpus_t) (d : Q) (r r' : dict Q) :
  distinct (keys corpus) = true ->
  keys r = keys corpus ->
  keys r' = keys corpus ->
  0 <= d < 1 ->
  fixed_point corpus d r ->
  fixed_point corpus d r' ->
  forall p, In p (keys corpus) -> rank r p == rank r' p.
Proof.
  intros ND HK HK' [Hd0 Hd1] F F'. apply distinct_NoDup in ND.
  apply distance_zero.
  pose proof (sweep_contracts corpus d r r' ND HK HK' Hd0) as C.
  assert (E : distance (keys corpus) (sweep corpus d r) (sweep corpus d r')
              == distance (keys corpus) r r').
  { unfold distance. apply sumQ_ext. intros p Hp.
    now rewrite (F p Hp), (F' p Hp). }
  rewrite E in C.
  assert (0 <= distance (keys corpus) r r').
  { unfold distance. apply sumQ_nonneg. intros. apply Qabs_nonneg. }
  set (x := distance (keys corpus) r r') in *. nra.
Qed.

Lemma fixed_point_unique_witness :
  distinct (keys two_cycle) = true
  /\ keys (initial_ranks two_cycle) = keys two_cycle
  /\ keys [("1.html"%string, 2 # 4); ("2.html"%string, 3 # 6)] = keys two_cycle
  /\ 0 <= 85 # 100 < 1
  /\ fixed_point two_cycle (85 # 100) (initial_ranks two_cycle)
  /\ fixed_point two_cycle (85 # 100)
       [("1.html"%string, 2 # 4); ("2.html"%string, 3 # 6)]
  /\ forall p, In p (keys two_cycle) ->
       rank (initial_ranks two_cycle) p
       == rank [("1.html"%string, 2 # 4); ("2.html"%string, 3 # 6)] p.
Proof.
  assert (H1 : distinct (keys two_cycle) = true) by reflexivity.
  assert (H2 : keys (initial_ranks two_cycle) = keys two_cycle) by reflexivity.
  assert (H3 : keys [("1.html"%string, 2 # 4); ("2.html"%string, 3 # 6)]
               = keys two_cycle) by reflexivity.
  assert (H4 : 0 <= 85 # 100 < 1) by (split; lra).
  assert (H5 : fixed_point two_cycle (85 # 100) (initial_ranks two_cycle)).
  { intros p [<-|[<-|[]]]; vm_compute; reflexivity. }
  assert (H6 : fixed_point two_cycle (85 # 100)
                 [("1.html"%string, 2 # 4); ("2.html"%string, 3 # 6)]).
  { intros p [<-|[<-|[]]]; vm_compute; reflexivity. }
  repeat (split; [assumption|]).
  exact (fixed_point_unique two_cycle (85 # 100) (initial_ranks two_cycle)
           [("1.html"%string, 2 # 4); ("2.html"%string, 3 # 6)]
           H1 H2 H3 H4 H5 H6).
Defined.

(** X13.  In exact arithmetic, the ranks that [iterate_pagerank]
    returns are nearly a fixed point: one more sweep would change them,
    summed over the pages, by at most [d * N * 0.001].  (The second part
    records that the statement is not empty: in exact arithmetic a
    mapping is returned when the damping factor is below 1.) *)
Theorem iterate_pagerank_residual (corpus : corpus_t) (d : Q) :
  distinct (keys corpus) = true ->
  0 <= d <= 1 ->
  (forall fuel r,
     iterate_pagerank fuel corpus d = Some (Ok r) ->
     distance (keys corpus) r (sweep corpus d r)
     <= d * (len corpus * tolerance))
  /\ (d < 1 -> exists fuel r, iterate_pagerank fuel corpus d = Some (Ok r)).
Proof.
  intros ND [Hd0 Hd1]. apply distinct_NoDup in ND. split.
  - intros fuel r E.
    destruct (iterate_pagerank_returns corpus d fuel r ND E)
      as (k & _ & [_ St] & ->).
    eapply Qle_trans; [apply (sweeps_step_shrinks corpus d k ND Hd0)|].
    apply Qmult_le_l_weak; [assumption|].
    rewrite <- len_keys, <- sumQ_const.
    unfold distance. apply sumQ_le. intros p Hp.
    rewrite changed_false in St. rewrite Qabs_Qminus. apply St.
    now rewrite keys_sweeps_from, keys_initial_ranks.
  - intros Hd.
    destruct (iterate_pagerank_terminates corpus d ND) as (k & St); [lra|].
    exists (S k), (sweeps_from corpus d (initial_ranks corpus) (S k)).
    now apply iterate_pagerank_enough.
Qed.

Lemma iterate_pagerank_residual_witness :
  distinct (keys sink_corpus) = true
  /\ 0 <= 85 # 100 <= 1
  /\ (forall fuel r,
        iterate_pagerank fuel sink_corpus (85 # 100) = Some (Ok r) ->
        distance (keys sink_corpus) r (sweep sink_corpus (85 # 100) r)
        <= (85 # 100) * (len sink_corpus * tolerance))
  /\ (85 # 100 < 1 ->
      exists fuel r, iterate_pagerank fuel sink_corpus (85 # 100) = Some (Ok r)).
Proof.
  assert (H1 : distinct (keys sink_corpus) = true) by reflexivity.
  assert (H2 : 0 <= 85 # 100 <= 1) by (split; lra).
  repeat (split; [assumption|]).
  exact (iterate_pagerank_residual sink_corpus (85 # 100) H1 H2).
Defined.

Lemma incoming_count_dangling (ks ls : list page) (q l : page) :
  NoDup ks -> In l ls -> ~ In l ks ->
  (List.length (filter (fun p => negb (p =? q)%string && mem p ls) ks)
   < List.length ls)%nat.
Proof.
  intros ND Hl Hn.
  apply Nat.le_lt_trans with (List.length (remove string_dec l ls)).
  - apply NoDup_incl_length; [now apply NoDup_filter|].
    intros x Hx. apply filter_In in Hx. destruct Hx as [Hk Hx].
    apply andb_true_iff in Hx. destruct Hx as [_ M].
    apply in_in_remove; [|now apply mem_In].
    intros ->. contradiction.
  - now apply remove_length_lt.
Qed.

Lemma column_dangling (corpus : corpus_t) (q l : page) :
  NoDup (keys corpus) ->
  In l (links_of corpus q) -> ~ In l (keys corpus) ->
  sumQ (fun p => weight corpus p q) (keys corpus) < 1.
Proof.
  intros ND Hl Hn. rewrite column_split.
  pose proof (incoming_count_dangling (keys corpus) _ q l ND Hl Hn) as HC.
  destruct (links_of corpus q) as [|x ls] eqn:E; [contradiction|].
  cbn [is_nil].
  pose proof (len_pos (x :: ls) ltac:(discriminate)) as HL.
  assert (C : len (filter (fun p => negb (p =? q)%string && mem p (x :: ls))
                     (keys corpus)) < len (x :: ls)).
  { unfold len. rewrite <- Zlt_Qlt. lia. }
  set (cnt := len (filter _ _)) in *. set (m := len (x :: ls)) in *.
  assert (D : cnt / m < 1) by (apply Qlt_shift_div_r; lra).
  assert (cnt * (1 / m) == cnt / m) as -> by (field; lra).
  lra.
Qed.

Lemma leak_loses_mass (corpus : corpus_t) (d : Q) (r : dict Q) (q : page) :
  NoDup (keys corpus) -> keys r = keys corpus ->
  In q (keys corpus) ->
  sumQ (fun p => weight corpus p q) (keys corpus) < 1 ->
  0 < d -> nonneg_ranks r -> 0 < rank r q ->
  total (sweep corpus d r) < (1 - d) + d * total r.
Proof.
  intros ND HK Hq Hc Hd Hr Hrq.
  assert (NE : corpus <> []) by (intros ->; contradiction).
  rewrite sweep_total by assumption.
  rewrite (total_sumQ r) by now rewrite HK. rewrite HK.
  assert (L : sumQ (fun q0 => sumQ (fun p => weight corpus p q0) (keys corpus)
                              * rank r q0) (keys corpus)
              < sumQ (rank r) (keys corpus)).
  { apply sumQ_lt with (a := q); [|assumption|].
    - intros x Hx. pose proof (column_le_one corpus x ND Hx).
      pose proof (Hr x). set (c := sumQ _ _) in *. nra.
    - set (c := sumQ _ _) in *. nra. }
  set (a := sumQ _ _) in *. set (b := sumQ (rank r) _) in *. nra.
Qed.

(** X14.  A link to a page outside the corpus makes a sweep lose mass:
    the link counts in [len(corpus[page])] and hands its share to no
    page, so with a positive damping factor the first sweep of
    [iterate_pagerank] takes the sum of the ranks from 1 to less
    than 1. *)
Theorem dangling_link_loses_mass (corpus : corpus_t) (d : Q) (q l : page) :
  distinct (keys corpus) = true ->
  In q (keys corpus) ->
  In l (links_of corpus q) ->
  ~ In l (keys corpus) ->
  0 < d ->
  exists c r' calc',
    sweep_step corpus d (len corpus) (initial_ranks corpus) []
    = Ok (c, r', calc')
    /\ total (initial_ranks corpus) == 1
    /\ total r' < 1.
Proof.
  intros ND Hq Hl Hn Hd. apply distinct_NoDup in ND.
  destruct (sweep_step_ranks corpus d (initial_ranks corpus) [] ND
              (keys_initial_ranks corpus)) as (c & r' & calc' & E & _ & ->).
  exists c, (sweep corpus d (initial_ranks corpus)), calc'.
  split; [assumption|].
  assert (NE : corpus <> []) by (intros ->; contradiction).
  pose proof (initial_total corpus NE) as T. split; [assumption|].
  pose proof (leak_loses_mass corpus d (initial_ranks corpus) q ND
                (keys_initial_ranks corpus) Hq
                (column_dangling corpus q l ND Hl Hn) Hd
                (initial_nonneg corpus)) as L.
  rewrite T in L.
  assert (P : 0 < rank (initial_ranks corpus) q).
  { unfold initial_ranks. rewrite rank_map_cases.
    apply mem_In in Hq. rewrite Hq.
    apply Qlt_shift_div_l; [now apply len_pos | lra]. }
  specialize (L P). lra.
Qed.

Lemma dangling_link_loses_mass_witness :
  distinct (keys [("1.html", ["2.html"; "9.html"]); ("2.html", ["1.html"])]
              %string) = true
  /\ In "1.html"%string
       (keys [("1.html", ["2.html"; "9.html"]); ("2.html", ["1.html"])]%string)
  /\ In "9.html"%string
       (links_of [("1.html", ["2.html"; "9.html"]); ("2.html", ["1.html"])]
          %string "1.html"%string)
  /\ ~ In "9.html"%string
         (keys [("1.html", ["2.html"; "9.html"]); ("2.html", ["1.html"])]
            %string)
  /\ 0 < 85 # 100
  /\ exists c r' calc',
       sweep_step [("1.html", ["2.html"; "9.html"]); ("2.html", ["1.html"])]
         %string (85 # 100)
         (len [("1.html", ["2.html"; "9.html"]); ("2.html", ["1.html"])]
            %string)
         (initial_ranks
            [("1.html", ["2.html"; "9.html"]); ("2.html", ["1.html"])]%string)
         []
       = Ok (c, r', calc')
       /\ total (initial_ranks
                   [("1.html", ["2.html"; "9.html"]); ("2.html", ["1.html"])]
                   %string) == 1
       /\ total r' < 1.
Proof.
  set (corpus := [("1.html", ["2.html"; "9.html"]); ("2.html", ["1.html"])]
                   %string).
  assert (H1 : distinct (keys corpus) = true) by reflexivity.
  assert (H2 : In "1.html"%string (keys corpus)) by (simpl; tauto).
  assert (H3 : In "9.html"%string (links_of corpus "1.html"%string))
    by (simpl; tauto).
  assert (H4 : ~ In "9.html"%string (keys corpus)).
  { apply mem_false. reflexivity. }
  assert (H5 : 0 < 85 # 100) by reflexivity.
  repeat (split; [assumption|]).
  exact (dangling_link_loses_mass corpus (85 # 100) "1.html"%string
           "9.html"%string H1 H2 H3 H4 H5).
Defined.

(** ** [main] *)

Lemma insert_sorted_perm (x : string) (l : list string) :
  Permutation (insert_sorted x l) (x :: l).
Proof.
  induction l as [|y t IH]; cbn [insert_sorted]; [reflexivity|].
  destruct (String.leb x y); [reflexivity|].
  rewrite IH. apply perm_swap.
Qed.

Lemma sorted_perm (l : list string) : Permutation (sorted l) l.
Proof.
  induction l as [|x t IH]; cbn [sorted fold_right]; [reflexivity|].
  fold (sorted t). rewrite insert_sorted_perm. now constructor.
Qed.

Lemma insert_sorted_hd (x a : string) (l : list string) :
  String.leb a x = true ->
  HdRel (fun s t => String.leb s t = true) a l ->
  HdRel (fun s t => String.leb s t = true) a (insert_sorted x l).
Proof.
  intros Hx H. destruct l as [|y t]; cbn [insert_sorted].
  - now constructor.
  - destruct (String.leb x y); constructor; [assumption|].
    now inversion H.
Qed.

Lemma insert_sorted_sorted (x : string) (l : list string) :
  Sorted (fun s t => String.leb s t = true) l ->
  Sorted (fun s t => String.leb s t = true) (insert_sorted x l).
Proof.
  induction 1 as [|y t S IH H]; cbn [insert_sorted].
  - repeat constructor.
  - destruct (String.leb x y) eqn:E.
    + constructor; [now constructor|]. now constructor.
    + constructor; [assumption|].
      apply insert_sorted_hd; [|assumption].
      destruct (String.leb_total x y) as [C|C]; congruence.
Qed.

Lemma sorted_sorted (l : list string) :
  Sorted (fun s t => String.leb s t = true) (sorted l).
Proof.
  induction l as [|x t IH]; cbn [sorted fold_right]; [constructor|].
  now apply insert_sorted_sorted.
Qed.

Lemma print_ranks_ok (fmt : Q -> string) (ranks : dict Q)
  (pages : list string) :
  incl pages (keys ranks) ->
  forall out,
    print_ranks fmt ranks pages out
    = (out ++ map (rank_line fmt ranks) pages, None).
Proof.
  induction pages as [|pg t IH]; intros H out; cbn [print_ranks map].
  - now rewrite app_nil_r.
  - assert (Hpg : In pg (keys ranks)) by (apply H; now left).
    destruct (getitem_In ranks pg Hpg) as (v & Ev & Gv).
    rewrite Gv, IH by (intros x Hx; apply H; now right).
    rewrite <- app_assoc. cbn [app]. unfold rank_line at 2, rank.
    now rewrite Ev.
Qed.

Lemma print_sorted_ok (fmt : Q -> string) (ranks : dict Q)
  (out : list string) :
  print_ranks fmt ranks (sorted (keys ranks)) out
  = (out ++ map (rank_line fmt ranks) (sorted (keys ranks)), None).
Proof.
  apply print_ranks_ok. intros x Hx.
  eapply Permutation_in; [apply sorted_perm | exact Hx].
Qed.

Lemma crawl_corpus (listdir : list string) (read : string -> string)
  (findall : string -> list string) :
  exists corpus,
    crawl listdir read findall = Ok corpus
    /\ NoDup (keys corpus)
    /\ no_dangling_links corpus = true
    /\ forall f, In f (keys corpus)
                 <-> In f listdir /\ endswith f ".html" = true.
Proof.
  destruct (crawl_spec listdir read findall) as (corpus & E & ND & HK & _ & HL).
  exists corpus. repeat split; try assumption; try (now apply HK).
  unfold no_dangling_links. rewrite forallb_forall.
  intros f Hf. rewrite forallb_forall. intros p Hp.
  apply mem_In. apply (HL f Hf) in Hp. tauto.
Qed.

(** X15.  Run on a directory with at least one [.html] file, [main]
    fails nowhere and returns: it prints the heading of the sampling
    results, one line per page of the corpus with its sampled rank, the
    heading of the iteration results and one line per page with its
    iterated rank; in both blocks every page appears once and the pages
    are in increasing order.  (The file operations are taken to
    succeed; 13335 sweeps are enough for the iteration.) *)
Theorem main_prints_both_rankings (script directory : string)
  (listdir : string -> list string) (read : string -> string -> string)
  (findall : string -> list string) (draws : nat -> Q) (fmt : Q -> string)
  (fuel : nat) (f : string) :
  In f (listdir directory) ->
  endswith f ".html" = true ->
  (forall i, 0 <= draws i < 1) ->
  (sweep_bound DAMPING < fuel)%nat ->
  exists corpus sampled iterated,
    crawl (listdir directory) (read directory) findall = Ok corpus
    /\ sample_pagerank draws corpus DAMPING SAMPLES = Ok sampled
    /\ iterate_pagerank fuel corpus DAMPING = Some (Ok iterated)
    /\ Permutation (sorted (keys corpus)) (keys corpus)
    /\ Sorted (fun s t => String.leb s t = true) (sorted (keys corpus))
    /\ main [script; directory] listdir read findall draws fmt fuel
       = (["PageRank Results from Sampling (n = 10000)"%string]
          ++ map (rank_line fmt sampled) (sorted (keys corpus))
          ++ ["PageRank Results from Iteration"%string]
          ++ map (rank_line fmt iterated) (sorted (keys corpus)),
          Returns).
Proof.
  intros Hf Hh HU Hfuel.
  destruct (crawl_corpus (listdir directory) (read directory) findall)
    as (corpus & Ec & ND & CL & HK).
  assert (NE : corpus <> []).
  { intros ->. apply (HK f). now split. }
  destruct (sample_pagerank_spec draws corpus DAMPING SAMPLES ND NE
              (fun _ => CL) (HU O)) as (counters & Es & HKs & _);
    [discriminate|].
  assert (Hd : 0 <= DAMPING < 1) by (unfold DAMPING; split; lra).
  destruct (iterate_pagerank_within_bound corpus DAMPING fuel ND Hd Hfuel)
    as (k & _ & _ & Ei).
  eexists corpus, _, _. split; [assumption|]. split; [exact Es|].
  split; [exact Ei|]. split; [apply sorted_perm|].
  split; [apply sorted_sorted|].
  unfold main. rewrite Ec, Es, print_sorted_ok, Ei, print_sorted_ok.
  rewrite keys_divide, HKs, keys_sweeps_from, keys_initial_ranks.
  now rewrite <- !app_assoc.
Qed.

Lemma main_prints_both_rankings_witness :
  In "1.html"%string ((fun _ => ["1.html"; "2.html"]%string) "corpus0"%string)
  /\ endswith "1.html" ".html" = true
  /\ (forall i : nat, 0 <= 1 # 2 < 1)
  /\ (sweep_bound DAMPING < S (sweep_bound DAMPING))%nat
  /\ exists corpus sampled iterated,
       crawl ["1.html"; "2.html"]%string (fun f => f)
         (fun _ => ["1.html"; "2.html"]%string) = Ok corpus
       /\ sample_pagerank (fun _ => 1 # 2) corpus DAMPING SAMPLES = Ok sampled
       /\ iterate_pagerank (S (sweep_bound DAMPING)) corpus DAMPING
          = Some (Ok iterated)
       /\ Permutation (sorted (keys corpus)) (keys corpus)
       /\ Sorted (fun s t => String.leb s t = true) (sorted (keys corpus))
       /\ main ["pagerank.py"; "corpus0"]%string
            (fun _ => ["1.html"; "2.html"]%string) (fun _ f => f)
            (fun _ => ["1.html"; "2.html"]%string) (fun _ => 1 # 2)
            (fun _ => "0.5000"%string) (S (sweep_bound DAMPING))
          = (["PageRank Results from Sampling (n = 10000)"%string]
             ++ map (rank_line (fun _ => "0.5000"%string) sampled)
                  (sorted (keys corpus))
             ++ ["PageRank Results from Iteration"%string]
             ++ map (rank_line (fun _ => "0.5000"%string) iterated)
                  (sorted (keys corpus)),
             Returns).
Proof.
  assert (H1 : In "1.html"%string
                 ((fun _ : string => ["1.html"; "2.html"]%string)
                    "corpus0"%string)) by (simpl; tauto).
  assert (H2 : endswith "1.html" ".html" = true) by reflexivity.
  assert (H3 : forall i : nat, 0 <= 1 # 2 < 1) by (intros _; split; lra).
  assert (H4 : (sweep_bound DAMPING < S (sweep_bound DAMPING))%nat)
    by apply Nat.lt_succ_diag_r.
  repeat (split; [assumption|]).
  exact (main_prints_both_rankings "pagerank.py" "corpus0"
           (fun _ => ["1.html"; "2.html"]%string) (fun _ f => f)
           (fun _ => ["1.html"; "2.html"]%string) (fun _ => 1 # 2)
           (fun _ => "0.5000"%string) (S (sweep_bound DAMPING))
           "1.html"%string H1 H2 H3 H4).
Defined.

(** X16.  Run on a directory without any [.html] file, [main] fails
    with the [IndexError] of [random.choice] on the empty corpus, before
    it has printed anything. *)
Theorem main_without_pages (script directory : string)
  (listdir : string -> list string) (read : string -> string -> string)
  (findall : string -> list string) (draws : nat -> Q) (fmt : Q -> string)
  (fuel : nat) :
  (forall f, In f (listdir directory) -> endswith f ".html" = false) ->
  crawl (listdir directory) (read directory) findall = Ok []
  /\ main [script; directory] listdir read findall draws fmt fuel
     = ([], Fails IndexError).
Proof.
  intros H.
  destruct (crawl_corpus (listdir directory) (read directory) findall)
    as (corpus & Ec & _ & _ & HK).
  assert (E : corpus = []).
  { destruct corpus as [|[k v] t]; [reflexivity|]. exfalso.
    destruct (HK k) as [HK1 _].
    destruct (HK1 (or_introl eq_refl)) as [Hin Hh].
    rewrite (H k Hin) in Hh. discriminate. }
  subst corpus. split; [assumption|].
  unfold main. rewrite Ec. reflexivity.
Qed.

Lemma main_without_pages_witness :
  (forall f, In f ((fun _ => ["notes.txt"; "index.htm"]%string) "docs"%string)
             -> endswith f ".html" = false)
  /\ crawl ["notes.txt"; "index.htm"]%string (fun f => f) (fun _ => []) = Ok []
  /\ main ["pagerank.py"; "docs"]%string
       (fun _ => ["notes.txt"; "index.htm"]%string) (fun _ f => f)
       (fun _ => []) (fun _ => 1 # 2) (fun _ => "0.0000"%string) 10
     = ([], Fails IndexError).
Proof.
  assert (H : forall f,
             In f ((fun _ : string => ["notes.txt"; "index.htm"]%string)
                     "docs"%string) ->
             endswith f ".html" = false).
  { intros f [<-|[<-|[]]]; reflexivity. }
  split; [assumption|].
  exact (main_without_pages "pagerank.py" "docs"
           (fun _ => ["notes.txt"; "index.htm"]%string) (fun _ f => f)
           (fun _ => []) (fun _ => 1 # 2) (fun _ => "0.0000"%string) 10 H).
Defined.

(** ** The walk of [sample_pagerank] *)

Lemma bisect_loop_spec (a : list Q) (x : Q) (n : nat) :
  (forall i j, (i <= j < n)%nat -> nth i a 0 <= nth j a 0) ->
  forall fuel lo hi,
    (lo <= hi < n)%nat -> (hi - lo <= fuel)%nat ->
    (forall j, (j < lo)%nat -> nth j a 0 <= x) ->
    x < nth hi a 0 ->
    x < nth (bisect_loop fuel a x lo hi) a 0
    /\ forall j, (j < bisect_loop fuel a x lo hi)%nat -> nth j a 0 <= x.
Proof.
  intros Hs. induction fuel as [|f IH]; intros lo hi Hb Hf Hlo Hhi;
    cbn [bisect_loop].
  - assert (lo = hi) by lia. subst. now split.
  - destruct (Nat.ltb_spec lo hi) as [L|L].
    + assert (M : (lo <= (lo + hi) / 2 < hi)%nat).
      { split.
        - apply Nat.div_le_lower_bound; lia.
        - apply Nat.Div0.div_lt_upper_bound; lia. }
      generalize dependent ((lo + hi) / 2)%nat. intros mid M.
      destruct (Qlt_le_dec x (nth mid a 0)) as [C|C].
      * apply IH; auto; lia.
      * apply IH; auto; try lia.
        intros j Hj. apply Qle_trans with (nth mid a 0); [|assumption].
        apply Hs. lia.
    + assert (lo = hi) by lia. subst. now split.
Qed.

Lemma accumulate_from_nth (l : list Q) :
  forall acc i, (i < List.length l)%nat ->
    nth i (accumulate_from acc l) 0 == acc + Qsum (firstn (S i) l).
Proof.
  induction l as [|x t IH]; intros acc i Hi; cbn [List.length] in Hi; [lia|].
  destruct i as [|i]; cbn [accumulate_from nth firstn Qsum].
  - destruct t; cbn [firstn Qsum]; lra.
  - rewrite IH by lia. cbn [firstn Qsum]. lra.
Qed.

Lemma accumulate_nth (l : list Q) (i : nat) :
  (i < List.length l)%nat ->
  nth i (accumulate l) 0 == Qsum (firstn (S i) l).
Proof.
  destruct l as [|x t]; cbn [List.length]; intros Hi; [lia|].
  destruct i as [|i]; cbn [accumulate nth].
  - destruct t; cbn [firstn Qsum]; lra.
  - rewrite accumulate_from_nth by lia. cbn [firstn Qsum]. lra.
Qed.

Lemma prefix_sum_step (l : list Q) :
  forall i, (i < List.length l)%nat ->
    Qsum (firstn (S i) l) == Qsum (firstn i l) + nth i l 0.
Proof.
  induction l as [|x t IH]; intros i Hi; cbn [List.length] in Hi; [lia|].
  destruct i as [|i].
  - cbn [firstn Qsum nth]. destruct t; cbn [firstn Qsum]; lra.
  - change (firstn (S (S i)) (x :: t)) with (x :: firstn (S i) t).
    change (firstn (S i) (x :: t)) with (x :: firstn i t).
    cbn [Qsum nth]. rewrite IH by lia. lra.
Qed.

Lemma prefix_sum_mono (l : list Q) :
  Forall (fun v => 0 <= v) l ->
  forall i j, (i <= j)%nat -> Qsum (firstn i l) <= Qsum (firstn j l).
Proof.
  induction 1 as [|x t Hx Ht IH]; intros i j Hij.
  - rewrite !firstn_nil. lra.
  - destruct i as [|i]; destruct j as [|j]; try lia; cbn [firstn Qsum].
    + lra.
    + assert (0 <= Qsum (firstn j t)).
      { specialize (IH O j (Nat.le_0_l _)). cbn [firstn Qsum] in IH. exact IH. }
      lra.
    + specialize (IH i j ltac:(lia)). lra.
Qed.

(** [random.choices] does not pick an element of weight zero. *)
Lemma random_choices_positive (population : list page) (weights : list Q)
  (u : Q) (p : page) :
  List.length weights = List.length population ->
  Forall (fun v => 0 <= v) weights ->
  0 < Qsum weights ->
  0 <= u < 1 ->
  random_choices population weights u = Ok p ->
  exists i, nth_error population i = Some p /\ 0 < nth i weights 0.
Proof.
  intros HL HW HS [U0 U1]. unfold random_choices. cbv zeta.
  assert (LA : List.length (accumulate weights) = List.length population).
  { rewrite <- HL. destruct weights; cbn [accumulate List.length];
      [reflexivity|]. now rewrite accumulate_from_length. }
  rewrite LA, Nat.eqb_refl. cbn [negb].
  destruct (rev (accumulate weights)) as [|tot rest] eqn:ER; [discriminate|].
  destruct (Qle_bool tot 0) eqn:EB; [discriminate|].
  assert (Tpos : 0 < tot).
  { destruct (Qlt_le_dec 0 tot) as [T|T]; [assumption|].
    apply Qle_bool_iff in T. congruence. }
  set (n := List.length population) in *.
  assert (Hn : (0 < n)%nat).
  { destruct weights; [cbn in HS; lra|]. rewrite <- HL. cbn. lia. }
  assert (T : tot == Qsum weights).
  { apply rev_head_last with (dflt := 0) in ER. rewrite <- ER.
    destruct weights as [|w ws]; [reflexivity|].
    cbn [accumulate Qsum].
    destruct ws as [|w' ws'].
    - cbn. lra.
    - cbn [accumulate_from last].
      change (match accumulate_from (w + w') ws' with
              | [] => w + w'
              | _ :: _ => last (accumulate_from (w + w') ws') 0
              end)
        with (last (accumulate_from w (w' :: ws')) 0).
      rewrite accumulate_from_last. reflexivity. }
  set (x := u * tot).
  assert (X0 : 0 <= x) by (unfold x; nra).
  assert (X1 : x < tot) by (unfold x; nra).
  assert (Sorted_cum :
            forall i j, (i <= j < n)%nat ->
              nth i (accumulate weights) 0 <= nth j (accumulate weights) 0).
  { intros i j Hij. rewrite !accumulate_nth by lia.
    apply prefix_sum_mono; [assumption | lia]. }
  assert (Top : x < nth (n - 1) (accumulate weights) 0).
  { rewrite accumulate_nth by lia.
    replace (S (n - 1)) with (List.length weights) by lia.
    rewrite firstn_all. now rewrite <- T. }
  destruct (bisect_loop_spec (accumulate weights) x n Sorted_cum
              (n - 1 - 0) O (n - 1)%nat) as [B1 B2]; auto; try lia.
  fold (bisect (accumulate weights) x 0 (n - 1)) in B1, B2.
  pose proof (bisect_loop_bounds (accumulate weights) x (n - 1 - 0) O (n - 1)
                (Nat.le_0_l _)) as [_ B3].
  fold (bisect (accumulate weights) x 0 (n - 1)) in B3.
  set (i := bisect (accumulate weights) x 0 (n - 1)) in *.
  destruct (nth_error population i) as [q|] eqn:E; [|discriminate].
  intros [= ->]. exists i. split; [assumption|].
  rewrite accumulate_nth in B1 by lia.
  rewrite prefix_sum_step in B1 by lia.
  assert (P : Qsum (firstn i weights) <= x).
  { destruct i as [|i']; [cbn; assumption|].
    specialize (B2 i' ltac:(lia)). rewrite accumulate_nth in B2 by lia.
    exact B2. }
  lra.
Qed.

Lemma rank_nth (d : dict Q) :
  NoDup (keys d) ->
  forall j k, nth_error (keys d) j = Some k -> rank d k = nth j (values d) 0.
Proof.
  induction d as [|[k' v'] t IH]; intros ND j k Hj.
  - destruct j; discriminate.
  - cbn [keys map fst] in ND. inversion ND as [|? ? Hk ND']; subst.
    destruct j as [|j]; cbn [keys values map fst snd nth_error nth] in *.
    + injection Hj as ->. unfold rank. cbn [lookup].
      now rewrite String.eqb_refl.
    + assert (Hin : In k (keys t)) by (eapply nth_error_In; eassumption).
      unfold rank. cbn [lookup].
      destruct (String.eqb_spec k k') as [->|N]; [contradiction|].
      apply (IH ND' j k Hj).
Qed.

Lemma drawn_in_corpus (draws : nat -> Q) (corpus : corpus_t) (d : Q) :
  NoDup (keys corpus) -> corpus <> [] ->
  no_dangling_links corpus = true ->
  0 <= draws O < 1 ->
  forall i, In (drawn draws corpus d i) (keys corpus).
Proof.
  intros ND NE CL HU. induction i as [|i IH]; cbn [drawn].
  - destruct (random_choice_ok (keys corpus) (draws O)) as (p0 & E0 & H0);
      [|assumption|].
    + destruct corpus; [congruence | discriminate].
    + now rewrite E0.
  - destruct (draw_next_ok draws corpus d (S i) _ ND CL IH) as (p & _ & Dp & Hp).
    now rewrite Dp.
Qed.

Lemma drawn_succ (draws : nat -> Q) (corpus : corpus_t) (d : Q) (i : nat) :
  NoDup (keys corpus) -> corpus <> [] ->
  no_dangling_links corpus = true ->
  0 <= draws O < 1 ->
  random_choices (keys (transition corpus (drawn draws corpus d i) d))
    (values (transition corpus (drawn draws corpus d i) d)) (draws (S i))
  = Ok (drawn draws corpus d (S i)).
Proof.
  intros ND NE CL HU.
  pose proof (drawn_in_corpus draws corpus d ND NE CL HU i) as Hi.
  destruct (draw_next_ok draws corpus d (S i) _ ND CL Hi) as (p & Ep & Dp & _).
  cbn [drawn]. now rewrite Dp.
Qed.

(** X17.  The walk of [sample_pagerank] only steps to pages of positive
    transition probability: for a damping factor in [0,1], the page
    drawn after a page [q] has a positive value in the transition model
    of [q].  In particular, with damping factor 1 a step from a page
    that has links follows one of its links. *)
Theorem walk_follows_transitions (draws : nat -> Q) (corpus : corpus_t)
  (d : Q) (i : nat) :
  distinct (keys corpus) = true ->
  link_sets corpus = true ->
  no_dangling_links corpus = true ->
  corpus <> [] ->
  (forall j, 0 <= draws j < 1) ->
  0 <= d <= 1 ->
  exists model,
    transition_model corpus (drawn draws corpus d i) d = Ok model
    /\ draw_next draws corpus d (S i) (drawn draws corpus d i)
       = Ok (drawn draws corpus d (S i))
    /\ 0 < rank model (drawn draws corpus d (S i))
    /\ (d == 1 -> links_of corpus (drawn draws corpus d i) <> [] ->
        In (drawn draws corpus d (S i))
          (links_of corpus (drawn draws corpus d i))).
Proof.
  intros ND LS CL NE HU Hd. apply distinct_NoDup in ND.
  pose proof (drawn_in_corpus draws corpus d ND NE CL (HU O) i) as Hi.
  pose proof (drawn_succ draws corpus d i ND NE CL (HU O)) as Es.
  set (q := drawn draws corpus d i) in *.
  set (p := drawn draws corpus d (S i)) in *.
  pose proof (no_dangling_incl corpus q CL Hi) as Hcl.
  pose proof (transition_model_ok corpus q d ND Hi Hcl) as Em.
  exists (transition corpus q d). split; [assumption|].
  assert (KM : keys (transition corpus q d) = keys corpus)
    by now apply transition_keys.
  assert (P : 0 < rank (transition corpus q d) p).
  { set (model := transition corpus q d) in *.
    assert (A1 : List.length (values model) = List.length (keys model)).
    { unfold keys, values. now rewrite !length_map. }
    assert (A2 : 0 < Qsum (values model)).
    { fold (total model). unfold model.
      rewrite transition_total; auto. reflexivity. }
    assert (A3 : NoDup (keys model)) by now rewrite KM.
    destruct (random_choices_positive (keys model) (values model)
                (draws (S i)) p A1 (transition_nonneg corpus q d Hd) A2
                (HU (S i)) Es) as (j & Hj & Hw).
    rewrite (rank_nth model A3 j p Hj). exact Hw. }
  split; [|split; [assumption|]].
  - unfold draw_next. rewrite Em. cbn [bind]. exact Es.
  - intros D1 Hl. unfold transition in P. fold (links_of corpus q) in P.
    pose proof (len_pos _ Hl) as L.
    destruct (Qlt_le_dec 0 (len (links_of corpus q))) as [_|L']; [|lra].
    rewrite boost_rank in P.
    + rewrite rank_map_cases in P.
      destruct (mem p (links_of corpus q)) eqn:M; [now apply mem_In|].
      exfalso.
      destruct (mem p (keys corpus)).
      * rewrite D1 in P. unfold Qdiv in P. ring_simplify in P. lra.
      * lra.
    + unfold link_sets in LS. rewrite forallb_forall in LS.
      apply distinct_NoDup. now apply LS.
Qed.

Lemma walk_follows_transitions_witness :
  distinct (keys three_pages) = true
  /\ link_sets three_pages = true
  /\ no_dangling_links three_pages = true
  /\ three_pages <> []
  /\ (forall j : nat, 0 <= zero_then_half j < 1)
  /\ 0 <= 1 <= 1
  /\ exists model,
       transition_model three_pages (drawn zero_then_half three_pages 1 2) 1
       = Ok model
       /\ draw_next zero_then_half three_pages 1 3
            (drawn zero_then_half three_pages 1 2)
          = Ok (drawn zero_then_half three_pages 1 3)
       /\ 0 < rank model (drawn zero_then_half three_pages 1 3)
       /\ (1 == 1 ->
           links_of three_pages (drawn zero_then_half three_pages 1 2) <> [] ->
           In (drawn zero_then_half three_pages 1 3)
             (links_of three_pages (drawn zero_then_half three_pages 1 2))).
Proof.
  assert (H1 : distinct (keys three_pages) = true) by reflexivity.
  assert (H2 : link_sets three_pages = true) by reflexivity.
  assert (H3 : no_dangling_links three_pages = true) by reflexivity.
  assert (H4 : three_pages <> []) by discriminate.
  assert (H5 : forall j : nat, 0 <= zero_then_half j < 1).
  { intros [|j]; cbn [zero_then_half]; split; lra. }
  assert (H6 : 0 <= 1 <= 1) by (split; lra).
  repeat (split; [assumption|]).
  exact (walk_follows_transitions zero_then_half three_pages 1 2
           H1 H2 H3 H4 H5 H6).
Defined.

(** ** Pages at the ends of the scale *)

Lemma filter_none {A : Type} (f : A -> bool) (l : list A) :
  (forall x, In x l -> f x = false) -> filter f l = [].
Proof.
  induction l as [|a t IH]; cbn [filter]; intros H; [reflexivity|].
  rewrite (H a) by now left. apply IH. intros x Hx. apply H. now right.
Qed.

(** X18.  In a corpus in which every page has a link, a page that no
    other page links to ends with the least rank there is: every
    mapping that [iterate_pagerank] returns gives it exactly
    [(1 - d) / N]. *)
Theorem unlinked_page_rank (corpus : corpus_t) (d : Q) (p : page) :
  distinct (keys corpus) = true ->
  In p (keys corpus) ->
  (forall q, In q (keys corpus) -> links_of corpus q <> []) ->
  (forall q, In q (keys corpus) -> q <> p -> ~ In p (links_of corpus q)) ->
  0 <= d <= 1 ->
  (forall fuel r,
     iterate_pagerank fuel corpus d = Some (Ok r) ->
     rank r p == (1 - d) / len corpus)
  /\ (d < 1 -> exists fuel r, iterate_pagerank fuel corpus d = Some (Ok r)).
Proof.
  intros ND Hp Hl Hi Hd. apply distinct_NoDup in ND. split.
  - intros fuel r E.
    destruct (iterate_pagerank_returns corpus d fuel r ND E) as (k & _ & _ & ->).
    change (sweeps_from corpus d (initial_ranks corpus) (S k))
      with (sweep corpus d (sweeps_from corpus d (initial_ranks corpus) k)).
    rewrite rank_sweep
      by now rewrite keys_sweeps_from, keys_initial_ranks.
    rewrite new_rank_formula. unfold new_rank_excluding_self.
    rewrite !filter_none.
    + unfold sumQ. cbn [map Qsum]. ring.
    + intros q Hq. specialize (Hl q Hq).
      destruct (links_of corpus q); [congruence | reflexivity].
    + intros q Hq. destruct (String.eqb_spec p q) as [->|N]; [reflexivity|].
      cbn [negb andb]. apply mem_false. apply Hi; [assumption | congruence].
  - intros Hd1.
    destruct (iterate_pagerank_terminates corpus d ND) as (k & St); [lra|].
    exists (S k), (sweeps_from corpus d (initial_ranks corpus) (S k)).
    now apply iterate_pagerank_enough.
Qed.

Lemma unlinked_page_rank_witness :
  distinct (keys three_pages) = true
  /\ In "3.html"%string (keys three_pages)
  /\ (forall q, In q (keys three_pages) -> links_of three_pages q <> [])
  /\ (forall q, In q (keys three_pages) -> q <> "3.html"%string ->
        ~ In "3.html"%string (links_of three_pages q))
  /\ 0 <= 85 # 100 <= 1
  /\ (forall fuel r,
        iterate_pagerank fuel three_pages (85 # 100) = Some (Ok r) ->
        rank r "3.html"%string == (1 - (85 # 100)) / len three_pages)
  /\ (85 # 100 < 1 ->
      exists fuel r, iterate_pagerank fuel three_pages (85 # 100) = Some (Ok r)).
Proof.
  assert (H1 : distinct (keys three_pages) = true) by reflexivity.
  assert (H2 : In "3.html"%string (keys three_pages)) by (simpl; tauto).
  assert (H3 : forall q, In q (keys three_pages) ->
                 links_of three_pages q <> []).
  { intros q [<-|[<-|[<-|[]]]]; discriminate. }
  assert (H4 : forall q, In q (keys three_pages) -> q <> "3.html"%string ->
                 ~ In "3.html"%string (links_of three_pages q)).
  { intros q [<-|[<-|[<-|[]]]] N; try congruence;
      apply mem_false; reflexivity. }
  assert (H5 : 0 <= 85 # 100 <= 1) by (split; lra).
  repeat (split; [assumption|]).
  exact (unlinked_page_rank three_pages (85 # 100) "3.html"%string
           H1 H2 H3 H4 H5).
Defined.

(** X19.  On a corpus of a single page without links the two estimators
    differ: for a damping factor in [0,1], [iterate_pagerank] stops
    after its first sweep and gives the page rank 1 (in exact
    arithmetic), and [sample_pagerank] gives it [(n - 1) / n]. *)
Theorem single_page_ranks (draws : nat -> Q) (pg : page) (d : Q) (n : Z)
  (fuel : nat) :
  (forall i, 0 <= draws i < 1) ->
  (1 <= n)%Z ->
  0 <= d <= 1 ->
  (exists v,
     iterate_pagerank (S fuel) [(pg, [])] d = Some (Ok [(pg, v)]) /\ v == 1)
  /\ exists v,
       sample_pagerank draws [(pg, [])] d n = Ok [(pg, v)]
       /\ v == (inject_Z n - 1) / inject_Z n.
Proof.
  intros HU Hn _. set (corpus := [(pg, @nil page)]).
  assert (ND : NoDup (keys corpus)) by (repeat constructor; intros []).
  assert (R : new_rank corpus d (initial_ranks corpus) pg == 1).
  { rewrite new_rank_weight. unfold sumQ, weight, links_of, initial_ranks, rank.
    cbn [corpus keys map fst Qsum lookup is_nil mem existsb].
    rewrite String.eqb_refl. cbn [negb andb is_nil].
    change (len corpus) with 1. field. }
  split.
  - assert (St : stops_at corpus d (initial_ranks corpus) 0).
    { split; [intros j Hj; lia|].
      change (sweeps_from corpus d (initial_ranks corpus) 1)
        with (sweep corpus d (initial_ranks corpus)).
      change (sweeps_from corpus d (initial_ranks corpus) 0)
        with (initial_ranks corpus).
      apply changed_false. intros p [<-|[]].
      rewrite rank_sweep by (now left). rewrite R.
      unfold initial_ranks, rank. cbn [corpus keys map fst lookup].
      rewrite String.eqb_refl. cbn. discriminate. }
    exists (new_rank corpus d (initial_ranks corpus) pg).
    split; [|assumption].
    rewrite (iterate_pagerank_result corpus d O (S fuel) ND St). reflexivity.
  - assert (CL : no_dangling_links corpus = true).
    { unfold no_dangling_links, links_of.
      cbn [corpus keys map fst forallb lookup].
      rewrite String.eqb_refl. reflexivity. }
    assert (NE : corpus <> []) by discriminate.
    destruct (sample_pagerank_spec draws corpus d n ND NE (fun _ => CL) (HU O))
      as (counters & E & HK & HT & _); [lia|].
    destruct counters as [|[k c] [|e t]]; try discriminate.
    injection HK as ->.
    exists (c / inject_Z n). split; [exact E|].
    unfold total in HT. cbn [values map snd Qsum] in HT.
    rewrite Z2Nat.id in HT by lia.
    assert (I : inject_Z (n - 1) == inject_Z n - 1).
    { unfold Zminus. rewrite inject_Z_plus. reflexivity. }
    assert (C : c == inject_Z n - 1) by (rewrite I in HT; lra).
    now rewrite C.
Qed.

Lemma single_page_ranks_witness :
  (forall i : nat, 0 <= 1 # 3 < 1)
  /\ (1 <= 4)%Z
  /\ 0 <= 85 # 100 <= 1
  /\ (exists v,
        iterate_pagerank 1 [("1.html"%string, [])] (85 # 100)
        = Some (Ok [("1.html"%string, v)])
        /\ v == 1)
  /\ exists v,
       sample_pagerank (fun _ => 1 # 3) [("1.html"%string, [])] (85 # 100) 4
       = Ok [("1.html"%string, v)]
       /\ v == (inject_Z 4 - 1) / inject_Z 4.
Proof.
  assert (H1 : forall i : nat, 0 <= 1 # 3 < 1) by (intros _; split; lra).
  assert (H2 : (1 <= 4)%Z) by lia.
  assert (H3 : 0 <= 85 # 100 <= 1) by (split; lra).
  repeat (split; [assumption|]).
  exact (single_page_ranks (fun _ => 1 # 3) "1.html"%string (85 # 100) 4 O
           H1 H2 H3).
Defined.

(** ** The loop on binary64 numbers *)

Section Binary64Loop.
Import PrimFloat.

(** Three states that a round of the loop body takes to one another,
    each time asking for another round, are never left. *)
Lemma binary64_cycle (corpus : corpus_t) (d N : float)
  (a b c : dict float) :
  Binary64.sweep_step corpus d N a a = Ok (true, b, b) ->
  Binary64.sweep_step corpus d N b b = Ok (true, c, c) ->
  Binary64.sweep_step corpus d N c c = Ok (true, a, a) ->
  forall fuel,
    Binary64.while_loop fuel corpus d N a a = None
    /\ Binary64.while_loop fuel corpus d N b b = None
    /\ Binary64.while_loop fuel corpus d N c c = None.
Proof.
  intros A B C. induction fuel as [|fuel (IA & IB & IC)].
  - repeat split; reflexivity.
  - cbn [Binary64.while_loop]. rewrite A, B, C. repeat split; assumption.
Qed.

(** With damping factor 0.85 on the two-page cycle the loop on binary64
    numbers returns after its first sweep, as the loop on exact numbers
    does. *)
Example binary64_two_cycle :
  Binary64.iterate_pagerank 1 two_cycle 0x1.b333333333333p-1%float
  = Some (Ok [("1.html"%string, 0.5%float); ("2.html"%string, 0.5%float)]).
Proof. vm_compute. reflexivity. Qed.

(** X20.  With binary64 numbers the loop of [iterate_pagerank] need not
    return for a damping factor below 1.  On the corpus
    1 -> 2, 2 -> 3, 3 -> 1, 4 -> 1, which has neither self-links nor
    dangling links, with the damping factor 0.9999999999999999, the
    first sweep leaves the ranks 0.5, 0.25, 0.25 and 2^-55, and every
    later sweep rotates the first three: some rank changes by 0.25 in
    every sweep, and the loop is still running whatever the fuel. *)
Theorem binary64_runs_forever :
  distinct (keys Binary64.rotation) = true
  /\ link_sets Binary64.rotation = true
  /\ no_self_links Binary64.rotation = true
  /\ no_dangling_links Binary64.rotation = true
  /\ PrimFloat.leb 0 Binary64.below_one = true
  /\ PrimFloat.ltb Binary64.below_one 1 = true
  /\ forall fuel,
       Binary64.iterate_pagerank fuel Binary64.rotation Binary64.below_one
       = None.
Proof.
  repeat (split; [reflexivity|]).
  intros [|fuel]; [reflexivity|].
  set (a := Binary64.rotation_ranks 0.5 0.25 0.25).
  set (b := Binary64.rotation_ranks 0.25 0.5 0.25).
  set (c := Binary64.rotation_ranks 0.25 0.25 0.5).
  assert (I : Binary64.iterate_pagerank (S fuel) Binary64.rotation
                Binary64.below_one
              = Binary64.while_loop fuel Binary64.rotation Binary64.below_one
                  (Binary64.len Binary64.rotation) a a).
  { unfold Binary64.iterate_pagerank.
    cbn [Binary64.while_loop].
    assert (E : Binary64.sweep_step Binary64.rotation Binary64.below_one
                  (Binary64.len Binary64.rotation)
                  [("1.html"%string, 0.25%float); ("2.html"%string, 0.25%float);
                   ("3.html"%string, 0.25%float); ("4.html"%string, 0.25%float)]
                  []
                = Ok (true, a, a)) by (vm_compute; reflexivity).
    assert (E0 : for_each (keys Binary64.rotation)
                   (fun pg pr =>
                      v <- Binary64.py_div 1 (Binary64.len Binary64.rotation) ;;
                      Ok (setitem pr pg v)) []
                 = Ok [("1.html"%string, 0.25%float); ("2.html"%string, 0.25%float);
                       ("3.html"%string, 0.25%float); ("4.html"%string, 0.25%float)])
      by (vm_compute; reflexivity).
    cbv zeta. rewrite E0, E. reflexivity. }
  rewrite I.
  apply (binary64_cycle Binary64.rotation Binary64.below_one
           (Binary64.len Binary64.rotation) a b c);
    vm_compute; reflexivity.
Qed.

End Binary64Loop.
